(** * TriviaGenius AI: a shallow embedding of the client-side logic

    The repository is a browser front end (React) over a hosted generative
    service.  This development embeds the parts of it that carry logic:

    - [GeminiService]: question generation and text-to-speech
      (services/geminiService);
    - [LiveGame]: the live voice session component
      (components/LiveGame.tsx): playback scheduling, interruption,
      microphone frames, teardown;
    - [StandardGame]: the text/TTS game component and its speech queue
      (components/StandardGame).

    Conventions.  JavaScript numbers that hold times are exact rationals
    ([Q]); counters and indices are [nat], compared in [Z] where the source
    subtracts.  A JavaScript string is the list of its UTF-16 code units.
    An [async] function is cut at each [await]: the value the awaited
    promise settles with is an argument of the model.  Calls into the
    browser and the vendor SDK are recorded as a list of effects, oldest
    first. *)

From Stdlib Require Import List Bool Arith NArith ZArith QArith Qminmax Lqa Lia.
From Stdlib Require Import String Ascii DecimalString.
Import ListNotations.

(** ** JavaScript strings *)

Module JsString.

Local Open Scope N_scope.

Definition code_unit := N.
Definition jsstring := list code_unit.

Definition chr (c : ascii) : code_unit := N_of_ascii c.

(** The code units of an (8-bit) literal. *)
Fixpoint lit (s : string) : jsstring :=
  match s with
  | EmptyString => []
  | String c s' => chr c :: lit s'
  end.

Definition double_quote : code_unit := 34.
Definition backtick : code_unit := 96.

(** A literal that holds double quotes: every ['] in it stands for one. *)
Definition quoted (s : string) : jsstring :=
  map (fun c => if c =? chr "'" then double_quote else c) (lit s).

Definition eqb (s t : jsstring) : bool :=
  if list_eq_dec N.eq_dec s t then true else false.

Fixpoint starts_with (pat s : jsstring) : bool :=
  match pat, s with
  | [], _ => true
  | p :: pat', c :: s' => (p =? c) && starts_with pat' s'
  | _ :: _, [] => false
  end.

(** [s.replace(/pat/g, '')] for a literal pattern: scanning from the left,
    every match is dropped and the scan goes on after it.  [skip] counts
    the code units of the current match still to drop. *)
Fixpoint remove_from (pat : jsstring) (skip : nat) (s : jsstring) : jsstring :=
  match s with
  | [] => []
  | c :: s' =>
      match skip with
      | S k => remove_from pat k s'
      | O =>
          if starts_with pat s
          then remove_from pat (List.length pat - 1) s'
          else c :: remove_from pat 0 s'
      end
  end.

Definition remove_all (pat s : jsstring) : jsstring := remove_from pat 0 s.

(** No match of [pat] begins inside [s] when [s] is followed by [t]. *)
Fixpoint no_match_in (pat s t : jsstring) : bool :=
  match s with
  | [] => true
  | _ :: s' => negb (starts_with pat (s ++ t)) && no_match_in pat s' t
  end.

(** WhiteSpace and LineTerminator of ECMAScript, what [trim] removes. *)
Definition is_space (c : code_unit) : bool :=
  ((9 <=? c) && (c <=? 13)) || (c =? 32) || (c =? 160) || (c =? 5760)
  || ((8192 <=? c) && (c <=? 8202)) || (c =? 8232) || (c =? 8233)
  || (c =? 8239) || (c =? 8287) || (c =? 12288) || (c =? 65279).

Fixpoint trim_start (s : jsstring) : jsstring :=
  match s with
  | [] => []
  | c :: s' => if is_space c then trim_start s' else s
  end.

(** Drops the white space at the end: a code unit is kept when it is not
    white space or when something is kept after it. *)
Fixpoint trim_end (s : jsstring) : jsstring :=
  match s with
  | [] => []
  | c :: s' =>
      match trim_end s' with
      | [] => if is_space c then [] else [c]
      | kept => c :: kept
      end
  end.

Definition trim (s : jsstring) : jsstring := trim_end (trim_start s).

(** [s.includes(pat)] *)
Fixpoint includes (pat s : jsstring) : bool :=
  starts_with pat s ||
  match s with
  | [] => false
  | _ :: s' => includes pat s'
  end.

(** [`${n}`] for a natural number. *)
Definition of_nat (n : nat) : jsstring :=
  lit (NilZero.string_of_uint (Nat.to_uint n)).

(** Truthiness of an optional string: [undefined] and [''] are falsy. *)
Definition truthy (s : option jsstring) : bool :=
  match s with
  | None | Some [] => false
  | Some (_ :: _) => true
  end.

End JsString.

(** ** JavaScript completions: a value, or a thrown exception *)

Module Js.

Inductive completion (A : Type) : Type :=
| Normal (a : A)
| Throw (reason : string).

Arguments Normal {A} a.
Arguments Throw {A} reason.

Definition bind {A B : Type} (c : completion A) (k : A -> completion B)
  : completion B :=
  match c with
  | Normal a => k a
  | Throw e => Throw e
  end.

(** [try { body } catch (e) { handler e }] *)
Definition try_catch {A : Type} (body : completion A)
  (handler : string -> completion A) : completion A :=
  match body with
  | Normal a => Normal a
  | Throw e => handler e
  end.

End Js.

Declare Scope js_scope.
Notation "x <- c ;; k" := (Js.bind c (fun x => k))
  (at level 61, c at next level, right associativity) : js_scope.

(** ** JSON values and a reader for JSON texts

    [JSON.parse] belongs to the JavaScript runtime.  The service code below
    takes it as a parameter; [Json.parse] is a reader after ECMA-404 used to
    run the code on concrete texts.  Numbers keep their literal. *)

Module Json.

Import JsString.
Local Open Scope N_scope.

#[warnings="-register-all"] Inductive value :=
| JNull
| JBool (b : bool)
| JNumber (literal : jsstring)
| JString (s : jsstring)
| JArray (items : list value)
| JObject (members : list (jsstring * value)).

(** [o[key]] on the members of a parsed object: the last one wins. *)
Fixpoint member (key : jsstring) (members : list (jsstring * value))
  : option value :=
  match members with
  | [] => None
  | (k, v) :: rest =>
      match member key rest with
      | Some later => Some later
      | None => if JsString.eqb k key then Some v else None
      end
  end.

(** [v[key]] for a key that no prototype defines: [null] throws, an object
    answers with its member, anything else with [undefined]. *)
Definition get (v : value) (key : jsstring) : Js.completion (option value) :=
  match v with
  | JNull => Js.Throw "TypeError"
  | JObject members => Js.Normal (member key members)
  | _ => Js.Normal None
  end.

Definition is_ws (c : code_unit) : bool :=
  (c =? 9) || (c =? 10) || (c =? 13) || (c =? 32).

Fixpoint skip_ws (s : jsstring) : jsstring :=
  match s with
  | c :: s' => if is_ws c then skip_ws s' else s
  | [] => []
  end.

Definition is_digit (c : code_unit) : bool := (48 <=? c) && (c <=? 57).

Fixpoint digits (s : jsstring) : jsstring * jsstring :=
  match s with
  | c :: s' =>
      if is_digit c then let (ds, rest) := digits s' in (c :: ds, rest)
      else ([], s)
  | [] => ([], [])
  end.

Definition hex (c : code_unit) : option N :=
  if is_digit c then Some (c - 48)
  else if (97 <=? c) && (c <=? 102) then Some (c - 87)
  else if (65 <=? c) && (c <=? 70) then Some (c - 55)
  else None.

Definition hex4 (a b c d : code_unit) : option code_unit :=
  match hex a, hex b, hex c, hex d with
  | Some a, Some b, Some c, Some d => Some (((a * 16 + b) * 16 + c) * 16 + d)
  | _, _, _, _ => None
  end.

(** The character a one-letter escape stands for. *)
Definition escape (c : code_unit) : option code_unit :=
  if c =? 34 then Some 34          (* quote *)
  else if c =? 92 then Some 92     (* \\ *)
  else if c =? 47 then Some 47     (* \/ *)
  else if c =? 98 then Some 8      (* \b *)
  else if c =? 102 then Some 12    (* \f *)
  else if c =? 110 then Some 10    (* \n *)
  else if c =? 114 then Some 13    (* \r *)
  else if c =? 116 then Some 9     (* \t *)
  else None.

Definition cons_chars (c : code_unit) (r : option (jsstring * jsstring))
  : option (jsstring * jsstring) :=
  match r with
  | Some (cs, rest) => Some (c :: cs, rest)
  | None => None
  end.

(** The characters of a string, after its opening quote. *)
Fixpoint chars (s : jsstring) : option (jsstring * jsstring) :=
  match s with
  | [] => None
  | c :: s' =>
      if c =? 34 then Some ([], s')
      else if c =? 92 then
        match s' with
        | e :: s'' =>
            if e =? 117 then
              match s'' with
              | h1 :: h2 :: h3 :: h4 :: rest =>
                  match hex4 h1 h2 h3 h4 with
                  | Some u => cons_chars u (chars rest)
                  | None => None
                  end
              | _ => None
              end
            else
              match escape e with
              | Some u => cons_chars u (chars s'')
              | None => None
              end
        | [] => None
        end
      else if c <? 32 then None
      else cons_chars c (chars s')
  end.

(** A number: an optional minus, an integer part without leading zero, an
    optional fraction, an optional exponent. *)
Definition number (s : jsstring) : option (jsstring * jsstring) :=
  let (sign, s1) :=
    match s with
    | c :: r => if c =? 45 then ([c], r) else ([], s)
    | [] => ([], s)
    end in
  match s1 with
  | [] => None
  | d :: r =>
      if negb (is_digit d) then None
      else
        let (int, s2) :=
          if d =? 48 then ([d], r)
          else let (ds, r') := digits r in (d :: ds, r') in
        let frac :=
          match s2 with
          | c :: r2 =>
              if c =? 46 then
                match digits r2 with
                | ([], _) => None
                | (ds, r3) => Some (c :: ds, r3)
                end
              else Some ([], s2)
          | [] => Some ([], s2)
          end in
        match frac with
        | None => None
        | Some (fr, s3) =>
            let exp :=
              match s3 with
              | c :: r3 =>
                  if (c =? 101) || (c =? 69) then
                    let (sg, r4) :=
                      match r3 with
                      | g :: r' =>
                          if (g =? 43) || (g =? 45) then ([g], r') else ([], r3)
                      | [] => ([], r3)
                      end in
                    match digits r4 with
                    | ([], _) => None
                    | (ds, r5) => Some (c :: sg ++ ds, r5)
                    end
                  else Some ([], s3)
              | [] => Some ([], s3)
              end in
            match exp with
            | None => None
            | Some (ex, s4) => Some (sign ++ int ++ fr ++ ex, s4)
            end
        end
  end.

Definition keyword (word : string) (v : value) (s : jsstring)
  : option (value * jsstring) :=
  if starts_with (lit word) s
  then Some (v, skipn (String.length word) s)
  else None.

Fixpoint element (fuel : nat) (s : jsstring) {struct fuel}
  : option (value * jsstring) :=
  match fuel with
  | O => None
  | S fuel' =>
      match skip_ws s with
      | [] => None
      | c :: s' =>
          if c =? 123 then                                   (* { *)
            match skip_ws s' with
            | c' :: r =>
                if c' =? 125 then Some (JObject [], skip_ws r)
                else
                  match members fuel' s' with
                  | Some (ms, r') => Some (JObject ms, skip_ws r')
                  | None => None
                  end
            | [] => None
            end
          else if c =? 91 then                               (* [ *)
            match skip_ws s' with
            | c' :: r =>
                if c' =? 93 then Some (JArray [], skip_ws r)
                else
                  match elements fuel' s' with
                  | Some (vs, r') => Some (JArray vs, skip_ws r')
                  | None => None
                  end
            | [] => None
            end
          else if c =? 34 then
            match chars s' with
            | Some (str, r) => Some (JString str, skip_ws r)
            | None => None
            end
          else if c =? 116 then keyword "true" (JBool true) (c :: s')
          else if c =? 102 then keyword "false" (JBool false) (c :: s')
          else if c =? 110 then keyword "null" JNull (c :: s')
          else
            match number (c :: s') with
            | Some (n, r) => Some (JNumber n, skip_ws r)
            | None => None
            end
      end
  end

with elements (fuel : nat) (s : jsstring) {struct fuel}
  : option (list value * jsstring) :=
  match fuel with
  | O => None
  | S fuel' =>
      match element fuel' s with
      | Some (v, c :: r) =>
          if c =? 44 then
            match elements fuel' r with
            | Some (vs, r') => Some (v :: vs, r')
            | None => None
            end
          else if c =? 93 then Some ([v], r)
          else None
      | _ => None
      end
  end

with members (fuel : nat) (s : jsstring) {struct fuel}
  : option (list (jsstring * value) * jsstring) :=
  match fuel with
  | O => None
  | S fuel' =>
      match skip_ws s with
      | q :: s1 =>
          if negb (q =? 34) then None
          else
            match chars s1 with
            | Some (key, s2) =>
                match skip_ws s2 with
                | colon :: s3 =>
                    if negb (colon =? 58) then None
                    else
                      match element fuel' s3 with
                      | Some (v, c :: r) =>
                          if c =? 44 then
                            match members fuel' r with
                            | Some (ms, r') => Some ((key, v) :: ms, r')
                            | None => None
                            end
                          else if c =? 125 then Some ([(key, v)], r)
                          else None
                      | _ => None
                      end
                | [] => None
                end
            | None => None
            end
      | [] => None
      end
  end.

(** The whole text is one value; [None] is the [SyntaxError]. *)
Definition parse (text : jsstring) : option value :=
  match element (2 * List.length text + 2) text with
  | Some (v, []) => Some v
  | _ => None
  end.

End Json.

(** ** types.ts *)

Module Types.

Import JsString.

Record TriviaQuestion := {
  question : jsstring;
  answer : jsstring;
  context : option jsstring
}.

Inductive GameMode := SETUP | LOADING | PLAY_LIVE | PLAY_STANDARD | GAME_OVER.

Inductive HostPersonality :=
| SARCASTIC_ROBOT
| ENTHUSIASTIC_HOST
| STRICT_PROFESSOR
| CHILL_SURFER.

(** The string value of an enumeration member. *)
Definition personality_text (p : HostPersonality) : jsstring :=
  match p with
  | SARCASTIC_ROBOT => lit "Sarcastic Robot"
  | ENTHUSIASTIC_HOST => lit "Enthusiastic Game Show Host"
  | STRICT_PROFESSOR => lit "Strict History Professor"
  | CHILL_SURFER => lit "Chill Surfer Dude"
  end.

Record GameState := {
  mode : GameMode;
  topic : jsstring;
  personality : HostPersonality;
  questions : list TriviaQuestion;
  score : nat;
  currentQuestionIndex : nat
}.

End Types.

(** ** Web Audio objects *)

Module WebAudio.

(** An [AudioBuffer] of [length] sample frames at [sampleRate] Hz; its
    attribute [duration] is their quotient, in seconds. *)
Record AudioBuffer := {
  length : N;
  sampleRate : positive
}.

Definition duration (b : AudioBuffer) : Q :=
  Z.of_N (length b) # sampleRate b.

End WebAudio.

(** ** services/geminiService.ts *)

Module GeminiService.

Import JsString.
Local Open Scope js_scope.

(** [GenerateContentResponse], as far as the service looks into it. *)
Record WebSource := { uri : option jsstring }.
Record GroundingChunk := { web : option WebSource }.
Record GroundingMetadata := { groundingChunks : option (list GroundingChunk) }.
Record InlineData := { data : option jsstring }.
Record Part := { inlineData : option InlineData }.
Record Content := { parts : option (list Part) }.

Record Candidate := {
  content : option Content;
  groundingMetadata : option GroundingMetadata
}.

Record GenerateContentResponse := {
  text : option jsstring;
  candidates : option (list Candidate)
}.

(** The prompt of the question request; ['] stands for a double quote. *)
Definition questions_prompt (topic : jsstring) : jsstring :=
  quoted "Generate 5 interesting, fact-checked trivia questions about '"
  ++ topic
  ++ quoted "'.
      Include the correct answer and a brief context/fun fact for each.
      Ensure the information is up-to-date using Google Search.
      
      Output the result purely as a valid JSON object with the following structure:
      {
        'questions': [
          {
            'question': 'string',
            'answer': 'string',
            'context': 'string'
          }
        ]
      }
      Do not wrap the response in markdown code blocks (like ```json). Just return the raw JSON string.".

Record GenerateContentParameters := {
  model : jsstring;
  contents : jsstring;
  googleSearch : bool;              (* config.tools holds the search tool *)
  voiceName_config : option jsstring   (* speechConfig ... voiceName *)
}.

Definition questions_request (topic : jsstring) : GenerateContentParameters :=
  {| model := lit "gemini-2.5-flash";
     contents := questions_prompt topic;
     googleSearch := true;
     voiceName_config := None |}.

(** What [generateTriviaQuestions] resolves with. *)
Record Generated := {
  questions : option Json.value;    (* [parsed.questions]; [None] is undefined *)
  sources : list jsstring
}.

Definition fallback : Generated :=
  {| questions :=
       Some (Json.JArray
         [Json.JObject
            [(lit "question", Json.JString (lit "What is the capital of France?"));
             (lit "answer", Json.JString (lit "Paris"));
             (lit "context",
              Json.JString (lit "It is known as the City of Lights."))]]);
     sources := [] |}.

Definition fence : jsstring := lit "```".
Definition json_fence : jsstring := lit "```json".

(** [jsonText.replace(/```json/g, '').replace(/```/g, '').trim()] *)
Definition strip_fences (jsonText : jsstring) : jsstring :=
  trim (remove_all fence (remove_all json_fence jsonText)).

(** [response.candidates?.[0]?.groundingMetadata?.groundingChunks] *)
Definition grounding_chunks (response : GenerateContentResponse)
  : option (list GroundingChunk) :=
  match candidates response with
  | Some (first :: _) =>
      match groundingMetadata first with
      | Some metadata => groundingChunks metadata
      | None => None
      end
  | _ => None
  end.

(** [chunk.web?.uri], pushed when truthy. *)
Definition chunk_uri (chunk : GroundingChunk) : list jsstring :=
  match web chunk with
  | Some {| uri := Some (c :: u) |} => [c :: u]
  | _ => []
  end.

(** [Array.from(new Set(sources))]: first occurrences, in order. *)
Fixpoint unique_from (seen : list jsstring) (l : list jsstring) : list jsstring :=
  match l with
  | [] => []
  | x :: l' =>
      if existsb (JsString.eqb x) seen then unique_from seen l'
      else x :: unique_from (x :: seen) l'
  end.

Definition unique (l : list jsstring) : list jsstring := unique_from [] l.

Section WithRuntime.

(** [JSON.parse]; [None] is its [SyntaxError]. *)
Variable JSON_parse : jsstring -> option Json.value.

(** The [try] block of [generateTriviaQuestions], after the request has
    settled with [response]. *)
Definition generate_try (response : Js.completion GenerateContentResponse)
  : Js.completion Generated :=
  response <- response ;;
  match text response with
  | None | Some [] => Js.Throw "No data returned"
  | Some jsonText =>
      let jsonText := strip_fences jsonText in
      parsed <- match JSON_parse jsonText with
                | Some v => Js.Normal v
                | None => Js.Throw "SyntaxError"
                end ;;
      let sources :=
        match grounding_chunks response with
        | Some chunks => flat_map chunk_uri chunks
        | None => []
        end in
      questions <- Json.get parsed (lit "questions") ;;
      Js.Normal {| questions := questions; sources := unique sources |}
  end.

(** [generateTriviaQuestions(topic)], with [response] what the request
    [questions_request topic] settles with. *)
Definition generateTriviaQuestions (topic : jsstring)
  (response : Js.completion GenerateContentResponse)
  : Js.completion Generated :=
  Js.try_catch (generate_try response) (fun _ => Js.Normal fallback).

(** The ways the generation can fail that the specification names: the
    request is rejected, the answer has no text, the text does not parse. *)
Definition generation_fails (response : Js.completion GenerateContentResponse)
  : Prop :=
  match response with
  | Js.Throw _ => True
  | Js.Normal r =>
      match text r with
      | None | Some [] => True
      | Some jsonText => JSON_parse (strip_fences jsonText) = None
      end
  end.

End WithRuntime.

(** A JSON text between [```json] and [```], with white space [before] and
    [after] it (a line break, usually). *)
Definition fenced (before body after : jsstring) : jsstring :=
  json_fence ++ before ++ body ++ after ++ fence.

(** *** Text to speech *)

Import Types.

Definition voiceName (personality : HostPersonality) : jsstring :=
  match personality with
  | SARCASTIC_ROBOT => lit "Kore"
  | ENTHUSIASTIC_HOST => lit "Fenrir"
  | STRICT_PROFESSOR => lit "Charon"
  | CHILL_SURFER => lit "Aoede"
  end.

Definition speech_request (text : jsstring) (personality : HostPersonality)
  : GenerateContentParameters :=
  {| model := lit "gemini-2.5-flash-preview-tts";
     contents := text;
     googleSearch := false;
     voiceName_config := Some (voiceName personality) |}.

(** [response.candidates?.[0]?.content?.parts?.[0]?.inlineData?.data] *)
Definition speech_data (response : GenerateContentResponse) : option jsstring :=
  match candidates response with
  | Some (first :: _) =>
      match content first with
      | Some {| parts := Some (part :: _) |} =>
          match inlineData part with
          | Some inline => data inline
          | None => None
          end
      | _ => None
      end
  | _ => None
  end.

(** How the promise returned by [playTextToSpeech] stands when the executor
    has run its course. *)
Inductive settlement :=
| Resolved                                   (* [resolve()] was called *)
| ResolvesOnEnded (buf : WebAudio.AudioBuffer)
    (* the source plays; [resolve] is its [onended] handler *)
| RejectedWith (reason : string)             (* [reject] was called *)
| StaysPending.
    (* the executor threw outside its [try]: nobody settles the promise *)

(** The world as one call of [playTextToSpeech] meets it: what the request
    settles with, whether the audio context is closed when the answer is
    in, what decoding settles with, and whether creating, connecting and
    starting the source throws. *)
Record SpeechWorld := {
  response : Js.completion GenerateContentResponse;
  context_closed : bool;
  decoded : Js.completion WebAudio.AudioBuffer;
  started : Js.completion unit
}.

(** A request, decoding or playback failure. *)
Definition speech_fails (w : SpeechWorld) : Prop :=
  (exists e, response w = Js.Throw e)
  \/ (exists e, decoded w = Js.Throw e)
  \/ (exists e, started w = Js.Throw e).

(** The [try] block of the executor. *)
Definition speech_try (w : SpeechWorld) : Js.completion settlement :=
  response <- response w ;;
  if truthy (speech_data response) then
    if context_closed w then Js.Normal Resolved
    else
      audioBuffer <- decoded w ;;
      _ <- started w ;;
      Js.Normal (ResolvesOnEnded audioBuffer)
  else Js.Normal Resolved.

(** [playTextToSpeech(text, personality, audioContext)]: the executor
    catches whatever its [try] block throws and resolves. *)
Definition playTextToSpeech (text : jsstring) (personality : HostPersonality)
  (w : SpeechWorld) : settlement :=
  match Js.try_catch (speech_try w) (fun _ => Js.Normal Resolved) with
  | Js.Normal s => s
  | Js.Throw _ => StaysPending
  end.

(** The URIs that the sources are collected from: the truthy [web.uri] of
    the grounding chunks of the first candidate, in order. *)
Definition grounding_uris (r : GenerateContentResponse) : list jsstring :=
  match grounding_chunks r with
  | Some chunks => flat_map chunk_uri chunks
  | None => []
  end.

(** The voice selection of [playTextToSpeech] as it is written, on the
    string a personality is at run time: a default, then one test after the
    other. *)
Definition select_voice (personality : jsstring) : jsstring :=
  let voiceName := lit "Puck" in
  let voiceName :=
    if JsString.eqb personality (personality_text SARCASTIC_ROBOT)
    then lit "Kore" else voiceName in
  let voiceName :=
    if JsString.eqb personality (personality_text ENTHUSIASTIC_HOST)
    then lit "Fenrir" else voiceName in
  let voiceName :=
    if JsString.eqb personality (personality_text STRICT_PROFESSOR)
    then lit "Charon" else voiceName in
  let voiceName :=
    if JsString.eqb personality (personality_text CHILL_SURFER)
    then lit "Aoede" else voiceName in
  voiceName.

(** *** Live session *)

(** [arr.join(sep)] *)
Fixpoint join (sep : jsstring) (l : list jsstring) : jsstring :=
  match l with
  | [] => []
  | [x] => x
  | x :: rest => x ++ sep ++ join sep rest
  end.

(** [`Q${i+1}: ${q.question} (Answer: ${q.answer}. Context: ${q.context})`] *)
Definition question_line (i : nat) (q : TriviaQuestion) : jsstring :=
  lit "Q" ++ of_nat (i + 1) ++ lit ": " ++ question q
  ++ lit " (Answer: " ++ answer q ++ lit ". Context: "
  ++ match context q with Some c => c | None => lit "undefined" end
  ++ lit ")".

(** [questions.map((q, i) => ...)], from index [i] on. *)
Fixpoint question_lines (i : nat) (questions : list TriviaQuestion)
  : list jsstring :=
  match questions with
  | [] => []
  | q :: rest => question_line i q :: question_lines (S i) rest
  end.

Definition questionsContext (questions : list TriviaQuestion) : jsstring :=
  join [10%N] (question_lines 0 questions).

(** The system instruction of [connectToLiveSession]; ['] stands for a
    double quote. *)
Definition systemInstruction (personality : HostPersonality) (topic : jsstring)
  (questions : list TriviaQuestion) : jsstring :=
  quoted "
        You are a trivia host with the personality of a '"
  ++ personality_text personality
  ++ quoted "'.
        The topic is '"
  ++ topic
  ++ quoted "'.
        You have the following list of 5 questions to ask the user:
        "
  ++ questionsContext questions
  ++ lit "
        
        Instructions:
        1. Introduce yourself briefly and the topic.
        2. Ask the questions one by one. Wait for the user to answer verbally.
        3. If they get it right, congratulate them (in character).
        4. If they get it wrong, reveal the answer gently (or sarcastically, depending on personality) and provide the context.
        5. After 5 questions, summarize their performance and say goodbye.
        
        Keep it fun, interactive, and keep the conversation moving.
      ".

End GeminiService.

(** ** App.tsx *)

Module App.

Import JsString Types.

(** The [useState] cells of [App]: the fields of [gameState] (with
    [questions] as the value that arrives at run time), [loading],
    [inputTopic] and [sources]; and how often [alert] was called. *)
Record App := mk {
  mode : GameMode;
  topic : jsstring;
  personality : HostPersonality;
  questions : option Json.value;
  score : nat;
  currentQuestionIndex : nat;
  loading : bool;
  inputTopic : jsstring;
  sources : list jsstring;
  alerts : nat
}.

Definition initial : App :=
  mk SETUP [] ENTHUSIASTIC_HOST (Some (Json.JArray [])) 0 0
     false (lit "Space Exploration") [] 0.

(** [startGame] up to its [await]: [setLoading(true); setSources([])]. *)
Definition startGame_begin (a : App) : App :=
  mk (mode a) (topic a) (personality a) (questions a) (score a)
     (currentQuestionIndex a) true (inputTopic a) [] (alerts a).

(** [startGame] after [await generateTriviaQuestions(inputTopic)], which
    settled with [generated]; [clicked_topic] is the [inputTopic] of the
    render that was clicked. *)
Definition startGame_resume (requested : GameMode) (clicked_topic : jsstring)
  (generated : Js.completion GeminiService.Generated) (a : App) : App :=
  match generated with
  | Js.Normal result =>
      mk requested clicked_topic (personality a)
         (GeminiService.questions result) 0 0
         false (inputTopic a) (GeminiService.sources result) (alerts a)
  | Js.Throw _ =>
      mk (mode a) (topic a) (personality a) (questions a) (score a)
         (currentQuestionIndex a) false (inputTopic a) (sources a)
         (S (alerts a))
  end.

(** [startGame(mode)], with [response] what the generation request settles
    with. *)
Definition startGame (JSON_parse : jsstring -> option Json.value)
  (requested : GameMode)
  (response : Js.completion GeminiService.GenerateContentResponse) (a : App)
  : App :=
  startGame_resume requested (inputTopic a)
    (GeminiService.generateTriviaQuestions JSON_parse (inputTopic a) response)
    (startGame_begin a).

Definition resetGame (a : App) : App :=
  mk SETUP (topic a) (personality a) (questions a) (score a)
     (currentQuestionIndex a) (loading a) (inputTopic a) (sources a) (alerts a).

Definition is_setup (m : GameMode) : bool :=
  match m with SETUP => true | _ => false end.

(** The links of the footer: [sources.slice(0, 3)], rendered when there are
    sources and the mode is not [SETUP]. *)
Definition footer_links (a : App) : list jsstring :=
  match sources a with
  | [] => []
  | _ :: _ => if is_setup (mode a) then [] else firstn 3 (sources a)
  end.

End App.

(** ** components/LiveGame.tsx *)

Module LiveGame.

Import JsString WebAudio.
Local Open Scope Q_scope.

(** Browser objects are handles; what is done to them is an [effect]. *)
Definition AudioContext := nat.
Definition MediaStreamTrack := nat.
Definition MediaStream := list MediaStreamTrack.   (* getTracks() *)
Definition AudioNode := nat.
Definition AudioBufferSourceNode := nat.

(** A microphone frame ([Float32Array], samples as rationals), and the blob
    [createPcmBlob] of utils/audioUtils makes of it; the encoder is left
    uninterpreted. *)
Definition Float32Array := list Q.
Inductive Blob := createPcmBlob (inputData : Float32Array).

(** The live session object handed over by the SDK, and the promise of it
    that [connectToLiveSession] returns. *)
Record Session := {
  session_id : nat;
  has_close : bool        (* [s.close] is truthy *)
}.

Inductive PromiseState :=
| Pending
| Fulfilled (s : Session)
| Rejected.

Inductive effect :=
| SourceStart (src : AudioBufferSourceNode) (when : Q) (buf : AudioBuffer)
| SourceStop (src : AudioBufferSourceNode)
| SendRealtimeInput (media : Blob)
| TrackStop (t : MediaStreamTrack)
| NodeConnect (n : AudioNode)
| NodeDisconnect (n : AudioNode)
| ContextClose (c : AudioContext)
| SessionClose (s : Session)
| OnEndGame.

(** [LiveServerMessage], as far as [onMessage] looks into it. *)
Record Part := { inlineData_data : option jsstring }.

Record ServerContent := {
  modelTurn_parts : option (list Part);
  turnComplete : bool;
  interrupted : bool
}.

Record LiveServerMessage := { serverContent : option ServerContent }.

(** [msg.serverContent?.modelTurn?.parts?.[0]?.inlineData?.data] *)
Definition message_data (msg : LiveServerMessage) : option jsstring :=
  match serverContent msg with
  | None => None
  | Some sc =>
      match modelTurn_parts sc with
      | Some (p :: _) => inlineData_data p
      | _ => None
      end
  end.

(** [msg.serverContent?.interrupted] *)
Definition message_interrupted (msg : LiveServerMessage) : bool :=
  match serverContent msg with
  | None => false
  | Some sc => interrupted sc
  end.

(** A callback registered with [then] on the session promise. *)
Inductive reaction :=
| SendFrame (media : Blob)      (* session.sendRealtimeInput({ media }) *)
| CloseSession.                 (* s.close && s.close() *)

(** The component: its [useState] cells, its [useRef] cells, the variables
    of the mount effect's closure, the calls of [onMessage] that wait for
    their audio to be decoded, and the session promise with the callbacks
    waiting on it.

    The mount effect runs once (dependency list []), so every callback it
    creates sees the [isMicOn] of the render it was created in:
    [effect_isMicOn]. *)
Record LiveGame := mk {
  connected : bool;
  isBotSpeaking : bool;
  error : option jsstring;
  isMicOn : bool;
  inputCtxRef : option AudioContext;
  outputCtxRef : option AudioContext;
  streamRef : option MediaStream;
  processorRef : option AudioNode;
  sourceRef : option AudioNode;
  sessionRef : bool;                  (* holds the session promise *)
  nextStartTimeRef : Q;
  audioSourcesRef : list AudioBufferSourceNode;   (* a Set, in insertion order *)
  isMounted : bool;
  effect_isMicOn : bool;
  decoding : list LiveServerMessage;
  sessionPromise : PromiseState;
  waiting : list reaction;
  next_node : nat                     (* next fresh handle *)
}.

Definition setConnected v (g : LiveGame) : LiveGame :=
  mk v (isBotSpeaking g) (error g) (isMicOn g) (inputCtxRef g)
     (outputCtxRef g) (streamRef g) (processorRef g) (sourceRef g)
     (sessionRef g) (nextStartTimeRef g) (audioSourcesRef g) (isMounted g)
     (effect_isMicOn g) (decoding g) (sessionPromise g) (waiting g)
     (next_node g).

Definition setIsBotSpeaking v (g : LiveGame) : LiveGame :=
  mk (connected g) v (error g) (isMicOn g) (inputCtxRef g) (outputCtxRef g)
     (streamRef g) (processorRef g) (sourceRef g) (sessionRef g)
     (nextStartTimeRef g) (audioSourcesRef g) (isMounted g) (effect_isMicOn g)
     (decoding g) (sessionPromise g) (waiting g) (next_node g).

Definition setError v (g : LiveGame) : LiveGame :=
  mk (connected g) (isBotSpeaking g) v (isMicOn g) (inputCtxRef g)
     (outputCtxRef g) (streamRef g) (processorRef g) (sourceRef g)
     (sessionRef g) (nextStartTimeRef g) (audioSourcesRef g) (isMounted g)
     (effect_isMicOn g) (decoding g) (sessionPromise g) (waiting g)
     (next_node g).

Definition setIsMicOn v (g : LiveGame) : LiveGame :=
  mk (connected g) (isBotSpeaking g) (error g) v (inputCtxRef g)
     (outputCtxRef g) (streamRef g) (processorRef g) (sourceRef g)
     (sessionRef g) (nextStartTimeRef g) (audioSourcesRef g) (isMounted g)
     (effect_isMicOn g) (decoding g) (sessionPromise g) (waiting g)
     (next_node g).

Definition set_contexts i o (g : LiveGame) : LiveGame :=
  mk (connected g) (isBotSpeaking g) (error g) (isMicOn g) i o (streamRef g)
     (processorRef g) (sourceRef g) (sessionRef g) (nextStartTimeRef g)
     (audioSourcesRef g) (isMounted g) (effect_isMicOn g) (decoding g)
     (sessionPromise g) (waiting g) (next_node g).

Definition set_closure m mic (g : LiveGame) : LiveGame :=
  mk (connected g) (isBotSpeaking g) (error g) (isMicOn g) (inputCtxRef g)
     (outputCtxRef g) (streamRef g) (processorRef g) (sourceRef g)
     (sessionRef g) (nextStartTimeRef g) (audioSourcesRef g) m mic
     (decoding g) (sessionPromise g) (waiting g) (next_node g).

Definition set_streamRef v (g : LiveGame) : LiveGame :=
  mk (connected g) (isBotSpeaking g) (error g) (isMicOn g) (inputCtxRef g)
     (outputCtxRef g) v (processorRef g) (sourceRef g) (sessionRef g)
     (nextStartTimeRef g) (audioSourcesRef g) (isMounted g) (effect_isMicOn g)
     (decoding g) (sessionPromise g) (waiting g) (next_node g).

Definition set_sessionRef v (g : LiveGame) : LiveGame :=
  mk (connected g) (isBotSpeaking g) (error g) (isMicOn g) (inputCtxRef g)
     (outputCtxRef g) (streamRef g) (processorRef g) (sourceRef g) v
     (nextStartTimeRef g) (audioSourcesRef g) (isMounted g) (effect_isMicOn g)
     (decoding g) (sessionPromise g) (waiting g) (next_node g).

Definition set_nodes src proc fresh (g : LiveGame) : LiveGame :=
  mk (connected g) (isBotSpeaking g) (error g) (isMicOn g) (inputCtxRef g)
     (outputCtxRef g) (streamRef g) proc src (sessionRef g)
     (nextStartTimeRef g) (audioSourcesRef g) (isMounted g) (effect_isMicOn g)
     (decoding g) (sessionPromise g) (waiting g) fresh.

Definition set_nextStartTimeRef v (g : LiveGame) : LiveGame :=
  mk (connected g) (isBotSpeaking g) (error g) (isMicOn g) (inputCtxRef g)
     (outputCtxRef g) (streamRef g) (processorRef g) (sourceRef g)
     (sessionRef g) v (audioSourcesRef g) (isMounted g) (effect_isMicOn g)
     (decoding g) (sessionPromise g) (waiting g) (next_node g).

Definition set_audioSourcesRef v (g : LiveGame) : LiveGame :=
  mk (connected g) (isBotSpeaking g) (error g) (isMicOn g) (inputCtxRef g)
     (outputCtxRef g) (streamRef g) (processorRef g) (sourceRef g)
     (sessionRef g) (nextStartTimeRef g) v (isMounted g) (effect_isMicOn g)
     (decoding g) (sessionPromise g) (waiting g) (next_node g).

Definition set_next_node v (g : LiveGame) : LiveGame :=
  mk (connected g) (isBotSpeaking g) (error g) (isMicOn g) (inputCtxRef g)
     (outputCtxRef g) (streamRef g) (processorRef g) (sourceRef g)
     (sessionRef g) (nextStartTimeRef g) (audioSourcesRef g) (isMounted g)
     (effect_isMicOn g) (decoding g) (sessionPromise g) (waiting g) v.

Definition set_isMounted v (g : LiveGame) : LiveGame :=
  mk (connected g) (isBotSpeaking g) (error g) (isMicOn g) (inputCtxRef g)
     (outputCtxRef g) (streamRef g) (processorRef g) (sourceRef g)
     (sessionRef g) (nextStartTimeRef g) (audioSourcesRef g) v
     (effect_isMicOn g) (decoding g) (sessionPromise g) (waiting g)
     (next_node g).

Definition set_decoding v (g : LiveGame) : LiveGame :=
  mk (connected g) (isBotSpeaking g) (error g) (isMicOn g) (inputCtxRef g)
     (outputCtxRef g) (streamRef g) (processorRef g) (sourceRef g)
     (sessionRef g) (nextStartTimeRef g) (audioSourcesRef g) (isMounted g)
     (effect_isMicOn g) v (sessionPromise g) (waiting g) (next_node g).

Definition set_sessionPromise v w (g : LiveGame) : LiveGame :=
  mk (connected g) (isBotSpeaking g) (error g) (isMicOn g) (inputCtxRef g)
     (outputCtxRef g) (streamRef g) (processorRef g) (sourceRef g)
     (sessionRef g) (nextStartTimeRef g) (audioSourcesRef g) (isMounted g)
     (effect_isMicOn g) (decoding g) v w (next_node g).

(** The first render: [useState] initial values, empty refs. *)
Definition first_render : LiveGame :=
  mk false false None true None None None None None false 0 [] false false
     [] Pending [] 0%nat.

(** The mount effect up to the first [await] of [init]: the closure
    variables come into being ([isMounted = true], [isMicOn] as rendered) and
    the two audio contexts are created. *)
Definition mount_effect (inputCtx outputCtx : AudioContext) (g : LiveGame)
  : LiveGame :=
  set_contexts (Some inputCtx) (Some outputCtx) (set_closure true (isMicOn g) g).

(** [init] after [await navigator.mediaDevices.getUserMedia(...)]: keep the
    stream, connect, keep the session promise; a failure is caught. *)
Definition init_resume (userMedia : Js.completion MediaStream) (g : LiveGame)
  : LiveGame :=
  match userMedia with
  | Js.Normal stream => set_sessionRef true (set_streamRef (Some stream) g)
  | Js.Throw _ =>
      if isMounted g
      then setError (Some (lit "Failed to access microphone or connect.")) g
      else g
  end.

Definition run_reaction (s : Session) (r : reaction) : list effect :=
  match r with
  | SendFrame media => [SendRealtimeInput media]
  | CloseSession => if has_close s then [SessionClose s] else []
  end.

(** [sessionPromise.then(r)]: run at once when the promise is fulfilled,
    kept while it is pending, dropped when it is rejected. *)
Definition session_then (r : reaction) (g : LiveGame) : LiveGame * list effect :=
  match sessionPromise g with
  | Pending => (set_sessionPromise Pending (waiting g ++ [r]) g, [])
  | Fulfilled s => (g, run_reaction s r)
  | Rejected => (g, [])
  end.

(** The session promise settles: the waiting callbacks run in order. *)
Definition session_settles (outcome : Js.completion Session) (g : LiveGame)
  : LiveGame * list effect :=
  match sessionPromise g, outcome with
  | Pending, Js.Normal s =>
      (set_sessionPromise (Fulfilled s) [] g, flat_map (run_reaction s) (waiting g))
  | Pending, Js.Throw _ => (set_sessionPromise Rejected [] g, [])
  | _, _ => (g, [])
  end.

Definition onOpen (g : LiveGame) : LiveGame * list effect :=
  if negb (isMounted g) then (g, [])
  else
    let g := setConnected true g in
    match inputCtxRef g, streamRef g with
    | Some _, Some _ =>
        let source := next_node g in
        let processor := S (next_node g) in
        (set_nodes (Some source) (Some processor) (S (S (next_node g))) g,
         [NodeConnect source; NodeConnect processor])
    | _, _ => (g, [])
    end.

(** [processorRef.current.onaudioprocess], installed by [onOpen]. *)
Definition onaudioprocess (inputData : Float32Array) (g : LiveGame)
  : LiveGame * list effect :=
  match processorRef g with
  | None => (g, [])
  | Some _ =>
      if negb (effect_isMicOn g) then (g, [])        (* Mute logic *)
      else session_then (SendFrame (createPcmBlob inputData)) g
  end.

Definition toggleMic (g : LiveGame) : LiveGame := setIsMicOn (negb (isMicOn g)) g.

(** The tail of [onMessage]: [if (msg.serverContent?.interrupted) ...]. *)
Definition handle_interruption (msg : LiveServerMessage) (g : LiveGame)
  : LiveGame * list effect :=
  if message_interrupted msg then
    (setIsBotSpeaking false
       (set_nextStartTimeRef 0 (set_audioSourcesRef [] g)),
     map SourceStop (audioSourcesRef g))
  else (g, []).

(** [onMessage] from the top to its [await]: the indicator goes on and the
    cursor catches up with the clock of the output context. *)
Definition onMessage_sync (currentTime : Q) (g : LiveGame) : LiveGame :=
  let g := setIsBotSpeaking true g in
  set_nextStartTimeRef (Qmax (nextStartTimeRef g) currentTime) g.

(** [onMessage] after [await decodeAudioData(base64ToBytes(data), ctx)],
    which settled with [decoded]: a rejection ends the call; else a source
    is made for the buffer and started at the cursor, the cursor moves on
    by the buffer's duration, the source joins the set; last, the
    interruption signal is looked at. *)
Definition onMessage_resume (msg : LiveServerMessage)
  (decoded : Js.completion AudioBuffer) (g : LiveGame) : LiveGame * list effect :=
  match decoded with
  | Js.Throw _ => (g, [])
  | Js.Normal audioBuffer =>
      let source := next_node g in
      let started := SourceStart source (nextStartTimeRef g) audioBuffer in
      let g := set_nextStartTimeRef
                 (nextStartTimeRef g + duration audioBuffer) g in
      let g := set_next_node (S source)
                 (set_audioSourcesRef (audioSourcesRef g ++ [source]) g) in
      let (g', stopped) := handle_interruption msg g in
      (g', started :: stopped)
  end.

(** [onMessage], handled from top to bottom with nothing in between;
    [currentTime] is the clock of the output context and [decoded] what the
    decoding settles with. *)
Definition onMessage (currentTime : Q) (msg : LiveServerMessage)
  (decoded : Js.completion AudioBuffer) (g : LiveGame) : LiveGame * list effect :=
  if negb (isMounted g) then (g, [])
  else
    match (if truthy (message_data msg) then outputCtxRef g else None) with
    | Some ctx => onMessage_resume msg decoded (onMessage_sync currentTime g)
    | None => handle_interruption msg g
    end.

(** The same call in two steps, for when other events come in between:
    first up to the [await], where the call is set aside in [decoding]... *)
Definition onMessage_begin (currentTime : Q) (msg : LiveServerMessage)
  (g : LiveGame) : LiveGame * list effect :=
  if negb (isMounted g) then (g, [])
  else
    match (if truthy (message_data msg) then outputCtxRef g else None) with
    | Some ctx =>
        (set_decoding (decoding g ++ [msg]) (onMessage_sync currentTime g), [])
    | None => handle_interruption msg g
    end.

Fixpoint remove_nth {A : Type} (i : nat) (l : list A) : list A :=
  match l, i with
  | [], _ => []
  | _ :: rest, O => rest
  | x :: rest, S i' => x :: remove_nth i' rest
  end.

(** ... then, when the decoding of the [i]-th call set aside settles. *)
Definition decode_settles (i : nat) (decoded : Js.completion AudioBuffer)
  (g : LiveGame) : LiveGame * list effect :=
  match nth_error (decoding g) i with
  | Some msg =>
      onMessage_resume msg decoded (set_decoding (remove_nth i (decoding g)) g)
  | None => (g, [])
  end.

(** The ['ended'] listener of a started source. *)
Definition on_ended (source : AudioBufferSourceNode) (g : LiveGame) : LiveGame :=
  let remaining :=
    filter (fun s => negb (Nat.eqb s source)) (audioSourcesRef g) in
  let g := set_audioSourcesRef remaining g in
  match remaining with
  | [] => setIsBotSpeaking false g
  | _ :: _ => g
  end.

Definition onClose (g : LiveGame) : LiveGame * list effect :=
  if isMounted g then (g, [OnEndGame]) else (g, []).

Definition onError (g : LiveGame) : LiveGame :=
  if isMounted g then setError (Some (lit "Connection interrupted.")) g else g.

Definition opt_list {A : Type} (o : option A) : list A :=
  match o with Some a => [a] | None => [] end.

(** The function the mount effect returns, run on teardown. *)
Definition cleanup (g : LiveGame) : LiveGame * list effect :=
  let g := set_isMounted false g in
  let released :=
    map TrackStop (match streamRef g with Some tracks => tracks | None => [] end)
    ++ map NodeDisconnect (opt_list (processorRef g))
    ++ map NodeDisconnect (opt_list (sourceRef g))
    ++ map ContextClose (opt_list (inputCtxRef g))
    ++ map ContextClose (opt_list (outputCtxRef g)) in
  if sessionRef g then
    let (g', closed) := session_then CloseSession g in
    (g', released ++ closed)
  else (g, released).

(** What can happen to the component, and its run over a list of events. *)
Inductive event :=
| MountEffect (inputCtx outputCtx : AudioContext)
| UserMedia (outcome : Js.completion MediaStream)
| SessionSettles (outcome : Js.completion Session)
| Open
| Message (currentTime : Q) (msg : LiveServerMessage)
          (decoded : Js.completion AudioBuffer)
| MessageBegins (currentTime : Q) (msg : LiveServerMessage)
| DecodeSettles (i : nat) (decoded : Js.completion AudioBuffer)
| Ended (source : AudioBufferSourceNode)
| Close
| Error
| ToggleMic
| AudioProcess (inputData : Float32Array)
| Cleanup.

Definition step (g : LiveGame) (e : event) : LiveGame * list effect :=
  match e with
  | MountEffect i o => (mount_effect i o g, [])
  | UserMedia outcome => (init_resume outcome g, [])
  | SessionSettles outcome => session_settles outcome g
  | Open => onOpen g
  | Message t msg decoded => onMessage t msg decoded g
  | MessageBegins t msg => onMessage_begin t msg g
  | DecodeSettles i decoded => decode_settles i decoded g
  | Ended source => (on_ended source g, [])
  | Close => onClose g
  | Error => (onError g, [])
  | ToggleMic => (toggleMic g, [])
  | AudioProcess inputData => onaudioprocess inputData g
  | Cleanup => cleanup g
  end.

Fixpoint run (g : LiveGame) (es : list event) : LiveGame * list effect :=
  match es with
  | [] => (g, [])
  | e :: es' =>
      let (g1, out1) := step g e in
      let (g2, out2) := run g1 es' in
      (g2, out1 ++ out2)
  end.

(** The start time and duration of every segment started, in order. *)
Fixpoint starts (out : list effect) : list (Q * Q) :=
  match out with
  | [] => []
  | SourceStart _ when buf :: out' => (when, duration buf) :: starts out'
  | _ :: out' => starts out'
  end.

(** The rule of the specification, in its words: a segment of duration [d]
    arriving at clock [now] starts at [max(cursor, now)], and the cursor
    moves to that start plus [d]. *)
Fixpoint schedule (cursor : Q) (segments : list (Q * AudioBuffer))
  : list (Q * Q) :=
  match segments with
  | [] => []
  | (now, buf) :: rest =>
      let start := Qmax cursor now in
      (start, duration buf) :: schedule (start + duration buf) rest
  end.

(** Consecutive segments do not overlap and do not go back in time. *)
Fixpoint back_to_back (plan : list (Q * Q)) : Prop :=
  match plan with
  | (s1, d1) :: (((s2, _) :: _) as rest) =>
      s1 + d1 <= s2 /\ s1 <= s2 /\ back_to_back rest
  | _ => True
  end.

Definition quiet (msg : LiveServerMessage) : Prop :=
  message_interrupted msg = false.

Definition is_start (e : effect) : bool :=
  match e with
  | SourceStart _ _ _ => true
  | _ => false
  end.

(** An event that brings no interruption signal. *)
Definition calm (e : event) : Prop :=
  match e with
  | Message _ msg _ | MessageBegins _ msg => quiet msg
  | _ => True
  end.

(** An audio segment as it reaches [onMessage]: the clock on arrival, the
    message, and the buffer its data decodes to. *)
Record Segment := {
  arrival : Q;
  message : LiveServerMessage;
  buffer : AudioBuffer
}.

Definition carries_audio (s : Segment) : Prop :=
  truthy (message_data (message s)) = true
  /\ message_interrupted (message s) = false.

Definition deliver (s : Segment) : event :=
  Message (arrival s) (message s) (Js.Normal (buffer s)).

(** A session that is up: mounted, microphone granted, connected, open. *)
Definition live_session (session : Session) : list event :=
  [ MountEffect 0%nat 1%nat;
    UserMedia (Js.Normal [0%nat]);
    SessionSettles (Js.Normal session);
    Open ].

(** A message that carries audio and nothing else. *)
Definition audio_message (data : jsstring) : LiveServerMessage :=
  {| serverContent :=
       Some {| modelTurn_parts := Some [ {| inlineData_data := Some data |} ];
               turnComplete := false;
               interrupted := false |} |}.

(** An event other than the mount effect, which runs once. *)
Definition after_mount (e : event) : Prop :=
  match e with
  | MountEffect _ _ => False
  | _ => True
  end.

(** An event other than the two halves of an overlapping [onMessage]. *)
Definition whole (e : event) : Prop :=
  match e with
  | MessageBegins _ _ | DecodeSettles _ _ => False
  | _ => True
  end.

Definition is_end_game (e : effect) : bool :=
  match e with
  | OnEndGame => true
  | _ => false
  end.

(** An event of a component whose microphone request was refused: neither
    the mount effect again nor a stream. *)
Definition without_stream (e : event) : Prop :=
  match e with
  | MountEffect _ _ | UserMedia (Js.Normal _) => False
  | _ => True
  end.

Definition is_send (e : effect) : bool :=
  match e with
  | SendRealtimeInput _ => true
  | _ => false
  end.

End LiveGame.

(** ** components/StandardGame.tsx *)

Module StandardGame.

Import JsString Types.

Inductive effect :=
| Speak (text : jsstring)       (* a call of [speak] *)
| OnRestart.

(** The [useState] cells; the question timer set by the effect on
    [currentQIdx] (it remembers the index it was set for); and whether the
    parent has been asked to leave the game, which unmounts the component. *)
Record StandardGame := mk {
  currentQIdx : nat;
  showAnswer : bool;
  score : nat;
  timer : option nat;
  over : bool
}.

Definition intro_text (gameState : GameState) : jsstring :=
  lit "Welcome to the game! I am your host, the "
  ++ personality_text (personality gameState)
  ++ lit ". Let's test your knowledge on " ++ topic gameState ++ lit ".".

Definition question_text (gameState : GameState) (idx : nat) : jsstring :=
  match nth_error (questions gameState) idx with
  | Some q => lit "Question " ++ of_nat (idx + 1) ++ lit ". " ++ question q
  | None => []
  end.

Definition answer_text (q : TriviaQuestion) : jsstring :=
  lit "The answer is " ++ answer q ++ lit ". "
  ++ match context q with Some c => c | None => lit "undefined" end.

Definition game_over_text (score : nat) : jsstring :=
  lit "Game over! You scored " ++ of_nat score ++ lit " points.".

(** The effect on [currentQIdx], for a render with index [idx] and
    [showAnswer = shown]: the timer of the previous run is cleared, and a
    new one is set when there is a question to speak. *)
Definition question_effect (gameState : GameState) (idx : nat) (shown : bool)
  : option nat :=
  match nth_error (questions gameState) idx with
  | Some _ => if negb shown then Some idx else None
  | None => None
  end.

(** Mounting: the first render, the intro, the timer for the first
    question. *)
Definition mount (gameState : GameState) : StandardGame * list effect :=
  (mk 0 false 0 (question_effect gameState 0 false) false,
   [Speak (intro_text gameState)]).

(** [handleNext], in a render that shows [g]. *)
Definition handleNext (gameState : GameState) (g : StandardGame)
  : StandardGame * list effect :=
  if (Z.of_nat (currentQIdx g)
        <? Z.of_nat (List.length (questions gameState)) - 1)%Z
  then
    (mk (currentQIdx g + 1) false (score g)
        (question_effect gameState (currentQIdx g + 1) false) (over g),
     [])
  else
    (mk (currentQIdx g) (showAnswer g) (score g) (timer g) true,
     [Speak (game_over_text (score g)); OnRestart]).

(** [handleReveal]; with no current question, reading its answer throws
    after the state update has been asked for. *)
Definition handleReveal (gameState : GameState) (g : StandardGame)
  : StandardGame * list effect :=
  let g' := mk (currentQIdx g) true (score g) (timer g) (over g) in
  match nth_error (questions gameState) (currentQIdx g) with
  | Some currentQ => (g', [Speak (answer_text currentQ)])
  | None => (g', [])
  end.

(** [() => { setScore(s => s + 1); handleNext(); }]: [handleNext] runs in
    the render that was clicked, the increment lands in the next one. *)
Definition gotItRight (gameState : GameState) (g : StandardGame)
  : StandardGame * list effect :=
  let (g', out) := handleNext gameState g in
  (mk (currentQIdx g') (showAnswer g') (score g' + 1) (timer g') (over g'), out).

Definition missedIt (gameState : GameState) (g : StandardGame)
  : StandardGame * list effect :=
  handleNext gameState g.

Definition timer_fires (gameState : GameState) (g : StandardGame)
  : option (StandardGame * list effect) :=
  match timer g with
  | Some idx =>
      Some (mk (currentQIdx g) (showAnswer g) (score g) None (over g),
            [Speak (question_text gameState idx)])
  | None => None
  end.

(** What the player and the clock can do.  A button can be clicked only
    while it is rendered: "Reveal Answer" while the answer is hidden, the
    two others while it is shown; nothing once the component is gone. *)
Inductive event := ClickReveal | ClickGotItRight | ClickMissedIt | TimerFires.

Definition step (gameState : GameState) (g : StandardGame) (e : event)
  : option (StandardGame * list effect) :=
  if over g then None
  else
    match e with
    | ClickReveal =>
        if showAnswer g then None else Some (handleReveal gameState g)
    | ClickGotItRight =>
        if showAnswer g then Some (gotItRight gameState g) else None
    | ClickMissedIt =>
        if showAnswer g then Some (missedIt gameState g) else None
    | TimerFires => timer_fires gameState g
    end.

Fixpoint run (gameState : GameState) (g : StandardGame) (es : list event)
  : option (StandardGame * list effect) :=
  match es with
  | [] => Some (g, [])
  | e :: es' =>
      match step gameState g e with
      | Some (g1, out1) =>
          match run gameState g1 es' with
          | Some (g2, out2) => Some (g2, out1 ++ out2)
          | None => None
          end
      | None => None
      end
  end.

(** A game: the component is mounted, then events happen. *)
Definition play (gameState : GameState) (es : list event)
  : option (StandardGame * list effect) :=
  let (g0, out0) := mount gameState in
  match run gameState g0 es with
  | Some (g, out) => Some (g, out0 ++ out)
  | None => None
  end.

(** Answers on the screen: one while the game is on and [showAnswer]. *)
Definition shown (g : StandardGame) : nat :=
  if over g then 0 else if showAnswer g then 1 else 0.

Definition reveals (es : list event) : nat :=
  List.length
    (filter (fun e => match e with ClickReveal => true | _ => false end) es).

(** The clicks that leave a question: "I Got It Right" and "Missed It". *)
Definition next_clicks (es : list event) : nat :=
  List.length
    (filter (fun e => match e with
                      | ClickGotItRight | ClickMissedIt => true
                      | _ => false
                      end) es).

Definition correct_answers (es : list event) : nat :=
  List.length
    (filter (fun e => match e with ClickGotItRight => true | _ => false end) es).

(** *** The speech queue

    [audioQueueRef] holds the promise at the end of a chain; [speak] appends
    [then(callback)] to it.  Utterance [k] of the chain is in one of these
    states. *)
Inductive status :=
| Waiting        (* its callback is registered and has not run *)
| InFlight       (* inside [playTextToSpeech], nothing started yet *)
| Playing        (* its source plays; its promise resolves on [onended] *)
| Done           (* its promise in the chain is fulfilled *)
| Failed         (* its promise in the chain is rejected *)
| Hung.          (* its promise will never settle *)

Inductive moment :=
| Requested (k : nat)       (* the text-to-speech request is issued *)
| Started (k : nat)         (* [source.start()] *)
| PlaybackEnded (k : nat).  (* [onended] fires *)

Record SpeechQueue := mkQueue {
  has_context : bool;       (* [audioCtxRef.current] is set *)
  closed : bool;            (* its state is 'closed' *)
  chain : list (jsstring * status);
  trace : list moment
}.

Definition status_at (q : SpeechQueue) (k : nat) : option status :=
  option_map snd (nth_error (chain q) k).

Fixpoint set_status (k : nat) (s : status) (c : list (jsstring * status))
  : list (jsstring * status) :=
  match c, k with
  | [], _ => []
  | (text, _) :: rest, O => (text, s) :: rest
  | u :: rest, S k' => u :: set_status k' s rest
  end.

Definition update (q : SpeechQueue) (k : nat) (s : status) (now : list moment)
  : SpeechQueue :=
  mkQueue (has_context q) (closed q) (set_status k s (chain q)) (trace q ++ now).

(** After the mount effect: a context, and [Promise.resolve()] as chain. *)
Definition mounted_queue : SpeechQueue := mkQueue true false [] [].

(** [speak(text)] *)
Definition speak (text : jsstring) (q : SpeechQueue) : SpeechQueue :=
  if has_context q
  then mkQueue (has_context q) (closed q) (chain q ++ [(text, Waiting)]) (trace q)
  else q.

(** The promise utterance [k] was chained to: [Promise.resolve()] for the
    first, the promise of utterance [k - 1] otherwise. *)
Definition previous (q : SpeechQueue) (k : nat) : option status :=
  match k with
  | O => Some Done
  | S k' => status_at q k'
  end.

(** The reaction of [then] for utterance [k], once the previous promise is
    settled: a rejection is passed on without calling the callback; else the
    callback runs, returns at once on a closed context, and otherwise calls
    [playTextToSpeech], which issues the request. *)
Definition run_callback (q : SpeechQueue) (k : nat) : option SpeechQueue :=
  match status_at q k, previous q k with
  | Some Waiting, Some Done =>
      if closed q then Some (update q k Done [])
      else Some (update q k InFlight [Requested k])
  | Some Waiting, Some Failed => Some (update q k Failed [])
  | _, _ => None
  end.

(** The call of [playTextToSpeech] for utterance [k] runs its course in the
    world [w]. *)
Definition settle (personality : HostPersonality) (q : SpeechQueue) (k : nat)
  (w : GeminiService.SpeechWorld) : option SpeechQueue :=
  match nth_error (chain q) k with
  | Some (text, InFlight) =>
      if Bool.eqb (GeminiService.context_closed w) (closed q) then
        match GeminiService.playTextToSpeech text personality w with
        | GeminiService.Resolved => Some (update q k Done [])
        | GeminiService.ResolvesOnEnded _ => Some (update q k Playing [Started k])
        | GeminiService.RejectedWith _ => Some (update q k Failed [])
        | GeminiService.StaysPending => Some (update q k Hung [])
        end
      else None
  | _ => None
  end.

Definition playback_ended (q : SpeechQueue) (k : nat) : option SpeechQueue :=
  match status_at q k with
  | Some Playing => Some (update q k Done [PlaybackEnded k])
  | _ => None
  end.

(** The unmount cleanup: [audioCtxRef.current?.close()]. *)
Definition close_context (q : SpeechQueue) : SpeechQueue :=
  mkQueue (has_context q) true (chain q) (trace q).

Inductive queue_event :=
| QSpeak (text : jsstring)
| QCallback (k : nat)
| QSettle (k : nat) (w : GeminiService.SpeechWorld)
| QEnded (k : nat)
| QClose.

Definition queue_step (personality : HostPersonality) (q : SpeechQueue)
  (e : queue_event) : option SpeechQueue :=
  match e with
  | QSpeak text => Some (speak text q)
  | QCallback k => run_callback q k
  | QSettle k w => settle personality q k w
  | QEnded k => playback_ended q k
  | QClose => Some (close_context q)
  end.

Fixpoint queue_run (personality : HostPersonality) (q : SpeechQueue)
  (es : list queue_event) : option SpeechQueue :=
  match es with
  | [] => Some q
  | e :: es' =>
      match queue_step personality q e with
      | Some q' => queue_run personality q' es'
      | None => None
      end
  end.

Definition active (s : status) : bool :=
  match s with
  | InFlight | Playing => true
  | _ => false
  end.

(** One thing that happens to the queue, told by its effect. *)
Inductive moves (q : SpeechQueue) : SpeechQueue -> Prop :=
| moves_speak text : moves q (speak text q)
| moves_close : moves q (close_context q)
| moves_request k :
    status_at q k = Some Waiting -> previous q k = Some Done ->
    moves q (update q k InFlight [Requested k])
| moves_skip k :
    status_at q k = Some Waiting -> previous q k = Some Done ->
    moves q (update q k Done [])
| moves_pass k :
    status_at q k = Some Waiting -> previous q k = Some Failed ->
    moves q (update q k Failed [])
| moves_resolve k :
    status_at q k = Some InFlight -> moves q (update q k Done [])
| moves_start k :
    status_at q k = Some InFlight -> moves q (update q k Playing [Started k])
| moves_end k :
    status_at q k = Some Playing ->
    moves q (update q k Done [PlaybackEnded k]).

(** An utterance that has left [Waiting] has a predecessor that is done. *)
Definition in_order (q : SpeechQueue) : Prop :=
  forall k s,
    status_at q (S k) = Some s -> s <> Waiting -> status_at q k = Some Done.

(** No promise of the chain is rejected or left pending for ever. *)
Definition unbroken (q : SpeechQueue) : Prop :=
  forall k s, status_at q k = Some s -> s <> Failed /\ s <> Hung.

Definition requested_ran (q : SpeechQueue) : Prop :=
  forall k,
    In (Requested k) (trace q) ->
    exists s, status_at q k = Some s /\ s <> Waiting.

Definition started_known (q : SpeechQueue) : Prop :=
  forall k,
    In (Started k) (trace q) ->
    status_at q k = Some Playing
    \/ (status_at q k = Some Done /\ In (PlaybackEnded k) (trace q)).

(** Whenever the request of utterance [k + 1] is issued, utterance [k], if
    it was started, has ended. *)
Definition one_after_another (moments : list moment) : Prop :=
  forall pre post k,
    moments = pre ++ Requested (S k) :: post ->
    In (Started k) moments -> In (PlaybackEnded k) pre.

Record invariant (q : SpeechQueue) : Prop := {
  inv_in_order : in_order q;
  inv_unbroken : unbroken q;
  inv_requested : requested_ran q;
  inv_started : started_known q;
  inv_trace : one_after_another (trace q)
}.

(** The texts handed to [speak], in order. *)
Fixpoint spoken_texts (es : list queue_event) : list jsstring :=
  match es with
  | [] => []
  | QSpeak text :: es' => text :: spoken_texts es'
  | _ :: es' => spoken_texts es'
  end.

(** Requests are issued in the order of the chain, each once. *)
Definition requests_in_order (moments : list moment) : Prop :=
  forall pre post k,
    moments = pre ++ Requested k :: post ->
    forall j, In (Requested j) pre -> (j < k)%nat.

End StandardGame.

(** ** Concrete inputs *)

Module Examples.

Import JsString Types WebAudio.

(** *** Live game *)

Definition session : LiveGame.Session :=
  {| LiveGame.session_id := 7; LiveGame.has_close := true |}.

(** The component once the session is up. *)
Definition live : LiveGame.LiveGame :=
  fst (LiveGame.run LiveGame.first_render (LiveGame.live_session session)).

(** Three segments of 0.5 s, 1 s and 0.25 s at 24 kHz, arriving at clock
    0, 0.1 (while the first still plays) and 2 (after a pause). *)
Definition segments : list LiveGame.Segment :=
  [ {| LiveGame.arrival := 0;
       LiveGame.message := LiveGame.audio_message (lit "AAAA");
       LiveGame.buffer := {| length := 12000; sampleRate := 24000 |} |};
    {| LiveGame.arrival := 1 # 10;
       LiveGame.message := LiveGame.audio_message (lit "BBBB");
       LiveGame.buffer := {| length := 24000; sampleRate := 24000 |} |};
    {| LiveGame.arrival := 2;
       LiveGame.message := LiveGame.audio_message (lit "CCCC");
       LiveGame.buffer := {| length := 6000; sampleRate := 24000 |} |} ].



Definition silence : AudioBuffer := {| length := 1; sampleRate := 24000 |}.

(** *** Question generation *)

Definition plain_response (jsonText : jsstring)
  : GeminiService.GenerateContentResponse :=
  {| GeminiService.text := Some jsonText; GeminiService.candidates := None |}.

Definition line_feed : jsstring := [10%N].

(** The inside of a JSON object text with one question. *)
Definition one_question : jsstring :=
  quoted "'questions':[{'question':'Who wrote Hamlet?','answer':'Shakespeare','context':'Around 1600.'}]".

Definition one_question_members : list (jsstring * Json.value) :=
  [(lit "questions",
    Json.JArray
      [Json.JObject
         [(lit "question", Json.JString (lit "Who wrote Hamlet?"));
          (lit "answer", Json.JString (lit "Shakespeare"));
          (lit "context", Json.JString (lit "Around 1600."))]])].

(** A JSON object text whose question quotes a code fence. *)
Definition fence_question : jsstring :=
  quoted "{'questions':[{'question':'What does ``` open in Markdown?','answer':'A code block','context':'Three backticks.'}]}".

Definition fence_question_members : list (jsstring * Json.value) :=
  [(lit "questions",
    Json.JArray
      [Json.JObject
         [(lit "question",
           Json.JString (lit "What does ``` open in Markdown?"));
          (lit "answer", Json.JString (lit "A code block"));
          (lit "context", Json.JString (lit "Three backticks."))]])].

(** *** Standard game *)

Definition game : GameState :=
  {| mode := PLAY_STANDARD;
     topic := lit "Theatre";
     personality := STRICT_PROFESSOR;
     questions :=
       [ {| question := lit "Who wrote Hamlet?";
            answer := lit "Shakespeare";
            context := Some (lit "Around 1600.") |};
         {| question := lit "Who wrote Tartuffe?";
            answer := lit "Moliere";
            context := None |} ];
     score := 0;
     currentQuestionIndex := 0 |}.


(** *** Speech queue *)

Definition audio_response : GeminiService.GenerateContentResponse :=
  {| GeminiService.text := None;
     GeminiService.candidates :=
       Some [ {| GeminiService.content :=
                   Some {| GeminiService.parts :=
                             Some [ {| GeminiService.inlineData :=
                                         Some {| GeminiService.data :=
                                                   Some (lit "UklGRg") |} |} ] |};
                 GeminiService.groundingMetadata := None |} ] |}.

(** A call that plays, and a call whose request fails. *)
Definition world_plays : GeminiService.SpeechWorld :=
  {| GeminiService.response := Js.Normal audio_response;
     GeminiService.context_closed := false;
     GeminiService.decoded := Js.Normal silence;
     GeminiService.started := Js.Normal tt |}.

Definition world_fails : GeminiService.SpeechWorld :=
  {| GeminiService.response := Js.Throw "network";
     GeminiService.context_closed := false;
     GeminiService.decoded := Js.Normal silence;
     GeminiService.started := Js.Normal tt |}.

(** Two utterances: the first is requested, plays and ends; then the
    second is requested. *)
Definition two_utterances : list StandardGame.queue_event :=
  [ StandardGame.QSpeak (lit "Question 1.");
    StandardGame.QSpeak (lit "The answer is 42.");
    StandardGame.QCallback 0;
    StandardGame.QSettle 0 world_plays;
    StandardGame.QEnded 0;
    StandardGame.QCallback 1 ].

Definition after_two_utterances : StandardGame.SpeechQueue :=
  StandardGame.mkQueue true false
    [(lit "Question 1.", StandardGame.Done);
     (lit "The answer is 42.", StandardGame.InFlight)]
    [StandardGame.Requested 0; StandardGame.Started 0;
     StandardGame.PlaybackEnded 0; StandardGame.Requested 1].

(** Two utterances, the first one in flight. *)
Definition first_in_flight : list StandardGame.queue_event :=
  [ StandardGame.QSpeak (lit "Question 1.");
    StandardGame.QSpeak (lit "The answer is 42.");
    StandardGame.QCallback 0 ].

Definition while_first_in_flight : StandardGame.SpeechQueue :=
  StandardGame.mkQueue true false
    [(lit "Question 1.", StandardGame.InFlight);
     (lit "The answer is 42.", StandardGame.Waiting)]
    [StandardGame.Requested 0].

(** *** More inputs *)

Definition chunk (u : option jsstring) : GeminiService.GroundingChunk :=
  {| GeminiService.web := Some {| GeminiService.uri := u |} |}.

(** A fenced answer with four grounding chunks: one URI twice, one chunk
    without URI. *)
Definition grounded_response : GeminiService.GenerateContentResponse :=
  {| GeminiService.text :=
       Some (GeminiService.fenced line_feed
               (lit "{" ++ one_question ++ lit "}") line_feed);
     GeminiService.candidates :=
       Some [ {| GeminiService.content := None;
                 GeminiService.groundingMetadata :=
                   Some {| GeminiService.groundingChunks :=
                             Some [ chunk (Some (lit "https://a.example/1"));
                                    chunk (Some (lit "https://b.example/2"));
                                    chunk None;
                                    chunk (Some (lit "https://a.example/1")) ]
                        |} |} ] |}.

Definition grounded_result : GeminiService.Generated :=
  {| GeminiService.questions :=
       Json.member (lit "questions") one_question_members;
     GeminiService.sources :=
       [lit "https://a.example/1"; lit "https://b.example/2"] |}.

(** The live component with microphone and nodes, the session promise
    still pending. *)
Definition connecting : LiveGame.LiveGame :=
  fst (LiveGame.run LiveGame.first_render
         [ LiveGame.MountEffect 0%nat 1%nat;
           LiveGame.UserMedia (Js.Normal [0%nat]);
           LiveGame.Open ]).

Definition two_frames : list LiveGame.Float32Array :=
  [ [1 # 2; -1 # 4]%Q; [0%Q] ].

(** A whole standard game: both questions revealed, the first missed, the
    second marked correct. *)
Definition whole_game : list StandardGame.event :=
  [ StandardGame.ClickReveal; StandardGame.ClickMissedIt;
    StandardGame.ClickReveal; StandardGame.ClickGotItRight ].


End Examples.

(** * Facts *)

(** ** The live game: playback scheduling *)

Section LiveGameFacts.

Import JsString WebAudio LiveGame.
Local Open Scope Q_scope.

Lemma duration_nonneg (b : AudioBuffer) : 0 <= duration b.
Proof.
  unfold duration, Qle; simpl.
  rewrite Z.mul_1_r. apply N2Z.is_nonneg.
Qed.

Lemma schedule_head_after_cursor cursor now buf rest :
  exists start,
    schedule cursor ((now, buf) :: rest)
    = (start, duration buf) :: schedule (start + duration buf) rest
    /\ cursor <= start.
Proof.
  exists (Qmax cursor now). split; [reflexivity | apply Q.le_max_l].
Qed.

Lemma schedule_back_to_back (segments : list (Q * AudioBuffer)) :
  forall cursor, back_to_back (schedule cursor segments).
Proof.
  induction segments as [| [now buf] rest IH]; intro cursor; [exact I |].
  destruct rest as [| [now2 buf2] rest2]; [exact I |].
  specialize (IH (Qmax cursor now + duration buf)).
  change (Qmax cursor now + duration buf
            <= Qmax (Qmax cursor now + duration buf) now2
          /\ Qmax cursor now <= Qmax (Qmax cursor now + duration buf) now2
          /\ back_to_back
               (schedule (Qmax cursor now + duration buf)
                         ((now2, buf2) :: rest2))).
  pose proof (Q.le_max_l (Qmax cursor now + duration buf) now2) as Hmax.
  pose proof (duration_nonneg buf) as Hd.
  repeat split; [exact Hmax | lra | exact IH].
Qed.

(** One audio message, handled by a mounted component with an output
    context: the source starts at [max(cursor, now)], the cursor moves on by
    the duration, the source joins the set. *)
Lemma onMessage_audio g ctx now msg buf :
  isMounted g = true ->
  outputCtxRef g = Some ctx ->
  truthy (message_data msg) = true ->
  message_interrupted msg = false ->
  let start := Qmax (nextStartTimeRef g) now in
  exists g',
    onMessage now msg (Js.Normal buf) g
    = (g', [SourceStart (next_node g) start buf])
    /\ nextStartTimeRef g' = start + duration buf
    /\ audioSourcesRef g' = audioSourcesRef g ++ [next_node g]
    /\ isMounted g' = true
    /\ outputCtxRef g' = Some ctx.
Proof.
  intros Hm Hc Hd Hi start.
  unfold onMessage. rewrite Hm, Hd. simpl negb. cbv iota.
  rewrite Hc.
  unfold onMessage_resume, handle_interruption. rewrite Hi.
  eexists. split; [reflexivity |].
  simpl. auto.
Qed.

Lemma run_cons g e es :
  run g (e :: es)
  = (fst (run (fst (step g e)) es),
     snd (step g e) ++ snd (run (fst (step g e)) es)).
Proof.
  simpl. destruct (step g e) as [g1 out1]. simpl.
  destruct (run g1 es) as [g2 out2]. reflexivity.
Qed.

(** C1: audio segments handled in arrival order, with no interruption in
    between, are started by the rule of the specification: each at
    [max(cursor, current time)], the cursor then moving on by the segment's
    duration.  Hence the start times never decrease, and a segment starts
    no earlier than its predecessor's start plus its predecessor's
    duration. *)
Theorem playback_schedule_back_to_back :
  forall (g : LiveGame) (ctx : AudioContext) (segments : list Segment),
    isMounted g = true ->
    outputCtxRef g = Some ctx ->
    Forall carries_audio segments ->
    let plan := starts (snd (run g (map deliver segments))) in
    plan = schedule (nextStartTimeRef g)
                    (map (fun s => (arrival s, buffer s)) segments)
    /\ back_to_back plan.
Proof.
  intros g ctx segments Hm Hc Hall plan.
  assert (Hplan : plan = schedule (nextStartTimeRef g)
                    (map (fun s => (arrival s, buffer s)) segments)).
  { subst plan. revert g Hm Hc.
    induction Hall as [| s rest [Hd Hi] _ IH]; intros g Hm Hc; [reflexivity |].
    destruct (onMessage_audio g ctx (arrival s) (message s) (buffer s)
                Hm Hc Hd Hi)
      as (g' & Hstep & Hcursor & _ & Hm' & Hc').
    rewrite !map_cons, run_cons.
    change (step g (deliver s))
      with (onMessage (arrival s) (message s) (Js.Normal (buffer s)) g).
    rewrite Hstep. cbn [fst snd app starts schedule].
    rewrite (IH g' Hm' Hc'), Hcursor. reflexivity. }
  split; [exact Hplan |].
  rewrite Hplan. apply schedule_back_to_back.
Qed.

(** Three segments: the second arrives while the first still plays and is
    queued behind it; the third arrives after a pause and starts at once. *)
Example three_segments_scheduled :
  starts (snd (run Examples.live (map deliver Examples.segments)))
  = [(0, 12000 # 24000); (12000 # 24000, 24000 # 24000); (2, 6000 # 24000)].
Proof. reflexivity. Qed.

(** *** Any interleaving

    The same holds when calls of [onMessage] overlap at their [await] and
    whatever else happens in between, as long as no interruption comes. *)

Lemma starts_app out1 out2 : starts (out1 ++ out2) = starts out1 ++ starts out2.
Proof.
  induction out1 as [| e out1 IH]; [reflexivity |].
  destruct e; simpl; rewrite IH; reflexivity.
Qed.

Lemma starts_none out : forallb (fun e => negb (is_start e)) out = true ->
                        starts out = [].
Proof.
  induction out as [| e out IH]; [reflexivity |].
  simpl. intro H. apply andb_prop in H as [He Hout].
  destruct e; try discriminate He; exact (IH Hout).
Qed.

Lemma no_start_in_reactions s (rs : list reaction) :
  forallb (fun e => negb (is_start e)) (flat_map (run_reaction s) rs) = true.
Proof.
  induction rs as [| r rs IH]; [reflexivity |].
  simpl. rewrite forallb_app, IH, andb_true_r.
  destruct r; simpl; [reflexivity |]. destruct (has_close s); reflexivity.
Qed.

Lemma no_start_in_map {A : Type} (f : A -> effect) (l : list A) :
  (forall a, is_start (f a) = false) ->
  forallb (fun e => negb (is_start e)) (map f l) = true.
Proof.
  intro Hf. induction l as [| a l IH]; [reflexivity |].
  simpl. rewrite Hf, IH. reflexivity.
Qed.

Lemma Forall_remove_nth {A : Type} (P : A -> Prop) (l : list A) :
  forall i, Forall P l -> Forall P (remove_nth i l).
Proof.
  induction l as [| x l IH]; intros i H; [destruct i; exact H |].
  inversion H as [| ? ? Hx Hl]; subst.
  destruct i as [| i]; simpl; [exact Hl |].
  constructor; [exact Hx | exact (IH i Hl)].
Qed.

(** What one calm event does to the schedule: it starts nothing and does not
    move the cursor back, or it starts one segment, not before the cursor,
    and leaves the cursor at the end of that segment. *)
Lemma step_calm g e :
  calm e ->
  Forall quiet (decoding g) ->
  Forall quiet (decoding (fst (step g e)))
  /\ ((starts (snd (step g e)) = []
       /\ nextStartTimeRef g <= nextStartTimeRef (fst (step g e)))
      \/ (exists start buf,
             starts (snd (step g e)) = [(start, duration buf)]
             /\ nextStartTimeRef g <= start
             /\ nextStartTimeRef (fst (step g e)) = start + duration buf)).
Proof.
  intros Hcalm Hq.
  assert (Hresume : forall msg buf g0,
             quiet msg ->
             starts (snd (onMessage_resume msg (Js.Normal buf) g0))
             = [(nextStartTimeRef g0, duration buf)]
             /\ nextStartTimeRef (fst (onMessage_resume msg (Js.Normal buf) g0))
                = nextStartTimeRef g0 + duration buf
             /\ decoding (fst (onMessage_resume msg (Js.Normal buf) g0))
                = decoding g0).
  { intros msg buf g0 Hmsg. unfold onMessage_resume, handle_interruption.
    rewrite Hmsg. cbn. auto. }
  destruct e; simpl in Hcalm |- *.
  - split; [exact Hq | left; split; [reflexivity | apply Qle_refl]].
  - unfold init_resume. destruct outcome; [| destruct (isMounted g)];
      (split; [exact Hq | left; split; [reflexivity | apply Qle_refl]]).
  - unfold session_settles.
    destruct (sessionPromise g), outcome; cbn;
      (split; [exact Hq | left; split; [| apply Qle_refl]]);
      try reflexivity.
    apply starts_none, no_start_in_reactions.
  - unfold onOpen. destruct (isMounted g); cbn;
      [destruct (inputCtxRef g), (streamRef g) |]; cbn;
      (split; [exact Hq | left; split; [reflexivity | apply Qle_refl]]).
  - unfold onMessage. destruct (isMounted g); cbn;
      [| split; [exact Hq | left; split; [reflexivity | apply Qle_refl]]].
    destruct (if truthy (message_data msg) then outputCtxRef g else None).
    + destruct decoded as [buf | reason].
      * destruct (Hresume msg buf (onMessage_sync currentTime g) Hcalm)
          as (Hs & Hc & Hd).
        rewrite Hd. split; [exact Hq |].
        right. exists (Qmax (nextStartTimeRef g) currentTime), buf.
        split; [exact Hs | split; [apply Q.le_max_l | exact Hc]].
      * cbn. split; [exact Hq |].
        left. split; [reflexivity | apply Q.le_max_l].
    + unfold handle_interruption. rewrite Hcalm. cbn.
      split; [exact Hq | left; split; [reflexivity | apply Qle_refl]].
  - unfold onMessage_begin. destruct (isMounted g); cbn;
      [| split; [exact Hq | left; split; [reflexivity | apply Qle_refl]]].
    destruct (if truthy (message_data msg) then outputCtxRef g else None).
    + cbn. split.
      * apply Forall_app. split; [exact Hq | constructor; [exact Hcalm |]].
        constructor.
      * left. split; [reflexivity | apply Q.le_max_l].
    + unfold handle_interruption. rewrite Hcalm. cbn.
      split; [exact Hq | left; split; [reflexivity | apply Qle_refl]].
  - unfold decode_settles.
    destruct (nth_error (decoding g) i) as [msg |] eqn:Hi; cbn;
      [| split; [exact Hq | left; split; [reflexivity | apply Qle_refl]]].
    assert (Hmsg : quiet msg).
    { apply nth_error_In in Hi. rewrite Forall_forall in Hq. exact (Hq msg Hi). }
    pose proof (Forall_remove_nth quiet (decoding g) i Hq) as Hq'.
    destruct decoded as [buf | reason].
    + destruct (Hresume msg buf (set_decoding (remove_nth i (decoding g)) g)
                  Hmsg) as (Hs & Hc & Hd).
      rewrite Hd. split; [exact Hq' |].
      right. exists (nextStartTimeRef g), buf.
      split; [exact Hs | split; [apply Qle_refl | exact Hc]].
    + cbn. split; [exact Hq' | left; split; [reflexivity | apply Qle_refl]].
  - unfold on_ended.
    match goal with
    | |- context [filter ?f ?l] => destruct (filter f l)
    end; cbn;
      (split; [exact Hq | left; split; [reflexivity | apply Qle_refl]]).
  - unfold onClose. destruct (isMounted g); cbn;
      (split; [exact Hq | left; split; [reflexivity | apply Qle_refl]]).
  - unfold onError. destruct (isMounted g); cbn;
      (split; [exact Hq | left; split; [reflexivity | apply Qle_refl]]).
  - split; [exact Hq | left; split; [reflexivity | apply Qle_refl]].
  - unfold onaudioprocess, session_then.
    destruct (processorRef g); cbn;
      [destruct (effect_isMicOn g); cbn; [destruct (sessionPromise g) |] |];
      cbn;
      (split; [exact Hq | left; split; [reflexivity | apply Qle_refl]]).
  - unfold cleanup, session_then. cbn.
    destruct (sessionRef g); [destruct (sessionPromise g) |]; cbn;
      (split; [exact Hq | left; split; [| apply Qle_refl]]);
      apply starts_none; rewrite ?forallb_app;
      repeat (apply andb_true_intro; split);
      try (apply no_start_in_map; reflexivity);
      try reflexivity.
    destruct (has_close s); reflexivity.
Qed.

(** Back to back under any interleaving: whatever calm events happen, in
    whatever order, the segments started do not overlap and do not go back
    in time, and none starts before the cursor as it stood. *)
Lemma starts_back_to_back_when_calm (es : list event) :
  forall g,
    Forall calm es ->
    Forall quiet (decoding g) ->
    back_to_back (starts (snd (run g es)))
    /\ (forall start d rest,
          starts (snd (run g es)) = (start, d) :: rest ->
          nextStartTimeRef g <= start).
Proof.
  induction es as [| e es IH]; intros g Hcalm Hq.
  - split; [exact I | intros start d rest H; discriminate H].
  - inversion Hcalm as [| ? ? He Hes]; subst.
    rewrite run_cons. cbn [snd]. rewrite starts_app.
    destruct (step_calm g e He Hq) as [Hq1 Hstep].
    destruct (IH (fst (step g e)) Hes Hq1) as [Hb Hfirst].
    destruct Hstep as [[-> Hle] | (start & buf & -> & Hle & Hcursor)].
    + split; [exact Hb |].
      intros start d rest H. specialize (Hfirst start d rest H).
      eapply Qle_trans; eassumption.
    + cbn [app]. split.
      * destruct (starts (snd (run (fst (step g e)) es)))
          as [| [s2 d2] rest] eqn:E; [exact I |].
        specialize (Hfirst s2 d2 rest eq_refl). rewrite Hcursor in Hfirst.
        pose proof (duration_nonneg buf) as Hd.
        split; [exact Hfirst | split; [lra | exact Hb]].
      * intros start' d rest H. injection H as <- _ _. exact Hle.
Qed.

(** ** The live game: interruption *)



(** ** The live game: microphone frames *)

(** What the frame handler tests is the [isMicOn] of the first render:
    no event after the mount effect changes it. *)
Lemma step_keeps_captured_isMicOn g e :
  (forall i o, e <> MountEffect i o) ->
  effect_isMicOn (fst (step g e)) = effect_isMicOn g.
Proof.
  intro Hnot. destruct e; simpl; try reflexivity.
  - exfalso. eapply Hnot. reflexivity.
  - unfold init_resume. destruct outcome; [reflexivity |].
    destruct (isMounted g); reflexivity.
  - unfold session_settles.
    destruct (sessionPromise g), outcome; reflexivity.
  - unfold onOpen. destruct (isMounted g); [| reflexivity]. simpl.
    destruct (inputCtxRef g), (streamRef g); reflexivity.
  - unfold onMessage. destruct (isMounted g); [| reflexivity]. simpl.
    unfold onMessage_resume, handle_interruption.
    destruct (if truthy (message_data msg) then outputCtxRef g else None).
    + destruct decoded; [| reflexivity].
      destruct (message_interrupted msg); reflexivity.
    + destruct (message_interrupted msg); reflexivity.
  - unfold onMessage_begin. destruct (isMounted g); [| reflexivity]. simpl.
    unfold handle_interruption.
    destruct (if truthy (message_data msg) then outputCtxRef g else None).
    + reflexivity.
    + destruct (message_interrupted msg); reflexivity.
  - unfold decode_settles, onMessage_resume, handle_interruption.
    destruct (nth_error (decoding g) i) as [msg |]; [| reflexivity].
    destruct decoded; [| reflexivity].
    destruct (message_interrupted msg); reflexivity.
  - unfold on_ended.
    match goal with
    | |- context [filter ?f ?l] => destruct (filter f l); reflexivity
    end.
  - unfold onClose. destruct (isMounted g); reflexivity.
  - unfold onError. destruct (isMounted g); reflexivity.
  - unfold onaudioprocess, session_then.
    destruct (processorRef g); [| reflexivity].
    destruct (effect_isMicOn g) eqn:Hmic; simpl; [| exact Hmic].
    destruct (sessionPromise g); simpl; exact Hmic.
  - unfold cleanup, session_then. simpl.
    destruct (sessionRef g); [| reflexivity].
    destruct (sessionPromise g); reflexivity.
Qed.

(** Once the session is up, the processor node, the captured [isMicOn] and
    the fulfilled session promise stay as they are, whatever happens. *)
Lemma step_keeps_frame_path session g e :
  (forall i o, e <> MountEffect i o) ->
  processorRef g <> None /\ effect_isMicOn g = true
  /\ sessionPromise g = Fulfilled session ->
  processorRef (fst (step g e)) <> None
  /\ effect_isMicOn (fst (step g e)) = true
  /\ sessionPromise (fst (step g e)) = Fulfilled session.
Proof.
  intros Hnot (Hproc & Hmic & Hprom).
  split; [| split; [rewrite step_keeps_captured_isMicOn; assumption |]].
  - destruct e; simpl; try exact Hproc.
    + unfold init_resume. destruct outcome; [exact Hproc |].
      destruct (isMounted g); exact Hproc.
    + unfold session_settles. rewrite Hprom. destruct outcome; exact Hproc.
    + unfold onOpen. destruct (isMounted g); [| exact Hproc]. simpl.
      destruct (inputCtxRef g), (streamRef g); simpl;
        solve [exact Hproc | discriminate].
    + unfold onMessage, onMessage_resume, handle_interruption.
      destruct (isMounted g); [| exact Hproc]. simpl.
      destruct (if truthy (message_data msg) then outputCtxRef g else None);
        [destruct decoded |];
        try destruct (message_interrupted msg); exact Hproc.
    + unfold onMessage_begin, handle_interruption.
      destruct (isMounted g); [| exact Hproc]. simpl.
      destruct (if truthy (message_data msg) then outputCtxRef g else None);
        try destruct (message_interrupted msg); exact Hproc.
    + unfold decode_settles, onMessage_resume, handle_interruption.
      destruct (nth_error (decoding g) i) as [msg |]; [| exact Hproc].
      destruct decoded; [| exact Hproc].
      destruct (message_interrupted msg); exact Hproc.
    + unfold on_ended.
      match goal with
      | |- context [filter ?f ?l] => destruct (filter f l); exact Hproc
      end.
    + unfold onClose. destruct (isMounted g); exact Hproc.
    + unfold onError. destruct (isMounted g); exact Hproc.
    + unfold onaudioprocess, session_then.
      destruct (processorRef g) eqn:E; [| congruence].
      rewrite Hmic, Hprom. cbn. rewrite E. discriminate.
    + unfold cleanup, session_then. simpl.
      destruct (sessionRef g); [rewrite Hprom |]; exact Hproc.
  - destruct e; simpl; try exact Hprom.
    + unfold init_resume. destruct outcome; [exact Hprom |].
      destruct (isMounted g); exact Hprom.
    + unfold session_settles. rewrite Hprom. destruct outcome; exact Hprom.
    + unfold onOpen. destruct (isMounted g); [| exact Hprom]. simpl.
      destruct (inputCtxRef g), (streamRef g); exact Hprom.
    + unfold onMessage, onMessage_resume, handle_interruption.
      destruct (isMounted g); [| exact Hprom]. simpl.
      destruct (if truthy (message_data msg) then outputCtxRef g else None);
        [destruct decoded |];
        try destruct (message_interrupted msg); exact Hprom.
    + unfold onMessage_begin, handle_interruption.
      destruct (isMounted g); [| exact Hprom]. simpl.
      destruct (if truthy (message_data msg) then outputCtxRef g else None);
        try destruct (message_interrupted msg); exact Hprom.
    + unfold decode_settles, onMessage_resume, handle_interruption.
      destruct (nth_error (decoding g) i) as [msg |]; [| exact Hprom].
      destruct decoded; [| exact Hprom].
      destruct (message_interrupted msg); exact Hprom.
    + unfold on_ended.
      match goal with
      | |- context [filter ?f ?l] => destruct (filter f l); exact Hprom
      end.
    + unfold onClose. destruct (isMounted g); exact Hprom.
    + unfold onError. destruct (isMounted g); exact Hprom.
    + unfold onaudioprocess, session_then.
      destruct (processorRef g); [| exact Hprom]. rewrite Hmic, Hprom.
      cbn. exact Hprom.
    + unfold cleanup, session_then. simpl.
      destruct (sessionRef g); [rewrite Hprom |]; exact Hprom.
Qed.

(** So every frame is sent, however often the microphone button has been
    clicked since the session came up. *)
Lemma every_frame_is_sent session (es : list event) (inputData : Float32Array) :
  Forall (fun e => forall i o, e <> MountEffect i o) es ->
  snd (onaudioprocess inputData
         (fst (run first_render (live_session session ++ es))))
  = [SendRealtimeInput (createPcmBlob inputData)].
Proof.
  intro Hes.
  assert (Hpath : forall g,
             processorRef g <> None /\ effect_isMicOn g = true
             /\ sessionPromise g = Fulfilled session ->
             processorRef (fst (run g es)) <> None
             /\ effect_isMicOn (fst (run g es)) = true
             /\ sessionPromise (fst (run g es)) = Fulfilled session).
  { induction Hes as [| e es He _ IH]; intros g Hg; [exact Hg |].
    rewrite run_cons. cbn [fst]. apply IH.
    apply step_keeps_frame_path; assumption. }
  assert (Hup : fst (run first_render (live_session session ++ es))
                = fst (run (fst (run first_render (live_session session))) es)).
  { unfold live_session.
    rewrite <- !app_comm_cons, !run_cons. cbn [fst app]. reflexivity. }
  rewrite Hup.
  destruct (Hpath (fst (run first_render (live_session session))))
    as (Hproc & Hmic & Hprom).
  { split; [discriminate | split; reflexivity]. }
  unfold onaudioprocess, session_then.
  destruct (processorRef _); [| congruence].
  rewrite Hmic, Hprom. reflexivity.
Qed.

(** C7 fails on the code.  The player switches the microphone off, and the
    frame that arrives next is encoded and sent all the same: the handler
    reads the [isMicOn] captured at mount, which is [true] for ever. *)
Theorem muted_frame_is_still_sent :
  forall (session : Session) (inputData : Float32Array),
    let result :=
      run first_render
          (live_session session ++ [ToggleMic; AudioProcess inputData]) in
    isMicOn (fst result) = false
    /\ snd result = [NodeConnect 0%nat; NodeConnect 1%nat;
                     SendRealtimeInput (createPcmBlob inputData)].
Proof. intros session inputData. split; reflexivity. Qed.

(** ** The live game: teardown *)


(** Teardown while [init] still waits for the microphone: the refs hold
    neither stream nor session promise yet, so only the contexts are
    closed; the stream and the session that [init] obtains afterwards are
    not touched again. *)
Example teardown_during_init :
  forall (session : Session),
    snd (run first_render
           [ MountEffect 0%nat 1%nat;
             Cleanup;
             UserMedia (Js.Normal [0%nat]);
             SessionSettles (Js.Normal session);
             Open ])
    = [ContextClose 0%nat; ContextClose 1%nat].
Proof. intro session. reflexivity. Qed.

End LiveGameFacts.
(** ** Question generation *)

Section GeminiServiceFacts.

Import JsString GeminiService.

(** C3: whatever the topic, when the request is rejected, or its answer has
    no text, or the text does not parse, [generateTriviaQuestions] does not
    raise: it returns the fallback, one hardcoded question and no
    sources. *)
Theorem generation_failure_falls_back :
  forall (JSON_parse : jsstring -> option Json.value) (topic : jsstring)
         (response : Js.completion GenerateContentResponse),
    generation_fails JSON_parse response ->
    generateTriviaQuestions JSON_parse topic response = Js.Normal fallback
    /\ (exists q, questions fallback = Some (Json.JArray [q]))
    /\ sources fallback = [].
Proof.
  intros JSON_parse topic response Hfail.
  split; [| split; [eexists; reflexivity | reflexivity]].
  unfold generateTriviaQuestions, generate_try.
  destruct response as [r | e]; [| reflexivity].
  simpl in Hfail |- *.
  destruct (text r) as [[| c jsonText] |]; try reflexivity.
  rewrite Hfail. reflexivity.
Qed.

(** Whatever happens, the caller gets a result. *)
Lemma generateTriviaQuestions_never_throws JSON_parse topic response :
  exists result,
    generateTriviaQuestions JSON_parse topic response = Js.Normal result.
Proof.
  unfold generateTriviaQuestions.
  destruct (generate_try JSON_parse response) as [result | e];
    eexists; reflexivity.
Qed.

(** A text that parses to [null] fails when [questions] is read, and falls
    back as well; a text that parses to something without a [questions]
    member is no failure: the result carries [undefined]. *)
Example null_falls_back :
  generateTriviaQuestions Json.parse (lit "Theatre")
    (Js.Normal (Examples.plain_response (lit "null")))
  = Js.Normal fallback.
Proof. reflexivity. Qed.

Example no_questions_member :
  generateTriviaQuestions Json.parse (lit "Theatre")
    (Js.Normal (Examples.plain_response (lit "[1, 2]")))
  = Js.Normal {| questions := None; sources := [] |}.
Proof. reflexivity. Qed.

(** *** Stripping the fences *)

Example strip_fences_object :
  strip_fences (fenced Examples.line_feed (lit "{}") Examples.line_feed)
  = lit "{}".
Proof. reflexivity. Qed.

Lemma remove_from_skip pat (a : jsstring) :
  forall rest, remove_from pat (List.length a) (a ++ rest)
               = remove_from pat 0 rest.
Proof.
  induction a as [| c a IH]; intro rest; [reflexivity |].
  simpl. apply IH.
Qed.

Lemma starts_with_self pat rest : starts_with pat (pat ++ rest) = true.
Proof.
  induction pat as [| p pat IH]; [reflexivity |].
  simpl. rewrite N.eqb_refl. exact IH.
Qed.

(** A match at the head is dropped. *)
Lemma remove_all_head p pat rest :
  remove_all (p :: pat) ((p :: pat) ++ rest) = remove_all (p :: pat) rest.
Proof.
  unfold remove_all.
  change (remove_from (p :: pat) 0 ((p :: pat) ++ rest))
    with (if starts_with (p :: pat) ((p :: pat) ++ rest)
          then remove_from (p :: pat) (List.length (p :: pat) - 1) (pat ++ rest)
          else p :: remove_from (p :: pat) 0 (pat ++ rest)).
  rewrite starts_with_self.
  replace (List.length (p :: pat) - 1)%nat with (List.length pat)
    by (simpl; lia).
  apply remove_from_skip.
Qed.

(** What holds no match is kept. *)
Lemma remove_all_keeps pat (s : jsstring) :
  forall t, no_match_in pat s t = true ->
            remove_all pat (s ++ t) = s ++ remove_all pat t.
Proof.
  unfold remove_all.
  induction s as [| c s IH]; intros t Hno; [reflexivity |].
  change (negb (starts_with pat ((c :: s) ++ t)) && no_match_in pat s t = true)
    in Hno.
  apply andb_prop in Hno as [Hhead Htail].
  apply negb_true_iff in Hhead.
  change (remove_from pat 0 ((c :: s) ++ t))
    with (if starts_with pat ((c :: s) ++ t)
          then remove_from pat (List.length pat - 1) (s ++ t)
          else c :: remove_from pat 0 (s ++ t)).
  rewrite Hhead, (IH t Htail). reflexivity.
Qed.

Lemma no_match_in_app pat (a : jsstring) :
  forall b t,
    no_match_in pat (a ++ b) t
    = no_match_in pat a (b ++ t) && no_match_in pat b t.
Proof.
  induction a as [| c a IH]; intros b t; [reflexivity |].
  simpl. rewrite IH, <- app_assoc, andb_assoc. reflexivity.
Qed.

(** A longer pattern matches only where its beginning does. *)
Lemma starts_with_app_l (p q s : jsstring) :
  starts_with (p ++ q) s = true -> starts_with p s = true.
Proof.
  revert s. induction p as [| c p IH]; intros s H; [reflexivity |].
  destruct s as [| d s]; [discriminate |].
  simpl in H |- *. apply andb_prop in H as [Hc Hrest].
  rewrite Hc. simpl. exact (IH s Hrest).
Qed.

Lemma no_match_in_longer (p q s t : jsstring) :
  no_match_in p s t = true -> no_match_in (p ++ q) s t = true.
Proof.
  induction s as [| c s IH]; intro H; [reflexivity |].
  change (negb (starts_with p ((c :: s) ++ t)) && no_match_in p s t = true)
    in H.
  change (negb (starts_with (p ++ q) ((c :: s) ++ t))
          && no_match_in (p ++ q) s t = true).
  apply andb_prop in H as [Hhead Htail].
  rewrite (IH Htail), andb_true_r.
  apply negb_true_iff. apply negb_true_iff in Hhead.
  destruct (starts_with (p ++ q) ((c :: s) ++ t)) eqn:E; [| reflexivity].
  apply starts_with_app_l in E. congruence.
Qed.

Lemma starts_with_cons p pat c (s : jsstring) :
  starts_with (p :: pat) (c :: s) = (p =? c)%N && starts_with pat s.
Proof. reflexivity. Qed.

Lemma fence_head c (s : jsstring) :
  starts_with fence (c :: s) = true -> c = backtick.
Proof.
  unfold fence. simpl lit. rewrite starts_with_cons.
  intro H. apply andb_prop in H as [H _].
  apply N.eqb_eq in H. symmetry. exact H.
Qed.

Lemma no_fence_in_spaces (ws : jsstring) :
  forall t, forallb is_space ws = true -> no_match_in fence ws t = true.
Proof.
  induction ws as [| c ws IH]; intros t H; [reflexivity |].
  simpl in H. apply andb_prop in H as [Hc Hws].
  change (negb (starts_with fence (c :: ws ++ t)) && no_match_in fence ws t
          = true).
  rewrite (IH t Hws), andb_true_r.
  apply negb_true_iff.
  destruct (starts_with fence (c :: ws ++ t)) eqn:E; [| reflexivity].
  apply fence_head in E. subst c. discriminate Hc.
Qed.

(** A fence that begins inside [s], with a closing brace after [s], lies
    within [s]. *)
Lemma fence_before_brace (s t : jsstring) :
  starts_with fence (s ++ 125%N :: t) = true -> starts_with fence s = true.
Proof.
  destruct s as [| a [| b [| c s]]]; intro H.
  - apply fence_head in H. discriminate H.
  - unfold fence in H. simpl lit in H. simpl app in H.
    rewrite !starts_with_cons in H.
    apply andb_prop in H as [_ H]. apply andb_prop in H as [H _].
    discriminate H.
  - unfold fence in H. simpl lit in H. simpl app in H.
    rewrite !starts_with_cons in H.
    apply andb_prop in H as [_ H]. apply andb_prop in H as [_ H].
    apply andb_prop in H as [H _]. discriminate H.
  - exact H.
Qed.

Lemma no_fence_in_text (s : jsstring) :
  forall t, includes fence s = false ->
            no_match_in fence s (125%N :: t) = true.
Proof.
  induction s as [| c s IH]; intros t H; [reflexivity |].
  change (includes fence (c :: s))
    with (starts_with fence (c :: s) || includes fence s) in H.
  apply orb_false_iff in H as [Hhead Htail].
  change (no_match_in fence (c :: s) (125%N :: t))
    with (negb (starts_with fence ((c :: s) ++ 125%N :: t))
          && no_match_in fence s (125%N :: t)).
  rewrite (IH t Htail), andb_true_r.
  apply negb_true_iff.
  destruct (starts_with fence ((c :: s) ++ 125%N :: t)) eqn:E; [| reflexivity].
  apply fence_before_brace in E. congruence.
Qed.

Lemma no_fence_in_object (inner t : jsstring) :
  includes fence inner = false ->
  no_match_in fence (lit "{" ++ inner ++ lit "}") t = true.
Proof.
  intro Hinner. simpl lit. simpl app.
  change (negb (starts_with fence (123%N :: (inner ++ [125%N]) ++ t))
          && no_match_in fence (inner ++ [125%N]) t = true).
  rewrite no_match_in_app.
  apply andb_true_intro. split; [| apply andb_true_intro; split].
  - apply negb_true_iff.
    destruct (starts_with fence (123%N :: (inner ++ [125%N]) ++ t)) eqn:E;
      [| reflexivity].
    apply fence_head in E. discriminate E.
  - apply no_fence_in_text. exact Hinner.
  - change (negb (starts_with fence (125%N :: t)) && true = true).
    rewrite andb_true_r. apply negb_true_iff.
    destruct (starts_with fence (125%N :: t)) eqn:E; [| reflexivity].
    apply fence_head in E. discriminate E.
Qed.

Lemma trim_start_spaces (ws rest : jsstring) :
  forallb is_space ws = true -> trim_start (ws ++ rest) = trim_start rest.
Proof.
  induction ws as [| c ws IH]; intro H; [reflexivity |].
  simpl in H. apply andb_prop in H as [Hc Hws].
  simpl. rewrite Hc. exact (IH Hws).
Qed.

Lemma trim_end_all_space (ws : jsstring) :
  forallb is_space ws = true -> trim_end ws = [].
Proof.
  induction ws as [| c ws IH]; intro H; [reflexivity |].
  simpl in H. apply andb_prop in H as [Hc Hws].
  simpl. rewrite (IH Hws), Hc. reflexivity.
Qed.

Lemma trim_end_spaces (s ws : jsstring) :
  forallb is_space ws = true -> trim_end (s ++ ws) = trim_end s.
Proof.
  intro H. induction s as [| c s IH].
  - apply trim_end_all_space. exact H.
  - simpl. rewrite IH. reflexivity.
Qed.

Lemma trim_end_kept (s : jsstring) (c : code_unit) :
  is_space c = false -> trim_end (s ++ [c]) = s ++ [c].
Proof.
  intro Hc. induction s as [| a s IH].
  - simpl. rewrite Hc. reflexivity.
  - simpl. rewrite IH.
    destruct (s ++ [c]) eqn:E; [| reflexivity].
    destruct s; discriminate E.
Qed.

(** Fences around a JSON object text that holds no fence itself come off,
    and the text is what remains. *)
Lemma strip_fences_fenced (before inner after : jsstring) :
  forallb is_space before = true ->
  forallb is_space after = true ->
  includes fence inner = false ->
  strip_fences (fenced before (lit "{" ++ inner ++ lit "}") after)
  = lit "{" ++ inner ++ lit "}".
Proof.
  intros Hb Ha Hinner.
  set (body := lit "{" ++ inner ++ lit "}").
  assert (Hno : no_match_in fence (before ++ body ++ after) fence = true).
  { rewrite !no_match_in_app.
    rewrite (no_fence_in_spaces before _ Hb), (no_fence_in_spaces after _ Ha).
    subst body. rewrite (no_fence_in_object inner _ Hinner). reflexivity. }
  assert (E1 : remove_all json_fence (fenced before body after)
               = (before ++ body ++ after) ++ fence).
  { unfold fenced.
    rewrite (remove_all_head 96%N (lit "``json")
               (before ++ body ++ after ++ fence)
             : remove_all json_fence
                 (json_fence ++ before ++ body ++ after ++ fence) = _).
    replace (before ++ body ++ after ++ fence)
      with ((before ++ body ++ after) ++ fence)
      by (rewrite <- !app_assoc; reflexivity).
    apply (remove_all_keeps json_fence (before ++ body ++ after) fence).
    apply (no_match_in_longer fence (lit "json")). exact Hno. }
  assert (E2 : remove_all fence ((before ++ body ++ after) ++ fence)
               = before ++ body ++ after).
  { rewrite (remove_all_keeps fence _ fence Hno).
    apply app_nil_r. }
  assert (E3 : trim (before ++ body ++ after) = body).
  { unfold trim. rewrite (trim_start_spaces _ _ Hb).
    subst body.
    change (trim_start ((lit "{" ++ inner ++ lit "}") ++ after))
      with ((lit "{" ++ inner ++ lit "}") ++ after).
    rewrite (trim_end_spaces _ _ Ha).
    apply (trim_end_kept (lit "{" ++ inner) 125%N). reflexivity. }
  unfold strip_fences. rewrite E1, E2. exact E3.
Qed.

(** C5, as the code has it: a response whose text is a JSON object text
    between [```json] and [```] fences, the text itself holding no triple
    backtick, is parsed as that text, and the result carries the
    [questions] member of the object (and the grounding sources). *)
Theorem fenced_json_is_parsed :
  forall (JSON_parse : jsstring -> option Json.value) (topic : jsstring)
         (before inner after : jsstring)
         (cands : option (list Candidate))
         (members : list (jsstring * Json.value)),
    forallb is_space before = true ->
    forallb is_space after = true ->
    includes fence inner = false ->
    JSON_parse (lit "{" ++ inner ++ lit "}") = Some (Json.JObject members) ->
    let response :=
      {| text := Some (fenced before (lit "{" ++ inner ++ lit "}") after);
         candidates := cands |} in
    generateTriviaQuestions JSON_parse topic (Js.Normal response)
    = Js.Normal
        {| questions := Json.member (lit "questions") members;
           sources :=
             unique (match grounding_chunks response with
                     | Some chunks => flat_map chunk_uri chunks
                     | None => []
                     end) |}.
Proof.
  intros JSON_parse topic before inner after cands members Hb Ha Hinner Hparse
         response.
  pose proof (strip_fences_fenced before inner after Hb Ha Hinner) as Hstrip.
  unfold generateTriviaQuestions, generate_try.
  cbn [Js.bind text response].
  change (fenced before (lit "{" ++ inner ++ lit "}") after)
    with (96%N :: lit "``json" ++ before ++ (lit "{" ++ inner ++ lit "}")
            ++ after ++ fence) in Hstrip |- *.
  cbv iota. rewrite Hstrip, Hparse. reflexivity.
Qed.

End GeminiServiceFacts.
(** ** The standard game: index and score *)

(** From [Some (f x) = Some (g', out)] to [g' = fst (f x)], [out = snd (f x)]. *)
Ltac name_result H :=
  first
    [ injection H as <- <-
    | injection H as H;
      let Eg := fresh "Eg" in
      let Eo := fresh "Eo" in
      pose proof (f_equal fst H) as Eg;
      pose proof (f_equal snd H) as Eo;
      cbn [fst snd] in Eg, Eo;
      clear H; subst ].

Section StandardGameFacts.

Import JsString Types StandardGame.
Local Open Scope nat_scope.

(** The first question revealed and marked correct: the index moves to the
    second question, the answer is hidden again, the timer for the second
    question is set. *)
Example first_question_right :
  play Examples.game [ClickReveal; ClickGotItRight]
  = Some (mk 1 false 1 (Some 1) false,
          [Speak (intro_text Examples.game);
           Speak (lit "The answer is Shakespeare. Around 1600.")]).
Proof. reflexivity. Qed.

(** A button that is not rendered cannot be clicked. *)
Example no_score_before_reveal :
  play Examples.game [ClickGotItRight] = None.
Proof. reflexivity. Qed.


Lemma handleNext_index gameState g :
  currentQIdx g < List.length (questions gameState) ->
  currentQIdx (fst (handleNext gameState g))
  < List.length (questions gameState).
Proof.
  intro H. unfold handleNext.
  destruct (Z.ltb_spec (Z.of_nat (currentQIdx g))
              (Z.of_nat (List.length (questions gameState)) - 1));
    simpl; lia.
Qed.

Lemma step_index gameState g e g' out :
  step gameState g e = Some (g', out) ->
  currentQIdx g < List.length (questions gameState) ->
  currentQIdx g' < List.length (questions gameState).
Proof.
  unfold step. intros H Hlt.
  destruct (over g); [discriminate |].
  destruct e.
  - destruct (showAnswer g); [discriminate |].
    name_result H. unfold handleReveal.
    destruct (nth_error _ _); exact Hlt.
  - destruct (showAnswer g); [| discriminate].
    name_result H. unfold gotItRight.
    pose proof (handleNext_index gameState g Hlt) as Hn.
    destruct (handleNext gameState g). exact Hn.
  - destruct (showAnswer g); [| discriminate].
    name_result H. apply handleNext_index. exact Hlt.
  - unfold timer_fires in H. destruct (timer g); [| discriminate].
    name_result H. exact Hlt.
Qed.

Lemma run_index gameState es :
  forall g g' out,
    run gameState g es = Some (g', out) ->
    currentQIdx g < List.length (questions gameState) ->
    currentQIdx g' < List.length (questions gameState).
Proof.
  induction es as [| e es IH]; intros g g' out H Hlt.
  - injection H as <- _. exact Hlt.
  - simpl in H.
    destruct (step gameState g e) as [[g1 out1] |] eqn:E1; [| discriminate].
    destruct (run gameState g1 es) as [[g2 out2] |] eqn:E2; [| discriminate].
    injection H as <- _.
    eapply IH; [exact E2 |]. eapply step_index; eassumption.
Qed.

(** C9: with a non-empty questions list, after the mount and after every
    reveal, next and score operation the current index is within
    [0, length - 1]; so the position shown, [index + 1] of [length], is
    between 1 and the length, and the question shown is one of the list. *)
Theorem question_index_in_range :
  forall (gameState : GameState) (es : list event)
         (g : StandardGame) (out : list effect),
    questions gameState <> [] ->
    play gameState es = Some (g, out) ->
    (Z.of_nat (currentQIdx g)
       <= Z.of_nat (List.length (questions gameState)) - 1)%Z
    /\ 1 <= currentQIdx g + 1 <= List.length (questions gameState)
    /\ exists q,
         nth_error (questions gameState) (currentQIdx g) = Some q
         /\ In q (questions gameState).
Proof.
  intros gameState es g out Hne Hplay.
  assert (Hlt : currentQIdx g < List.length (questions gameState)).
  { unfold play, mount in Hplay.
    destruct (run gameState _ es) as [[g' out'] |] eqn:E; [| discriminate].
    injection Hplay as <- _.
    eapply run_index; [exact E |]. simpl.
    destruct (questions gameState); [congruence | simpl; lia]. }
  split; [lia | split; [lia |]].
  destruct (nth_error (questions gameState) (currentQIdx g)) as [q |] eqn:E.
  - exists q. split; [reflexivity |]. eapply nth_error_In. exact E.
  - apply nth_error_None in E. lia.
Qed.

Lemma handleNext_score gameState g :
  score (fst (handleNext gameState g)) = score g.
Proof. unfold handleNext. destruct (_ <? _)%Z; reflexivity. Qed.

Lemma step_score gameState g e g' out :
  step gameState g e = Some (g', out) ->
  score g' = score g + correct_answers [e].
Proof.
  unfold step. intro H.
  destruct (over g); [discriminate |].
  destruct e; unfold correct_answers; simpl.
  - destruct (showAnswer g); [discriminate |].
    name_result H. unfold handleReveal.
    destruct (nth_error _ _); simpl; lia.
  - destruct (showAnswer g); [| discriminate].
    name_result H. unfold gotItRight.
    pose proof (handleNext_score gameState g) as Hs.
    destruct (handleNext gameState g). simpl in *. lia.
  - destruct (showAnswer g); [| discriminate].
    name_result H. unfold missedIt.
    rewrite handleNext_score. lia.
  - unfold timer_fires in H. destruct (timer g); [| discriminate].
    name_result H. simpl. lia.
Qed.

Lemma correct_answers_app es1 es2 :
  correct_answers (es1 ++ es2) = correct_answers es1 + correct_answers es2.
Proof.
  unfold correct_answers. rewrite filter_app, length_app. reflexivity.
Qed.

(** The score cell counts the clicks on "I Got It Right". *)
Lemma run_score gameState es :
  forall g g' out,
    run gameState g es = Some (g', out) ->
    score g' = score g + correct_answers es.
Proof.
  induction es as [| e es IH]; intros g g' out H.
  - injection H as <- _. unfold correct_answers. simpl. lia.
  - simpl in H.
    destruct (step gameState g e) as [[g1 out1] |] eqn:E1; [| discriminate].
    destruct (run gameState g1 es) as [[g2 out2] |] eqn:E2; [| discriminate].
    injection H as <- _.
    rewrite (IH _ _ _ E2), (step_score _ _ _ _ _ E1).
    change (e :: es) with ([e] ++ es). rewrite correct_answers_app. lia.
Qed.


End StandardGameFacts.
(** ** Text to speech and the speech queue *)

Section SpeechQueueFacts.

Import JsString Types StandardGame.
Local Open Scope nat_scope.

(** The promise of [playTextToSpeech] is resolved at once or resolves when
    the playback ends; and with a failure on the way it is resolved. *)
Lemma playTextToSpeech_resolves text personality w :
  (GeminiService.playTextToSpeech text personality w = GeminiService.Resolved
   \/ exists buf,
        GeminiService.playTextToSpeech text personality w
        = GeminiService.ResolvesOnEnded buf)
  /\ (GeminiService.speech_fails w ->
      GeminiService.playTextToSpeech text personality w
      = GeminiService.Resolved).
Proof.
  unfold GeminiService.playTextToSpeech, GeminiService.speech_try,
    GeminiService.speech_fails.
  destruct w as [response closed decoded started]. cbn.
  destruct response as [r | e]; cbn.
  - destruct (truthy (GeminiService.speech_data r)); cbn.
    + destruct closed; cbn.
      * split; [left; reflexivity | reflexivity].
      * destruct decoded as [buf | e]; cbn.
        -- destruct started as [[] | e]; cbn.
           ++ split; [right; eexists; reflexivity |].
              intros [[e H] | [[e H] | [e H]]]; discriminate H.
           ++ split; [left; reflexivity | reflexivity].
        -- split; [left; reflexivity | reflexivity].
    + split; [left; reflexivity | reflexivity].
  - split; [left; reflexivity | reflexivity].
Qed.

(** *** Reading and writing the chain *)

Lemma status_eq_Waiting (s : status) : s = Waiting \/ s <> Waiting.
Proof. destruct s; auto; right; discriminate. Qed.

Lemma exists_last_or_nil {A : Type} (l : list A) :
  l = [] \/ exists l' a, l = l' ++ [a].
Proof.
  destruct l as [| x l]; [auto |]. right.
  destruct (@exists_last A (x :: l)) as (l' & a & H); [discriminate |].
  exists l', a. exact H.
Qed.

Lemma nth_error_set_same k s (c : list (jsstring * status)) :
  forall s0, option_map snd (nth_error c k) = Some s0 ->
             option_map snd (nth_error (set_status k s c) k) = Some s.
Proof.
  revert k. induction c as [| [text s1] c IH]; intros k s0 H.
  - destruct k; discriminate H.
  - destruct k as [| k]; [reflexivity |]. simpl in *. eapply IH. exact H.
Qed.

Lemma nth_error_set_other k s (c : list (jsstring * status)) :
  forall j, j <> k -> nth_error (set_status k s c) j = nth_error c j.
Proof.
  revert k. induction c as [| [text s1] c IH]; intros k j Hne.
  - destruct k; reflexivity.
  - destruct k as [| k], j as [| j]; try reflexivity; try congruence.
    simpl. apply IH. congruence.
Qed.

Lemma status_update_same q k s now s0 :
  status_at q k = Some s0 -> status_at (update q k s now) k = Some s.
Proof. unfold status_at, update. simpl. apply nth_error_set_same. Qed.

Lemma status_update_other q k s now j :
  j <> k -> status_at (update q k s now) j = status_at q j.
Proof.
  intro Hne. unfold status_at, update. simpl.
  rewrite nth_error_set_other by exact Hne. reflexivity.
Qed.

Lemma status_speak q text k s :
  status_at (speak text q) k = Some s ->
  status_at q k = Some s \/ (s = Waiting /\ status_at q k = None).
Proof.
  unfold speak, status_at. destruct (has_context q); [| auto]. simpl.
  destruct (Nat.lt_ge_cases k (List.length (chain q))) as [Hlt | Hge].
  - rewrite nth_error_app1 by exact Hlt. auto.
  - rewrite nth_error_app2 by exact Hge.
    rewrite (proj2 (nth_error_None (chain q) k) Hge).
    destruct (k - List.length (chain q)) as [| [| n]]; simpl;
      intro H; try discriminate.
    injection H as <-. auto.
Qed.

Lemma status_speak_old q text k s :
  status_at q k = Some s -> status_at (speak text q) k = Some s.
Proof.
  unfold speak, status_at. destruct (has_context q); [| auto]. simpl.
  intro H.
  destruct (nth_error (chain q) k) as [u |] eqn:E; [| discriminate].
  rewrite nth_error_app1; [rewrite E; exact H |].
  apply nth_error_Some. congruence.
Qed.

Lemma trace_speak q text : trace (speak text q) = trace q.
Proof. unfold speak. destruct (has_context q); reflexivity. Qed.

(** *** The invariant *)

Lemma in_order_update q k s_old s_new now :
  in_order q ->
  status_at q k = Some s_old ->
  s_old <> Done ->
  (s_old = Waiting -> previous q k = Some Done) ->
  in_order (update q k s_new now).
Proof.
  intros Hord Hk Hnd Hprev j s Hs Hnw.
  destruct (Nat.eq_dec (S j) k) as [<- | Hne].
  - rewrite status_update_other by lia.
    destruct (status_eq_Waiting s_old) as [-> | Hold].
    + exact (Hprev eq_refl).
    + exact (Hord j s_old Hk Hold).
  - rewrite status_update_other in Hs by exact Hne.
    pose proof (Hord j s Hs Hnw) as Hj.
    destruct (Nat.eq_dec j k) as [-> | Hjk]; [congruence |].
    rewrite status_update_other by exact Hjk. exact Hj.
Qed.

Lemma unbroken_update q k s now :
  unbroken q -> s <> Failed -> s <> Hung -> unbroken (update q k s now).
Proof.
  intros Hub Hf Hh j sj Hj.
  destruct (Nat.eq_dec j k) as [-> | Hne].
  - destruct (status_at q k) as [s0 |] eqn:E.
    + rewrite (status_update_same q k s now s0 E) in Hj.
      injection Hj as <-. auto.
    + unfold status_at, update in Hj, E. simpl in Hj.
      destruct (nth_error (chain q) k) eqn:En; [discriminate E |].
      assert (Hlen : List.length (set_status k s (chain q))
                     = List.length (chain q)).
      { clear. revert k. induction (chain q) as [| [t s1] c IH]; intro k.
        - destruct k; reflexivity.
        - destruct k; simpl; [reflexivity | rewrite IH; reflexivity]. }
      apply nth_error_None in En.
      rewrite (proj2 (nth_error_None _ k)) in Hj by lia. discriminate Hj.
  - rewrite status_update_other in Hj by exact Hne. exact (Hub j sj Hj).
Qed.

Lemma requested_ran_update q k s_old s_new now :
  requested_ran q ->
  status_at q k = Some s_old ->
  s_new <> Waiting ->
  (forall j, In (Requested j) now -> j = k) ->
  requested_ran (update q k s_new now).
Proof.
  intros Hreq Hk Hnw Hnow j Hin.
  unfold update in Hin. simpl in Hin. apply in_app_or in Hin.
  assert (Hcase : j = k \/ (j <> k /\ In (Requested j) (trace q))).
  { destruct (Nat.eq_dec j k); [auto |].
    destruct Hin as [Hin | Hin]; [auto | exfalso; auto]. }
  destruct Hcase as [-> | [Hne Hold]].
  - exists s_new. split; [| exact Hnw].
    eapply status_update_same. exact Hk.
  - rewrite status_update_other by exact Hne. exact (Hreq j Hold).
Qed.

Lemma started_known_update q k s_old s_new now :
  started_known q ->
  status_at q k = Some s_old ->
  s_old <> Done ->
  (s_old = Playing -> s_new = Done /\ In (PlaybackEnded k) now) ->
  (forall j, In (Started j) now -> j = k /\ s_new = Playing) ->
  started_known (update q k s_new now).
Proof.
  intros Hst Hk Hnd Hplay Hnow j Hin.
  unfold update in Hin |- *. cbn [trace] in Hin |- *.
  apply in_app_or in Hin. destruct Hin as [Hold | Hnew].
  - destruct (Nat.eq_dec j k) as [-> | Hne].
    + destruct (Hst k Hold) as [Hp | [Hd _]]; [| congruence].
      assert (s_old = Playing) as -> by congruence.
      destruct (Hplay eq_refl) as [-> Hended].
      right. split.
      * exact (status_update_same q k Done now _ Hk).
      * apply in_or_app. right. exact Hended.
    + change (status_at (update q k s_new now) j = Some Playing
              \/ status_at (update q k s_new now) j = Some Done
                 /\ In (PlaybackEnded j) (trace q ++ now)).
      rewrite status_update_other by exact Hne.
      destruct (Hst j Hold) as [Hp | [Hd He]]; [left; exact Hp |].
      right. split; [exact Hd | apply in_or_app; left; exact He].
  - destruct (Hnow j Hnew) as [-> ->]. left.
    exact (status_update_same q k Playing now _ Hk).
Qed.

Lemma split_at_end {A : Type} (pre post tr : list A) (x e : A) :
  pre ++ x :: post = tr ++ [e] ->
  (post = [] /\ pre = tr /\ x = e)
  \/ (exists post', post = post' ++ [e] /\ tr = pre ++ x :: post').
Proof.
  intro H. destruct (exists_last_or_nil post) as [-> | (post' & l & ->)].
  - apply (app_inj_tail pre tr x e) in H. destruct H as [-> ->]. auto.
  - right. exists post'.
    change (pre ++ x :: post' ++ [l]) with (pre ++ (x :: post') ++ [l]) in H.
    rewrite app_assoc in H. apply app_inj_tail in H.
    destruct H as [<- ->]. auto.
Qed.

Lemma one_after_another_ended tr k :
  one_after_another tr -> one_after_another (tr ++ [PlaybackEnded k]).
Proof.
  intros Htr pre post j Hsplit Hin.
  symmetry in Hsplit. apply split_at_end in Hsplit.
  destruct Hsplit as [(_ & _ & Hx) | (post' & -> & ->)]; [discriminate Hx |].
  apply (Htr pre post' j eq_refl).
  apply in_app_or in Hin. destruct Hin as [Hin | [Hin | []]];
    [exact Hin | discriminate Hin].
Qed.

Lemma one_after_another_started tr k :
  one_after_another tr ->
  ~ In (Requested (S k)) tr ->
  one_after_another (tr ++ [Started k]).
Proof.
  intros Htr Hnot pre post j Hsplit Hin.
  symmetry in Hsplit. apply split_at_end in Hsplit.
  destruct Hsplit as [(_ & _ & Hx) | (post' & -> & ->)]; [discriminate Hx |].
  apply in_app_or in Hin. destruct Hin as [Hin | [Hin | []]].
  - exact (Htr pre post' j eq_refl Hin).
  - injection Hin as ->. exfalso. apply Hnot.
    apply in_or_app. right. left. reflexivity.
Qed.

Lemma one_after_another_requested tr k :
  one_after_another tr ->
  (forall j, k = S j -> In (Started j) tr -> In (PlaybackEnded j) tr) ->
  one_after_another (tr ++ [Requested k]).
Proof.
  intros Htr Hdone pre post j Hsplit Hin.
  assert (Hin' : In (Started j) tr).
  { apply in_app_or in Hin. destruct Hin as [Hin | [Hin | []]];
      [exact Hin | discriminate Hin]. }
  symmetry in Hsplit. apply split_at_end in Hsplit.
  destruct Hsplit as [(_ & -> & Hx) | (post' & -> & ->)].
  - injection Hx as Hx. exact (Hdone j (eq_sym Hx) Hin').
  - exact (Htr pre post' j eq_refl Hin').
Qed.

Lemma invariant_mounted : invariant mounted_queue.
Proof.
  split.
  - intros k s H. destruct k; discriminate H.
  - intros k s H. destruct k; discriminate H.
  - intros k [].
  - intros k [].
  - intros pre post k H. destruct pre; discriminate H.
Qed.

Lemma invariant_speak q text : invariant q -> invariant (speak text q).
Proof.
  intros [Hord Hub Hreq Hst Htr]. split.
  - intros k s Hs Hnw.
    destruct (status_speak q text _ _ Hs) as [Hold | [-> _]]; [| congruence].
    apply status_speak_old. exact (Hord k s Hold Hnw).
  - intros k s Hs.
    destruct (status_speak q text _ _ Hs) as [Hold | [-> _]].
    + exact (Hub k s Hold).
    + split; discriminate.
  - intros k Hin. rewrite trace_speak in Hin.
    destruct (Hreq k Hin) as (s & Hs & Hnw).
    exists s. split; [apply status_speak_old; exact Hs | exact Hnw].
  - intros k Hin. rewrite trace_speak in Hin |- *.
    destruct (Hst k Hin) as [Hp | [Hd He]].
    + left. apply status_speak_old. exact Hp.
    + right. split; [apply status_speak_old; exact Hd | exact He].
  - rewrite trace_speak. exact Htr.
Qed.

Lemma invariant_close q : invariant q -> invariant (close_context q).
Proof. intros [Hord Hub Hreq Hst Htr]. split; assumption. Qed.

Lemma invariant_moves q q' : moves q q' -> invariant q -> invariant q'.
Proof.
  intros Hmove Hinv. pose proof Hinv as [Hord Hub Hreq Hst Htr].
  destruct Hmove as [text | | k Hk Hprev | k Hk Hprev | k Hk Hprev
                     | k Hk | k Hk | k Hk].
  - apply invariant_speak. exact Hinv.
  - apply invariant_close. exact Hinv.
  - (* the request is issued *)
    split.
    + eapply in_order_update; eauto. discriminate.
    + apply unbroken_update; [exact Hub | discriminate | discriminate].
    + eapply requested_ran_update; eauto; [discriminate |].
      intros j [Hj | []]. congruence.
    + eapply started_known_update; eauto; [discriminate | discriminate |].
      intros j [Hj | []]. discriminate Hj.
    + apply one_after_another_requested; [exact Htr |].
      intros j -> Hin. simpl in Hprev.
      destruct (Hst j Hin) as [Hp | [_ He]]; [congruence | exact He].
  - (* the context is closed: the callback returns *)
    split.
    + eapply in_order_update; eauto. discriminate.
    + apply unbroken_update; [exact Hub | discriminate | discriminate].
    + eapply requested_ran_update; eauto; [discriminate |]. intros j [].
    + eapply started_known_update; eauto; [discriminate | discriminate |].
      intros j [].
    + unfold update. cbn [trace]. rewrite app_nil_r. exact Htr.
  - (* a rejection would be passed on: there is none *)
    exfalso. destruct k as [| k]; [discriminate Hprev |].
    simpl in Hprev. destruct (Hub k Failed Hprev) as [Hf _]. congruence.
  - (* resolved without playing *)
    split.
    + eapply in_order_update; eauto; discriminate.
    + apply unbroken_update; [exact Hub | discriminate | discriminate].
    + eapply requested_ran_update; eauto; [discriminate |]. intros j [].
    + eapply started_known_update; eauto; [discriminate | discriminate |].
      intros j [].
    + unfold update. cbn [trace]. rewrite app_nil_r. exact Htr.
  - (* the source starts *)
    split.
    + eapply in_order_update; eauto; discriminate.
    + apply unbroken_update; [exact Hub | discriminate | discriminate].
    + eapply requested_ran_update; eauto; [discriminate |].
      intros j [Hj | []]. discriminate Hj.
    + eapply started_known_update; eauto; [discriminate | discriminate |].
      intros j [Hj | []]. injection Hj as ->. auto.
    + apply one_after_another_started; [exact Htr |].
      intro Hin. destruct (Hreq (S k) Hin) as (s & Hs & Hnw).
      pose proof (Hord k s Hs Hnw). congruence.
  - (* the playback ends *)
    split.
    + eapply in_order_update; eauto; discriminate.
    + apply unbroken_update; [exact Hub | discriminate | discriminate].
    + eapply requested_ran_update; eauto; [discriminate |].
      intros j [Hj | []]. discriminate Hj.
    + eapply started_known_update; eauto; [discriminate | |].
      * intros _. split; [reflexivity | left; reflexivity].
      * intros j [Hj | []]. discriminate Hj.
    + apply one_after_another_ended. exact Htr.
Qed.

Lemma queue_step_moves personality q e q' :
  queue_step personality q e = Some q' -> moves q q'.
Proof.
  destruct e as [text | k | k w | k |]; simpl; intro H.
  - injection H as <-. constructor.
  - unfold run_callback in H.
    destruct (status_at q k) as [[] |] eqn:Hk; try discriminate H.
    destruct (previous q k) as [[] |] eqn:Hp; try discriminate H.
    + destruct (closed q); injection H as <-.
      * apply moves_skip; assumption.
      * apply moves_request; assumption.
    + injection H as <-. apply moves_pass; assumption.
  - unfold settle in H.
    destruct (nth_error (chain q) k) as [[text []] |] eqn:Hk;
      try discriminate H.
    assert (Hs : status_at q k = Some InFlight)
      by (unfold status_at; rewrite Hk; reflexivity).
    destruct (Bool.eqb _ _); [| discriminate H].
    destruct (playTextToSpeech_resolves text personality w)
      as [[Hr | [buf Hr]] _]; rewrite Hr in H; injection H as <-.
    + apply moves_resolve. exact Hs.
    + apply moves_start. exact Hs.
  - unfold playback_ended in H.
    destruct (status_at q k) as [[] |] eqn:Hk; try discriminate H.
    injection H as <-. apply moves_end. exact Hk.
  - injection H as <-. constructor.
Qed.

Lemma queue_run_invariant personality es :
  forall q q',
    queue_run personality q es = Some q' -> invariant q -> invariant q'.
Proof.
  induction es as [| e es IH]; intros q q' H Hinv.
  - injection H as <-. exact Hinv.
  - simpl in H.
    destruct (queue_step personality q e) as [q1 |] eqn:E; [| discriminate H].
    apply (IH q1 q' H).
    exact (invariant_moves q q1 (queue_step_moves personality q e q1 E) Hinv).
Qed.

(** Everything before an utterance that has left [Waiting] is done. *)
Lemma in_order_before q :
  in_order q ->
  forall k j s,
    status_at q k = Some s -> s <> Waiting -> j < k ->
    status_at q j = Some Done.
Proof.
  intros Hord k. induction k as [| k IH]; intros j s Hs Hnw Hlt; [lia |].
  pose proof (Hord k s Hs Hnw) as Hk.
  destruct (Nat.eq_dec j k) as [-> | Hne]; [exact Hk |].
  apply (IH j Done Hk); [discriminate | lia].
Qed.

(** C4: in every run of the speech queue, at most one utterance is in its
    request/decode/playback cycle at any time; and when the request of
    utterance [k + 1] is issued, the promise of utterance [k] has resolved:
    if utterance [k] was played at all, its playback-end event has fired
    before. *)
Theorem speech_queue_one_at_a_time :
  forall (personality : HostPersonality) (es : list queue_event)
         (q : SpeechQueue),
    queue_run personality mounted_queue es = Some q ->
    (forall j k sj sk,
        status_at q j = Some sj -> active sj = true ->
        status_at q k = Some sk -> active sk = true ->
        j = k)
    /\ (forall pre post k,
           trace q = pre ++ Requested (S k) :: post ->
           status_at q k = Some Done
           /\ (In (Started k) (trace q) -> In (PlaybackEnded k) pre)).
Proof.
  intros personality es q Hrun.
  pose proof (queue_run_invariant personality es mounted_queue q Hrun
                invariant_mounted)
    as [Hord Hub Hreq Hst Htr].
  split.
  - intros j k sj sk Hj Haj Hk Hak.
    destruct (Nat.lt_trichotomy j k) as [Hlt | [Heq | Hgt]]; [| exact Heq |].
    + assert (Hd : status_at q j = Some Done).
      { apply (in_order_before q Hord k j sk Hk); [| exact Hlt].
        intros ->. discriminate Hak. }
      rewrite Hd in Hj. injection Hj as <-. discriminate Haj.
    + assert (Hd : status_at q k = Some Done).
      { apply (in_order_before q Hord j k sj Hj); [| exact Hgt].
        intros ->. discriminate Haj. }
      rewrite Hd in Hk. injection Hk as <-. discriminate Hak.
  - intros pre post k Hsplit. split.
    + destruct (Hreq (S k)) as (s & Hs & Hnw).
      { rewrite Hsplit. apply in_or_app. right. left. reflexivity. }
      exact (Hord k s Hs Hnw).
    + exact (Htr pre post k Hsplit).
Qed.

(** The utterance at the head of the line can always go on: among the
    utterances up to a waiting one, one can run its callback now, or is in
    flight, or plays. *)
Lemma head_of_line_moves q :
  invariant q ->
  forall k,
    status_at q k = Some Waiting ->
    exists j,
      j <= k
      /\ (run_callback q j <> None
          \/ status_at q j = Some InFlight
          \/ status_at q j = Some Playing).
Proof.
  intros [Hord Hub Hreq Hst Htr] k.
  induction k as [| k IH]; intro Hk.
  - exists 0. split; [lia |]. left.
    unfold run_callback. rewrite Hk. simpl.
    destruct (closed q); discriminate.
  - destruct (status_at q k) as [s |] eqn:Hs.
    + destruct s.
      * destruct (IH eq_refl) as (j & Hle & Hj). exists j. split; [lia | exact Hj].
      * exists k. split; [lia | auto].
      * exists k. split; [lia | auto].
      * exists (S k). split; [lia |]. left.
        unfold run_callback. rewrite Hk. simpl. rewrite Hs.
        destruct (closed q); discriminate.
      * destruct (Hub k Failed Hs) as [Hf _]. congruence.
      * destruct (Hub k Hung Hs) as [_ Hh]. congruence.
    + exfalso. unfold status_at in Hs, Hk.
      destruct (nth_error (chain q) k) eqn:E1; [discriminate Hs |].
      destruct (nth_error (chain q) (S k)) eqn:E2; [| discriminate Hk].
      apply nth_error_None in E1.
      assert (S k < List.length (chain q))
        by (apply nth_error_Some; congruence).
      lia.
Qed.

(** C6: [playTextToSpeech] never rejects; with a request, decoding or
    playback failure it resolves at once.  So no promise of the chain is
    ever rejected or left pending for ever; the utterance enqueued after one
    that failed has its callback run as soon as the failure is in (its
    request is issued, the context being open); and a waiting utterance
    always has, ahead of it, one that can go on. *)
Theorem speech_queue_never_stalls :
  (forall text personality w,
      (forall reason,
          GeminiService.playTextToSpeech text personality w
          <> GeminiService.RejectedWith reason)
      /\ (GeminiService.speech_fails w ->
          GeminiService.playTextToSpeech text personality w
          = GeminiService.Resolved))
  /\ (forall personality es q,
         queue_run personality mounted_queue es = Some q ->
         unbroken q
         /\ (forall k,
               status_at q k = Some Waiting ->
               exists j,
                 j <= k
                 /\ (run_callback q j <> None
                     \/ status_at q j = Some InFlight
                     \/ status_at q j = Some Playing))
         /\ (forall k w,
               status_at q k = Some InFlight ->
               status_at q (S k) = Some Waiting ->
               GeminiService.speech_fails w ->
               GeminiService.context_closed w = closed q ->
               exists q',
                 queue_run personality q [QSettle k w; QCallback (S k)]
                 = Some q'
                 /\ status_at q' k = Some Done
                 /\ status_at q' (S k)
                    = Some (if closed q then Done else InFlight)
                 /\ trace q'
                    = trace q
                      ++ (if closed q then [] else [Requested (S k)]))).
Proof.
  split.
  - intros text personality w.
    destruct (playTextToSpeech_resolves text personality w)
      as [[Hr | [buf Hr]] Hfail].
    + split; [intros reason; rewrite Hr; discriminate | exact Hfail].
    + split; [intros reason; rewrite Hr; discriminate | exact Hfail].
  - intros personality es q Hrun.
    pose proof (queue_run_invariant personality es mounted_queue q Hrun
                invariant_mounted) as Hinv.
    split; [exact (inv_unbroken q Hinv) |].
    split; [exact (head_of_line_moves q Hinv) |].
    intros k w Hk Hnext Hfail Hclosed.
    destruct (playTextToSpeech_resolves
                (match nth_error (chain q) k with
                 | Some (text, _) => text
                 | None => []
                 end) personality w) as [_ Hres].
    specialize (Hres Hfail).
    assert (Hsettle : settle personality q k w = Some (update q k Done [])).
    { unfold settle. unfold status_at in Hk.
      destruct (nth_error (chain q) k) as [[text s] |]; [| discriminate Hk].
      injection Hk as ->. rewrite Hclosed, Bool.eqb_reflx, Hres.
      reflexivity. }
    assert (Hk' : status_at (update q k Done []) k = Some Done)
      by exact (status_update_same q k Done [] _ Hk).
    assert (Hnext' : status_at (update q k Done []) (S k) = Some Waiting)
      by (rewrite status_update_other by lia; exact Hnext).
    cbn [queue_run queue_step]. rewrite Hsettle.
    unfold run_callback. rewrite Hnext'.
    cbn [previous]. rewrite Hk'.
    change (closed (update q k Done [])) with (closed q).
    destruct (closed q); eexists; (split; [reflexivity |]).
    + split; [| split].
      * rewrite status_update_other by lia. exact Hk'.
      * exact (status_update_same _ _ _ _ _ Hnext').
      * cbn. rewrite !app_nil_r. reflexivity.
    + split; [| split].
      * rewrite status_update_other by lia. exact Hk'.
      * exact (status_update_same _ _ _ _ _ Hnext').
      * cbn. rewrite app_nil_r. reflexivity.
Qed.

End SpeechQueueFacts.
(** ** More on the service *)

Section ServiceExtras.

Import JsString Types GeminiService.
Local Open Scope nat_scope.

(** *** What the fence stripping leaves *)

Lemma starts_with_split (pat : jsstring) :
  forall s, starts_with pat s = true -> exists rest, s = pat ++ rest.
Proof.
  induction pat as [| p pat IH]; intros s H.
  - exists s. reflexivity.
  - destruct s as [| c s]; [discriminate H |].
    rewrite starts_with_cons in H. apply andb_prop in H as [Hc Hs].
    apply N.eqb_eq in Hc. subst c.
    destruct (IH s Hs) as [rest ->]. exists rest. reflexivity.
Qed.

Lemma remove_all_cons_kept pat c (s : jsstring) :
  starts_with pat (c :: s) = false ->
  remove_all pat (c :: s) = c :: remove_all pat s.
Proof.
  intro H. unfold remove_all.
  change (remove_from pat 0 (c :: s))
    with (if starts_with pat (c :: s)
          then remove_from pat (List.length pat - 1) s
          else c :: remove_from pat 0 s).
  rewrite H. reflexivity.
Qed.

Lemma remove_fence_head (rest : jsstring) :
  remove_all fence (fence ++ rest) = remove_all fence rest.
Proof. exact (remove_all_head 96%N (lit "``") rest). Qed.

Lemma fence_at_three a b c (r : jsstring) :
  starts_with fence (a :: b :: c :: r)
  = (96 =? a)%N && ((96 =? b)%N && (96 =? c)%N).
Proof.
  unfold fence. simpl lit. rewrite !starts_with_cons.
  simpl starts_with. rewrite andb_true_r. reflexivity.
Qed.

Lemma fence_needs_three (s : jsstring) :
  List.length s < 3 -> starts_with fence s = false.
Proof.
  intro H. unfold fence. simpl lit.
  destruct s as [| a [| b [| c s]]]; simpl in H; try lia.
  - reflexivity.
  - rewrite !starts_with_cons. simpl starts_with.
    rewrite andb_false_r. reflexivity.
  - rewrite !starts_with_cons. simpl starts_with.
    rewrite !andb_false_r. reflexivity.
Qed.

Lemma fence_head_other a (r : jsstring) :
  (96 =? a)%N = false -> starts_with fence (a :: r) = false.
Proof.
  intro H. unfold fence. simpl lit. rewrite starts_with_cons, H. reflexivity.
Qed.

Lemma fence_second_other a b (r : jsstring) :
  (96 =? b)%N = false -> starts_with fence (a :: b :: r) = false.
Proof.
  intro H. unfold fence. simpl lit. rewrite !starts_with_cons, H.
  apply andb_false_r.
Qed.

(** What is left after the fences are removed does not begin with one. *)
Lemma no_fence_at_head :
  forall n (s : jsstring),
    List.length s <= n -> starts_with fence (remove_all fence s) = false.
Proof.
  induction n as [| n IH]; intros s Hlen.
  - destruct s; [reflexivity | simpl in Hlen; lia].
  - destruct (starts_with fence s) eqn:E.
    + apply starts_with_split in E. destruct E as [t ->].
      rewrite remove_fence_head. apply IH.
      rewrite length_app in Hlen. simpl in Hlen. lia.
    + destruct s as [| a s1]; [reflexivity |].
      rewrite (remove_all_cons_kept fence a s1 E).
      destruct (starts_with fence s1) eqn:E1.
      { apply starts_with_split in E1. destruct E1 as [t ->].
        change (fence ++ t) with (96%N :: 96%N :: 96%N :: t) in E.
        rewrite fence_at_three, !N.eqb_refl, !andb_true_r in E.
        apply fence_head_other. exact E. }
      destruct s1 as [| b s2]; [apply fence_needs_three; simpl; lia |].
      rewrite (remove_all_cons_kept fence b s2 E1).
      destruct (starts_with fence s2) eqn:E2.
      { apply starts_with_split in E2. destruct E2 as [t ->].
        change (fence ++ t) with (96%N :: 96%N :: 96%N :: t) in E1.
        rewrite fence_at_three, !N.eqb_refl, !andb_true_r in E1.
        apply fence_second_other. exact E1. }
      destruct s2 as [| c s3]; [apply fence_needs_three; simpl; lia |].
      rewrite (remove_all_cons_kept fence c s3 E2).
      rewrite fence_at_three in E |- *. exact E.
Qed.

Lemma includes_cons pat c (s : jsstring) :
  includes pat (c :: s) = starts_with pat (c :: s) || includes pat s.
Proof. reflexivity. Qed.

Lemma no_fence_left :
  forall n (s : jsstring),
    List.length s <= n -> includes fence (remove_all fence s) = false.
Proof.
  induction n as [| n IH]; intros s Hlen.
  - destruct s; [reflexivity | simpl in Hlen; lia].
  - destruct (starts_with fence s) eqn:E.
    + apply starts_with_split in E. destruct E as [t ->].
      rewrite remove_fence_head. apply IH.
      rewrite length_app in Hlen. simpl in Hlen. lia.
    + destruct s as [| a s1]; [reflexivity |].
      pose proof (no_fence_at_head (S n) (a :: s1) Hlen) as Hhead.
      rewrite (remove_all_cons_kept fence a s1 E) in Hhead |- *.
      rewrite includes_cons, Hhead. simpl orb.
      apply IH. simpl in Hlen. lia.
Qed.

(** [trim] cuts a piece out of the text: before it white space, after it
    white space. *)
Lemma trim_start_suffix (s : jsstring) :
  exists before, s = before ++ trim_start s.
Proof.
  induction s as [| c s [before IH]]; [exists []; reflexivity |].
  simpl. destruct (is_space c).
  - exists (c :: before). simpl. rewrite <- IH. reflexivity.
  - exists []. reflexivity.
Qed.

Lemma trim_end_prefix (s : jsstring) :
  exists after, s = trim_end s ++ after.
Proof.
  induction s as [| c s [after IH]]; [exists []; reflexivity |].
  simpl. destruct (trim_end s) as [| k kept].
  - destruct (is_space c).
    + exists (c :: s). reflexivity.
    + exists after. simpl in IH |- *. rewrite <- IH. reflexivity.
  - exists after. simpl in IH |- *. rewrite <- IH. reflexivity.
Qed.

Lemma starts_with_app_r (pat s t : jsstring) :
  starts_with pat s = true -> starts_with pat (s ++ t) = true.
Proof.
  revert s. induction pat as [| p pat IH]; intros s H; [reflexivity |].
  destruct s as [| c s]; [discriminate H |].
  change ((c :: s) ++ t) with (c :: (s ++ t)).
  rewrite starts_with_cons in H |- *.
  apply andb_prop in H as [Hc Hs]. rewrite Hc, (IH s Hs). reflexivity.
Qed.

Lemma includes_app_r (pat s t : jsstring) :
  includes pat s = true -> includes pat (s ++ t) = true.
Proof.
  induction s as [| c s IH]; intro H.
  - simpl in H. rewrite orb_false_r in H.
    destruct pat; [| discriminate H]. destruct t; reflexivity.
  - change ((c :: s) ++ t) with (c :: (s ++ t)).
    rewrite includes_cons in H |- *.
    apply orb_prop in H as [H | H].
    + pose proof (starts_with_app_r pat (c :: s) t H) as H'.
      change ((c :: s) ++ t) with (c :: (s ++ t)) in H'.
      rewrite H'. reflexivity.
    + rewrite (IH H). apply orb_true_r.
Qed.

Lemma includes_app_l (pat s t : jsstring) :
  includes pat t = true -> includes pat (s ++ t) = true.
Proof.
  intro H. induction s as [| c s IH]; [exact H |].
  change ((c :: s) ++ t) with (c :: (s ++ t)).
  rewrite includes_cons, IH. apply orb_true_r.
Qed.

Lemma trim_keeps_fence_free (s : jsstring) :
  includes fence s = false -> includes fence (trim s) = false.
Proof.
  intro H. destruct (includes fence (trim s)) eqn:E; [| reflexivity].
  unfold trim in E.
  destruct (trim_end_prefix (trim_start s)) as [after Hafter].
  destruct (trim_start_suffix s) as [before Hbefore].
  apply (includes_app_r fence _ after) in E. rewrite <- Hafter in E.
  apply (includes_app_l fence before) in E. rewrite <- Hbefore in E.
  congruence.
Qed.

(** X1: whatever the response text, the text handed to [JSON.parse] holds
    no triple backtick. *)
Theorem stripped_text_has_no_fence :
  forall (jsonText : jsstring),
    includes fence (strip_fences jsonText) = false.
Proof.
  intro jsonText. unfold strip_fences.
  apply trim_keeps_fence_free.
  apply (no_fence_left (List.length (remove_all json_fence jsonText))).
  apply Nat.le_refl.
Qed.

Lemma no_match_when_absent pat (s : jsstring) :
  includes pat s = false -> no_match_in pat s [] = true.
Proof.
  induction s as [| c s IH]; intro H; [reflexivity |].
  rewrite includes_cons in H. apply orb_false_iff in H as [Hhead Htail].
  change (negb (starts_with pat ((c :: s) ++ [])) && no_match_in pat s []
          = true).
  rewrite app_nil_r, Hhead, (IH Htail). reflexivity.
Qed.

Lemma remove_all_absent pat (s : jsstring) :
  includes pat s = false -> remove_all pat s = s.
Proof.
  intro H. pose proof (remove_all_keeps pat s [] (no_match_when_absent pat s H))
    as Hkeep.
  rewrite app_nil_r in Hkeep. rewrite Hkeep.
  change (remove_all pat []) with (@nil code_unit). apply app_nil_r.
Qed.

Lemma includes_longer (p q s : jsstring) :
  includes p s = false -> includes (p ++ q) s = false.
Proof.
  induction s as [| c s IH]; intro H.
  - destruct p; [discriminate H | reflexivity].
  - rewrite includes_cons in H |- *.
    apply orb_false_iff in H as [Hhead Htail].
    rewrite (IH Htail), orb_false_r.
    destruct (starts_with (p ++ q) (c :: s)) eqn:E; [| reflexivity].
    apply starts_with_app_l in E. congruence.
Qed.

(** X2: a response text without triple backtick is only trimmed: raw JSON
    reaches [JSON.parse] as it is, but for white space around it. *)
Theorem unfenced_text_is_only_trimmed :
  forall (jsonText : jsstring),
    includes fence jsonText = false ->
    strip_fences jsonText = trim jsonText.
Proof.
  intros jsonText H. unfold strip_fences.
  rewrite (remove_all_absent json_fence jsonText
             (includes_longer fence (lit "json") jsonText H)).
  rewrite (remove_all_absent fence jsonText H). reflexivity.
Qed.

(** *** Grounding sources *)

Lemma eqb_eq (s t : jsstring) : JsString.eqb s t = true <-> s = t.
Proof.
  unfold JsString.eqb. destruct (list_eq_dec N.eq_dec s t); split;
    intro H; congruence.
Qed.

Lemma existsb_eqb (x : jsstring) (seen : list jsstring) :
  existsb (JsString.eqb x) seen = true <-> In x seen.
Proof.
  rewrite existsb_exists. split.
  - intros (y & Hin & Heq). apply eqb_eq in Heq. subst y. exact Hin.
  - intro Hin. exists x. split; [exact Hin | apply eqb_eq; reflexivity].
Qed.

Lemma unique_from_spec (l : list jsstring) :
  forall seen,
    NoDup (unique_from seen l)
    /\ (forall x, In x (unique_from seen l) <-> In x l /\ ~ In x seen).
Proof.
  induction l as [| y l IH]; intro seen.
  - split; [constructor | intro x; simpl; tauto].
  - simpl. destruct (existsb (JsString.eqb y) seen) eqn:E.
    + apply existsb_eqb in E.
      destruct (IH seen) as [Hnd Hin]. split; [exact Hnd |].
      intro x. rewrite Hin. split.
      * intros [Hx Hs]. auto.
      * intros [[-> | Hx] Hs]; [contradiction | auto].
    + assert (Hy : ~ In y seen).
      { intro Hy. apply existsb_eqb in Hy. congruence. }
      destruct (IH (y :: seen)) as [Hnd Hin]. split.
      * constructor; [| exact Hnd].
        rewrite Hin. intros [_ Hs]. apply Hs. left. reflexivity.
      * intro x. simpl. rewrite Hin. simpl. split.
        -- intros [<- | [Hx Hs]]; [auto |]. split; [auto | tauto].
        -- intros [[<- | Hx] Hs]; [auto |].
           destruct (list_eq_dec N.eq_dec y x) as [-> | Hne]; [auto |].
           right. split; [exact Hx |]. intros [Heq | Hs']; auto.
Qed.

Lemma unique_spec (l : list jsstring) :
  NoDup (unique l) /\ (forall x, In x (unique l) <-> In x l).
Proof.
  destruct (unique_from_spec l []) as [Hnd Hin]. split; [exact Hnd |].
  intro x. unfold unique. rewrite Hin. simpl. tauto.
Qed.

Lemma chunk_uri_spec (chunk : GroundingChunk) (u : jsstring) :
  In u (chunk_uri chunk)
  <-> u <> [] /\ exists w, web chunk = Some w /\ uri w = Some u.
Proof.
  unfold chunk_uri. destruct (web chunk) as [[[[| c v] |]] |]; simpl.
  - split; [tauto |]. intros (Hne & w & Hw & Hu).
    injection Hw as <-. simpl in Hu. injection Hu as <-. congruence.
  - split.
    + intros [<- | []]. split; [discriminate |].
      eexists. split; reflexivity.
    + intros (_ & w & Hw & Hu). injection Hw as <-. simpl in Hu.
      injection Hu as <-. auto.
  - split; [tauto |]. intros (_ & w & Hw & Hu).
    injection Hw as <-. discriminate Hu.
  - split; [tauto |]. intros (_ & w & Hw & _). discriminate Hw.
Qed.

(** What the [try] block returns, when it returns. *)
Lemma generate_try_returns JSON_parse r result :
  generate_try JSON_parse (Js.Normal r) = Js.Normal result ->
  exists jsonText parsed,
    text r = Some jsonText /\ jsonText <> []
    /\ JSON_parse (strip_fences jsonText) = Some parsed
    /\ Json.get parsed (lit "questions") = Js.Normal (questions result)
    /\ sources result = unique (grounding_uris r).
Proof.
  unfold generate_try. cbn [Js.bind].
  destruct (text r) as [[| c t] |]; try discriminate.
  destruct (JSON_parse (strip_fences (c :: t))) as [parsed |] eqn:Hp;
    [| discriminate].
  cbn [Js.bind].
  destruct (Json.get parsed (lit "questions")) as [qs | e] eqn:Hq;
    [| discriminate].
  cbn [Js.bind]. intro H. injection H as <-.
  exists (c :: t), parsed. cbn [questions sources].
  repeat split; try assumption; try discriminate.
Qed.

(** X21: what the parsed text decides.  When the response has a text that
    parses, the result is the fallback for [null]; the [questions] member
    (or undefined) with the response's sources for an object; undefined
    questions with the response's sources for any other value.  Nothing
    checks that the questions are an array of questions. *)
Theorem parsed_value_decides_the_result :
  forall (JSON_parse : jsstring -> option Json.value) (topic : jsstring)
         (r : GenerateContentResponse) (jsonText : jsstring)
         (parsed : Json.value),
    text r = Some jsonText ->
    jsonText <> [] ->
    JSON_parse (strip_fences jsonText) = Some parsed ->
    generateTriviaQuestions JSON_parse topic (Js.Normal r)
    = Js.Normal
        match parsed with
        | Json.JNull => fallback
        | Json.JObject members =>
            {| questions := Json.member (lit "questions") members;
               sources := unique (grounding_uris r) |}
        | _ => {| questions := None; sources := unique (grounding_uris r) |}
        end.
Proof.
  intros JSON_parse topic r jsonText parsed Ht Hne Hp.
  unfold generateTriviaQuestions, generate_try. cbn [Js.bind].
  rewrite Ht. destruct jsonText as [| c t]; [congruence |].
  rewrite Hp. cbn [Js.bind].
  destruct parsed; reflexivity.
Qed.

(** X3: the sources that [generateTriviaQuestions] returns hold no URI
    twice, and each is a non-empty [web.uri] of a grounding chunk of the
    response's first candidate; when the generation did not fail, each
    such URI is among them. *)
Theorem sources_are_distinct_grounding_uris :
  forall (JSON_parse : jsstring -> option Json.value) (topic : jsstring)
         (r : GenerateContentResponse) (result : Generated),
    generateTriviaQuestions JSON_parse topic (Js.Normal r) = Js.Normal result ->
    NoDup (sources result)
    /\ (forall u, In u (sources result) ->
                  u <> []
                  /\ exists chunks chunk w,
                       grounding_chunks r = Some chunks
                       /\ In chunk chunks
                       /\ web chunk = Some w /\ uri w = Some u)
    /\ (generate_try JSON_parse (Js.Normal r) = Js.Normal result ->
        forall u, In u (grounding_uris r) -> In u (sources result)).
Proof.
  intros JSON_parse topic r result H.
  assert (Hcase : (result = fallback)
                  \/ generate_try JSON_parse (Js.Normal r) = Js.Normal result).
  { unfold generateTriviaQuestions, Js.try_catch in H.
    destruct (generate_try JSON_parse (Js.Normal r)) as [res | e].
    - right. exact H.
    - left. injection H as <-. reflexivity. }
  split; [| split].
  - destruct Hcase as [-> | Htry]; [constructor |].
    destruct (generate_try_returns _ _ _ Htry) as (_ & _ & _ & _ & _ & _ & ->).
    apply unique_spec.
  - intros u Hu. destruct Hcase as [-> | Htry]; [destruct Hu |].
    destruct (generate_try_returns _ _ _ Htry) as (_ & _ & _ & _ & _ & _ & Hs).
    rewrite Hs in Hu. apply (proj2 (unique_spec (grounding_uris r))) in Hu.
    unfold grounding_uris in Hu.
    destruct (grounding_chunks r) as [chunks |]; [| destruct Hu].
    apply in_flat_map in Hu. destruct Hu as (chunk & Hin & Hchunk).
    apply chunk_uri_spec in Hchunk. destruct Hchunk as (Hne & w & Hw & Huri).
    split; [exact Hne |]. exists chunks, chunk, w. auto.
  - intros Htry u Hu.
    destruct (generate_try_returns _ _ _ Htry) as (_ & _ & _ & _ & _ & _ & ->).
    apply (proj2 (unique_spec (grounding_uris r))). exact Hu.
Qed.

(** *** Text to speech *)


(** X5: the voice selection gives each of the four personalities a voice
    of its own, never the default; any other string gets the default
    voice. *)
Theorem voice_selection_is_one_to_one :
  (forall p, select_voice (personality_text p) = voiceName p)
  /\ (forall p q, select_voice (personality_text p)
                  = select_voice (personality_text q) -> p = q)
  /\ (forall p, select_voice (personality_text p) <> lit "Puck")
  /\ (forall s, (forall p, s <> personality_text p) ->
                select_voice s = lit "Puck").
Proof.
  split; [| split; [| split]].
  - intros []; reflexivity.
  - intros [] []; intro H; try reflexivity; vm_compute in H; discriminate H.
  - intros []; vm_compute; discriminate.
  - intros s Hs.
    assert (Hno : forall p, JsString.eqb s (personality_text p) = false).
    { intro p. destruct (JsString.eqb s (personality_text p)) eqn:E;
        [| reflexivity].
      apply eqb_eq in E. destruct (Hs p E). }
    unfold select_voice. rewrite !Hno. reflexivity.
Qed.

(** *** The instruction of the live session *)

Lemma includes_self (pat rest : jsstring) : includes pat (pat ++ rest) = true.
Proof.
  destruct pat as [| p pat]; [destruct rest; reflexivity |].
  change ((p :: pat) ++ rest) with (p :: (pat ++ rest)).
  rewrite includes_cons.
  pose proof (starts_with_self (p :: pat) rest) as H.
  change ((p :: pat) ++ rest) with (p :: (pat ++ rest)) in H.
  rewrite H. reflexivity.
Qed.

Lemma includes_middle (pat before after : jsstring) :
  includes pat (before ++ pat ++ after) = true.
Proof. apply includes_app_l. apply includes_self. Qed.

Lemma join_holds_line (sep : jsstring) (lines : list jsstring) :
  forall k line,
    nth_error lines k = Some line ->
    exists before after, join sep lines = before ++ line ++ after.
Proof.
  induction lines as [| x rest IH]; intros k line H.
  - destruct k; discriminate H.
  - destruct k as [| k].
    + injection H as ->. destruct rest as [| y rest].
      * exists [], []. simpl. rewrite app_nil_r. reflexivity.
      * exists [], (sep ++ join sep (y :: rest)). reflexivity.
    + destruct rest as [| y rest]; [destruct k; discriminate H |].
      destruct (IH k line H) as (before & after & Hj).
      exists (x ++ sep ++ before), after.
      change (join sep (x :: y :: rest)) with (x ++ sep ++ join sep (y :: rest)).
      rewrite Hj, <- !app_assoc. reflexivity.
Qed.

Lemma question_lines_nth (questions : list TriviaQuestion) :
  forall i k q,
    nth_error questions k = Some q ->
    nth_error (question_lines i questions) k = Some (question_line (i + k) q).
Proof.
  induction questions as [| q0 rest IH]; intros i k q H.
  - destruct k; discriminate H.
  - destruct k as [| k]; simpl.
    + injection H as ->. rewrite Nat.add_0_r. reflexivity.
    + rewrite (IH (S i) k q H). f_equal. f_equal. lia.
Qed.

Lemma question_lines_length (questions : list TriviaQuestion) :
  forall i, List.length (question_lines i questions) = List.length questions.
Proof.
  induction questions as [| q rest IH]; intro i; [reflexivity |].
  simpl. rewrite IH. reflexivity.
Qed.

(** X6: the instruction that opens the live session names every question
    of the list it is given: the line of the question at position [k],
    numbered [k + 1], with its answer and context, occurs in it; and there
    are as many lines as questions. *)
Theorem instruction_lists_every_question :
  forall (personality : HostPersonality) (topic : jsstring)
         (questions : list TriviaQuestion) (k : nat) (q : TriviaQuestion),
    nth_error questions k = Some q ->
    includes (question_line k q) (systemInstruction personality topic questions)
    = true
    /\ List.length (question_lines 0 questions) = List.length questions.
Proof.
  intros personality topic questions k q H.
  split; [| apply question_lines_length].
  pose proof (question_lines_nth questions 0 k q H) as Hline.
  destruct (join_holds_line [10%N] _ k _ Hline) as (before & after & Hj).
  unfold systemInstruction, questionsContext. rewrite Hj.
  do 5 (apply includes_app_l).
  apply includes_app_r. apply includes_middle.
Qed.

End ServiceExtras.
(** ** The application shell *)

Section AppExtras.

Import JsString Types GeminiService.
Local Open Scope nat_scope.

Lemma generated_sources JSON_parse topic response result :
  generateTriviaQuestions JSON_parse topic response = Js.Normal result ->
  NoDup (sources result)
  /\ (forall u, In u (sources result) ->
                exists r, response = Js.Normal r /\ In u (grounding_uris r)).
Proof.
  intro H. unfold generateTriviaQuestions, Js.try_catch in H.
  destruct (generate_try JSON_parse response) as [res | e] eqn:Htry.
  - injection H as ->. destruct response as [r | e]; [| discriminate Htry].
    destruct (generate_try_returns _ _ _ Htry)
      as (_ & _ & _ & _ & _ & _ & Hs).
    rewrite Hs. split; [apply unique_spec |].
    intros u Hu. exists r. split; [reflexivity |].
    apply (proj2 (unique_spec (grounding_uris r))). exact Hu.
  - injection H as <-. split; [constructor | intros u []].
Qed.

Lemma in_firstn {A : Type} (n : nat) (l : list A) (x : A) :
  In x (firstn n l) -> In x l.
Proof.
  intro H. rewrite <- (firstn_skipn n l). apply in_or_app. left. exact H.
Qed.

Lemma failure_gives_fallback JSON_parse topic response :
  generation_fails JSON_parse response ->
  generateTriviaQuestions JSON_parse topic response = Js.Normal fallback.
Proof.
  intro Hfail. unfold generateTriviaQuestions, generate_try.
  destruct response as [r | e]; [| reflexivity].
  simpl in Hfail |- *.
  destruct (text r) as [[| c jsonText] |]; try reflexivity.
  rewrite Hfail. reflexivity.
Qed.

Lemma NoDup_firstn {A : Type} (n : nat) (l : list A) :
  NoDup l -> NoDup (firstn n l).
Proof.
  revert l. induction n as [| n IH]; intros l H; [constructor |].
  destruct l as [| x l]; [constructor |].
  inversion H as [| ? ? Hx Hl]; subst. simpl. constructor.
  - intro Hin. apply Hx. exact (in_firstn n l x Hin).
  - exact (IH l Hl).
Qed.

(** X7: whatever the generation request settles with, [startGame] ends
    with the loading screen off, no alert shown, and the game in the
    requested mode on the topic typed in, score and index at zero; when the
    generation failed, the questions played are the fallback and there are
    no sources. *)
Theorem startGame_always_starts_a_game :
  forall (JSON_parse : jsstring -> option Json.value) (requested : GameMode)
         (response : Js.completion GenerateContentResponse) (a : App.App),
    let a' := App.startGame JSON_parse requested response a in
    App.alerts a' = App.alerts a
    /\ App.loading a' = false
    /\ App.mode a' = requested
    /\ App.topic a' = App.inputTopic a
    /\ App.personality a' = App.personality a
    /\ App.score a' = 0
    /\ App.currentQuestionIndex a' = 0
    /\ (generation_fails JSON_parse response ->
        App.questions a' = questions fallback
        /\ App.sources a' = []
        /\ App.footer_links a' = []).
Proof.
  intros JSON_parse requested response a a'. subst a'.
  unfold App.startGame.
  destruct (generateTriviaQuestions_never_throws JSON_parse
              (App.inputTopic a) response) as [result Hres].
  rewrite Hres. cbn.
  repeat (split; [reflexivity |]).
  intro Hfail.
  rewrite (failure_gives_fallback JSON_parse (App.inputTopic a) response Hfail)
    in Hres.
  injection Hres as <-. repeat split.
Qed.

(** X8: after [startGame] the footer links to at most three sources, no
    two of them the same, each a grounding URI of the response; and back on
    the setup screen the footer is gone. *)
Theorem footer_links_at_most_three_sources :
  forall (JSON_parse : jsstring -> option Json.value) (requested : GameMode)
         (response : Js.completion GenerateContentResponse) (a : App.App),
    let a' := App.startGame JSON_parse requested response a in
    List.length (App.footer_links a') <= 3
    /\ NoDup (App.footer_links a')
    /\ (forall u, In u (App.footer_links a') ->
                  exists r, response = Js.Normal r /\ In u (grounding_uris r))
    /\ App.footer_links (App.resetGame a') = [].
Proof.
  intros JSON_parse requested response a a'. subst a'.
  unfold App.startGame.
  destruct (generateTriviaQuestions_never_throws JSON_parse
              (App.inputTopic a) response) as [result Hres].
  rewrite Hres. cbn.
  destruct (generated_sources _ _ _ _ Hres) as [Hnd Hin].
  unfold App.footer_links. cbn -[firstn].
  destruct (sources result) as [| u0 us] eqn:Hs.
  - repeat split; [simpl; lia | constructor | intros u []].
  - split; [| split; [| split]].
    + destruct (App.is_setup requested); [simpl; lia |].
      apply firstn_le_length.
    + destruct (App.is_setup requested); [constructor |].
      apply NoDup_firstn. exact Hnd.
    + intros u Hu. destruct (App.is_setup requested); [destruct Hu |].
      apply Hin. exact (in_firstn 3 (u0 :: us) u Hu).
    + reflexivity.
Qed.

End AppExtras.
(** ** More on the live game *)

Section LiveGameExtras.

Import JsString WebAudio LiveGame.
Local Open Scope Q_scope.

(** *** After teardown *)

Lemma no_end_game_in_reactions s (rs : list reaction) :
  forallb (fun e => negb (is_end_game e)) (flat_map (run_reaction s) rs) = true.
Proof.
  induction rs as [| r rs IH]; [reflexivity |].
  simpl. rewrite forallb_app, IH, andb_true_r.
  destruct r; simpl; [reflexivity |]. destruct (has_close s); reflexivity.
Qed.

Lemma no_end_game_in_map {A : Type} (f : A -> effect) (l : list A) :
  (forall a, is_end_game (f a) = false) ->
  forallb (fun e => negb (is_end_game e)) (map f l) = true.
Proof.
  intro Hf. induction l as [| a l IH]; [reflexivity |].
  simpl. rewrite Hf, IH. reflexivity.
Qed.

(** One event on a component that is torn down: it stays torn down, the
    [connected] and [error] cells keep their values, [onEndGame] is not
    called. *)
Lemma step_after_teardown g e :
  after_mount e ->
  isMounted g = false ->
  isMounted (fst (step g e)) = false
  /\ connected (fst (step g e)) = connected g
  /\ error (fst (step g e)) = error g
  /\ forallb (fun x => negb (is_end_game x)) (snd (step g e)) = true.
Proof.
  intros He Hm.
  destruct e; simpl in He |- *; try (destruct He; fail).
  - unfold init_resume. destruct outcome; [| rewrite Hm]; cbn; auto.
  - unfold session_settles.
    destruct (sessionPromise g), outcome; cbn; auto.
    repeat split; try assumption. apply no_end_game_in_reactions.
  - unfold onOpen. rewrite Hm. cbn. auto.
  - unfold onMessage. rewrite Hm. cbn. auto.
  - unfold onMessage_begin. rewrite Hm. cbn. auto.
  - unfold decode_settles, onMessage_resume, handle_interruption.
    destruct (nth_error (decoding g) i) as [msg |]; [| cbn; auto].
    destruct decoded; [| cbn; auto].
    destruct (message_interrupted msg); cbn; repeat split; try assumption.
    apply no_end_game_in_map. reflexivity.
  - unfold on_ended.
    match goal with
    | |- context [filter ?f ?l] => destruct (filter f l)
    end; cbn; auto.
  - unfold onClose. rewrite Hm. cbn. auto.
  - unfold onError. rewrite Hm. cbn. auto.
  - cbn. auto.
  - unfold onaudioprocess, session_then.
    destruct (processorRef g); [| cbn; auto].
    destruct (effect_isMicOn g); cbn; [| auto].
    destruct (sessionPromise g); cbn; auto.
  - unfold cleanup, session_then. cbn.
    destruct (sessionRef g); [destruct (sessionPromise g) |]; cbn;
      repeat split; rewrite ?forallb_app;
      repeat (apply andb_true_intro; split);
      try (apply no_end_game_in_map; reflexivity);
      try reflexivity.
    destruct (has_close s); reflexivity.
Qed.

(** X9: once [cleanup] has run, whatever the session, the decoder and the
    browser still deliver, the component stays unmounted: [onEndGame] is
    never called, and the [connected] and [error] cells are not written. *)
Theorem teardown_silences_the_callbacks :
  forall (g : LiveGame) (es : list event),
    Forall after_mount es ->
    let result := run (fst (cleanup g)) es in
    isMounted (fst result) = false
    /\ connected (fst result) = connected g
    /\ error (fst result) = error g
    /\ ~ In OnEndGame (snd result).
Proof.
  intros g es Hes result. subst result.
  assert (Hgen : forall g0,
             isMounted g0 = false ->
             isMounted (fst (run g0 es)) = false
             /\ connected (fst (run g0 es)) = connected g0
             /\ error (fst (run g0 es)) = error g0
             /\ forallb (fun x => negb (is_end_game x)) (snd (run g0 es))
                = true).
  { induction Hes as [| e es He _ IH]; intros g0 Hm; [cbn; auto |].
    rewrite run_cons. cbn [fst snd].
    destruct (step_after_teardown g0 e He Hm) as (Hm1 & Hc1 & He1 & Hq1).
    destruct (IH (fst (step g0 e)) Hm1) as (Hm2 & Hc2 & He2 & Hq2).
    rewrite forallb_app, Hq1, Hq2, Hc2, He2. auto. }
  assert (Hclean : isMounted (fst (cleanup g)) = false
                   /\ connected (fst (cleanup g)) = connected g
                   /\ error (fst (cleanup g)) = error g).
  { unfold cleanup, session_then. cbn.
    destruct (sessionRef g); [destruct (sessionPromise g) |]; cbn; auto. }
  destruct Hclean as (Hm & Hc & He).
  destruct (Hgen (fst (cleanup g)) Hm) as (Hm' & Hc' & He' & Hq).
  rewrite Hc', He'. repeat split; try assumption.
  intro Hin. rewrite forallb_forall in Hq.
  specialize (Hq OnEndGame Hin). discriminate Hq.
Qed.

(** *** The speaking indicator *)

Lemma step_keeps_indicator g e :
  whole e ->
  (audioSourcesRef g <> [] -> isBotSpeaking g = true) ->
  audioSourcesRef (fst (step g e)) <> [] ->
  isBotSpeaking (fst (step g e)) = true.
Proof.
  intros He Hinv.
  destruct e; simpl in He |- *; try (destruct He; fail); try exact Hinv.
  - unfold init_resume. destruct outcome; [exact Hinv |].
    destruct (isMounted g); exact Hinv.
  - unfold session_settles.
    destruct (sessionPromise g), outcome; exact Hinv.
  - unfold onOpen. destruct (isMounted g); [| exact Hinv]. cbn.
    destruct (inputCtxRef g), (streamRef g); exact Hinv.
  - unfold onMessage, onMessage_resume, handle_interruption.
    destruct (isMounted g); [| exact Hinv]. cbn.
    destruct (if truthy (message_data msg) then outputCtxRef g else None).
    + destruct decoded; [| cbn; intros _; reflexivity].
      destruct (message_interrupted msg); cbn;
        [intro Hne; exfalso; apply Hne | intros _]; reflexivity.
    + destruct (message_interrupted msg); cbn; [| exact Hinv].
      intro Hne. exfalso. apply Hne. reflexivity.
  - unfold on_ended.
    match goal with
    | |- context [filter ?f ?l] => destruct (filter f l) eqn:E
    end; cbn; [intro Hne; exfalso; apply Hne; reflexivity |].
    intros _. apply Hinv. intro Hnil. rewrite Hnil in E. discriminate E.
  - unfold onClose. destruct (isMounted g); exact Hinv.
  - unfold onError. destruct (isMounted g); exact Hinv.
  - unfold onaudioprocess, session_then.
    destruct (processorRef g); [| exact Hinv].
    destruct (effect_isMicOn g); cbn; [| exact Hinv].
    destruct (sessionPromise g); exact Hinv.
  - unfold cleanup, session_then. cbn.
    destruct (sessionRef g); [destruct (sessionPromise g) |]; exact Hinv.
Qed.

(** X10: as long as every message is handled from top to bottom, the
    indicator shows the host speaking whenever a source is tracked. *)
Theorem indicator_is_on_while_sources_are_tracked :
  forall (es : list event),
    Forall whole es ->
    audioSourcesRef (fst (run first_render es)) <> [] ->
    isBotSpeaking (fst (run first_render es)) = true.
Proof.
  intros es Hes.
  assert (Hgen : forall g,
             (audioSourcesRef g <> [] -> isBotSpeaking g = true) ->
             audioSourcesRef (fst (run g es)) <> [] ->
             isBotSpeaking (fst (run g es)) = true).
  { induction Hes as [| e es He _ IH]; intros g Hinv; [exact Hinv |].
    rewrite run_cons. cbn [fst]. apply IH.
    apply step_keeps_indicator; assumption. }
  apply Hgen. intro H. exfalso. apply H. reflexivity.
Qed.

(** When the last source ends while the next message is still being
    decoded, the indicator goes off and stays off although the next source
    plays. *)
Example indicator_off_while_playing :
  let g := fst (run Examples.live
                  [ Message 0 (audio_message (lit "AAAA"))
                      (Js.Normal Examples.silence);
                    MessageBegins 0 (audio_message (lit "BBBB"));
                    Ended 2%nat;
                    DecodeSettles 0 (Js.Normal Examples.silence) ]) in
  audioSourcesRef g = [3%nat] /\ isBotSpeaking g = false.
Proof. split; reflexivity. Qed.

(** *** Frames before the session is there *)

Lemma onaudioprocess_pending g inputData :
  processorRef g <> None ->
  effect_isMicOn g = true ->
  sessionPromise g = Pending ->
  onaudioprocess inputData g
  = (set_sessionPromise Pending
       (waiting g ++ [SendFrame (createPcmBlob inputData)]) g, []).
Proof.
  intros Hp Hmic Hprom. unfold onaudioprocess, session_then.
  destruct (processorRef g); [| congruence].
  rewrite Hmic, Hprom. reflexivity.
Qed.

(** X11: frames that arrive while the session promise is pending are held
    back, and when the promise resolves they are sent, each once, in the
    order they came, after what was waiting before; when it is rejected
    they are dropped. *)
Theorem pending_frames_are_sent_in_order :
  forall (g : LiveGame) (frames : list Float32Array) (session : Session),
    processorRef g <> None ->
    effect_isMicOn g = true ->
    sessionPromise g = Pending ->
    let held := run g (map AudioProcess frames) in
    snd held = []
    /\ snd (session_settles (Js.Normal session) (fst held))
       = flat_map (run_reaction session) (waiting g)
         ++ map (fun f => SendRealtimeInput (createPcmBlob f)) frames
    /\ (forall reason,
          snd (session_settles (Js.Throw reason) (fst held)) = []).
Proof.
  intros g frames session Hp Hmic Hprom held. subst held.
  assert (Hgen : forall g0,
             processorRef g0 <> None ->
             effect_isMicOn g0 = true ->
             sessionPromise g0 = Pending ->
             snd (run g0 (map AudioProcess frames)) = []
             /\ sessionPromise (fst (run g0 (map AudioProcess frames)))
                = Pending
             /\ waiting (fst (run g0 (map AudioProcess frames)))
                = waiting g0
                  ++ map (fun f => SendFrame (createPcmBlob f)) frames).
  { induction frames as [| f frames IH]; intros g0 Hp0 Hmic0 Hprom0.
    - cbn. rewrite app_nil_r. auto.
    - rewrite map_cons, run_cons.
      change (step g0 (AudioProcess f)) with (onaudioprocess f g0).
      rewrite (onaudioprocess_pending g0 f Hp0 Hmic0 Hprom0). cbn [fst snd].
      destruct (IH (set_sessionPromise Pending
                      (waiting g0 ++ [SendFrame (createPcmBlob f)]) g0))
        as (Hout & Hprom1 & Hwait); try assumption; try reflexivity.
      rewrite Hout, Hprom1, Hwait. cbn.
      rewrite <- app_assoc. auto. }
  destruct (Hgen g Hp Hmic Hprom) as (Hout & Hprom1 & Hwait).
  split; [exact Hout |].
  unfold session_settles. rewrite Hprom1. cbn. rewrite Hwait.
  split; [| reflexivity].
  rewrite flat_map_app. f_equal.
  clear. induction frames as [| f frames IH]; [reflexivity |].
  cbn. rewrite IH. reflexivity.
Qed.

(** *** Start times *)

Lemma step_start_bound g e :
  0 <= nextStartTimeRef g ->
  0 <= nextStartTimeRef (fst (step g e))
  /\ Forall (fun p => 0 <= fst p) (starts (snd (step g e))).
Proof.
  intro Hc.
  assert (Hresume : forall msg decoded g0,
             0 <= nextStartTimeRef g0 ->
             0 <= nextStartTimeRef (fst (onMessage_resume msg decoded g0))
             /\ Forall (fun p => 0 <= fst p)
                  (starts (snd (onMessage_resume msg decoded g0)))).
  { intros msg decoded g0 H0. unfold onMessage_resume, handle_interruption.
    destruct decoded as [buf | reason]; [| cbn; auto].
    pose proof (duration_nonneg buf) as Hd.
    destruct (message_interrupted msg); cbn.
    - split; [apply Qle_refl |].
      constructor; [exact H0 |].
      rewrite starts_none; [constructor |].
      apply no_start_in_map. reflexivity.
    - split; [lra | constructor; [exact H0 | constructor]]. }
  assert (Hint : forall msg g0,
             0 <= nextStartTimeRef g0 ->
             0 <= nextStartTimeRef (fst (handle_interruption msg g0))
             /\ Forall (fun p => 0 <= fst p)
                  (starts (snd (handle_interruption msg g0)))).
  { intros msg g0 H0. unfold handle_interruption.
    destruct (message_interrupted msg); cbn; [| auto].
    split; [apply Qle_refl |].
    rewrite starts_none; [constructor |].
    apply no_start_in_map. reflexivity. }
  assert (Hsync : forall t, 0 <= nextStartTimeRef (onMessage_sync t g)).
  { intro t. cbn. eapply Qle_trans; [exact Hc | apply Q.le_max_l]. }
  destruct e; simpl.
  - auto.
  - unfold init_resume. destruct outcome; [| destruct (isMounted g)]; auto.
  - unfold session_settles.
    destruct (sessionPromise g), outcome; cbn; auto.
    split; [exact Hc |].
    rewrite starts_none; [constructor | apply no_start_in_reactions].
  - unfold onOpen. destruct (isMounted g); cbn; [| auto].
    destruct (inputCtxRef g), (streamRef g); cbn; auto.
  - unfold onMessage. destruct (isMounted g); cbn; [| auto].
    destruct (if truthy (message_data msg) then outputCtxRef g else None).
    + apply Hresume. apply Hsync.
    + apply Hint. exact Hc.
  - unfold onMessage_begin. destruct (isMounted g); cbn; [| auto].
    destruct (if truthy (message_data msg) then outputCtxRef g else None).
    + cbn. split; [apply Hsync | constructor].
    + apply Hint. exact Hc.
  - unfold decode_settles.
    destruct (nth_error (decoding g) i) as [msg |]; [| cbn; auto].
    apply Hresume. exact Hc.
  - unfold on_ended.
    match goal with
    | |- context [filter ?f ?l] => destruct (filter f l)
    end; cbn; auto.
  - unfold onClose. destruct (isMounted g); cbn; auto.
  - unfold onError. destruct (isMounted g); cbn; auto.
  - auto.
  - unfold onaudioprocess, session_then.
    destruct (processorRef g); [| cbn; auto].
    destruct (effect_isMicOn g); cbn; [| auto].
    destruct (sessionPromise g); cbn; auto.
  - unfold cleanup, session_then. cbn.
    destruct (sessionRef g); [destruct (sessionPromise g) |]; cbn;
      (split; [exact Hc |]);
      (rewrite starts_none; [constructor |]);
      rewrite ?forallb_app;
      repeat (apply andb_true_intro; split);
      try (apply no_start_in_map; reflexivity);
      try reflexivity.
    destruct (has_close s); reflexivity.
Qed.

(** X17: whatever happens to the component, in whatever order and at
    whatever clock values, the cursor is never negative and no source is
    started at a negative time. *)
Theorem start_times_are_never_negative :
  forall (es : list event),
    0 <= nextStartTimeRef (fst (run first_render es))
    /\ Forall (fun p => 0 <= fst p) (starts (snd (run first_render es))).
Proof.
  intro es.
  assert (Hgen : forall g,
             0 <= nextStartTimeRef g ->
             0 <= nextStartTimeRef (fst (run g es))
             /\ Forall (fun p => 0 <= fst p) (starts (snd (run g es)))).
  { induction es as [| e es IH]; intros g Hg; [cbn; auto |].
    rewrite run_cons. cbn [fst snd]. rewrite starts_app.
    destruct (step_start_bound g e Hg) as [Hg1 Hs1].
    destruct (IH (fst (step g e)) Hg1) as [Hg2 Hs2].
    split; [exact Hg2 | apply Forall_app; auto]. }
  apply Hgen. apply Qle_refl.
Qed.

(** *** A refused microphone *)

Lemma step_without_stream g e :
  without_stream e ->
  streamRef g = None /\ processorRef g = None
  /\ sessionRef g = false /\ waiting g = [] ->
  (streamRef (fst (step g e)) = None
   /\ processorRef (fst (step g e)) = None
   /\ sessionRef (fst (step g e)) = false
   /\ waiting (fst (step g e)) = [])
  /\ forallb (fun x => negb (is_send x)) (snd (step g e)) = true.
Proof.
  intros He (Hs & Hp & Hr & Hw).
  destruct e; simpl in He |- *; try (destruct He; fail).
  - unfold init_resume. destruct outcome; [destruct He |].
    destruct (isMounted g); cbn; auto.
  - unfold session_settles.
    destruct (sessionPromise g), outcome; cbn; auto.
    rewrite Hw. cbn. auto.
  - unfold onOpen. destruct (isMounted g); cbn; [| auto].
    rewrite Hs. destruct (inputCtxRef g); cbn; auto.
  - unfold onMessage, onMessage_resume, handle_interruption.
    destruct (isMounted g); cbn; [| auto].
    destruct (if truthy (message_data msg) then outputCtxRef g else None).
    + destruct decoded; [| cbn; auto].
      destruct (message_interrupted msg); cbn; repeat split; try assumption.
      rewrite forallb_forall. intros x Hx. apply in_map_iff in Hx.
      destruct Hx as (y & <- & _). reflexivity.
    + destruct (message_interrupted msg); cbn; repeat split; try assumption.
      rewrite forallb_forall. intros x Hx. apply in_map_iff in Hx.
      destruct Hx as (y & <- & _). reflexivity.
  - unfold onMessage_begin, handle_interruption.
    destruct (isMounted g); cbn; [| auto].
    destruct (if truthy (message_data msg) then outputCtxRef g else None);
      [cbn; auto |].
    destruct (message_interrupted msg); cbn; repeat split; try assumption.
    rewrite forallb_forall. intros x Hx. apply in_map_iff in Hx.
    destruct Hx as (y & <- & _). reflexivity.
  - unfold decode_settles, onMessage_resume, handle_interruption.
    destruct (nth_error (decoding g) i) as [msg |]; [| cbn; auto].
    destruct decoded; [| cbn; auto].
    destruct (message_interrupted msg); cbn; repeat split; try assumption.
    rewrite forallb_forall. intros x Hx. apply in_map_iff in Hx.
    destruct Hx as (y & <- & _). reflexivity.
  - unfold on_ended.
    match goal with
    | |- context [filter ?f ?l] => destruct (filter f l)
    end; cbn; auto.
  - unfold onClose. destruct (isMounted g); cbn; auto.
  - unfold onError. destruct (isMounted g); cbn; auto.
  - cbn. auto.
  - unfold onaudioprocess. rewrite Hp. cbn. auto.
  - unfold cleanup. cbn. rewrite Hr, Hs, Hp. cbn.
    repeat split; try assumption.
    destruct (sourceRef g), (inputCtxRef g), (outputCtxRef g); reflexivity.
Qed.

(** X18: when the microphone request is refused, the error is shown, no
    connection is made, and, whatever happens afterwards, no audio frame is
    ever sent. *)
Theorem refused_microphone_sends_nothing :
  forall (inputCtx outputCtx : AudioContext) (reason : string)
         (es : list event),
    Forall without_stream es ->
    let refused :=
      fst (run first_render
             [MountEffect inputCtx outputCtx; UserMedia (Js.Throw reason)]) in
    error refused = Some (lit "Failed to access microphone or connect.")
    /\ sessionRef (fst (run refused es)) = false
    /\ forallb (fun x => negb (is_send x)) (snd (run refused es)) = true.
Proof.
  intros inputCtx outputCtx reason es Hes refused.
  split; [reflexivity |].
  assert (Hgen : forall g,
             streamRef g = None /\ processorRef g = None
             /\ sessionRef g = false /\ waiting g = [] ->
             sessionRef (fst (run g es)) = false
             /\ forallb (fun x => negb (is_send x)) (snd (run g es)) = true).
  { induction Hes as [| e es He _ IH]; intros g Hg.
    - cbn. destruct Hg as (_ & _ & Hr & _). auto.
    - rewrite run_cons. cbn [fst snd].
      destruct (step_without_stream g e He Hg) as [Hg1 Hq1].
      destruct (IH (fst (step g e)) Hg1) as [Hr2 Hq2].
      rewrite forallb_app, Hq1, Hq2. auto. }
  apply Hgen. subst refused. cbn. auto.
Qed.

End LiveGameExtras.
(** ** More on the standard game *)

Section StandardGameExtras.

Import JsString Types StandardGame.
Local Open Scope nat_scope.

Lemma next_clicks_cons e es :
  next_clicks (e :: es) = next_clicks [e] + next_clicks es.
Proof. unfold next_clicks. simpl. destruct e; reflexivity. Qed.

Lemma correct_le_next es : correct_answers es <= next_clicks es.
Proof.
  induction es as [| e es IH]; [apply Nat.le_refl |].
  unfold correct_answers, next_clicks in *. destruct e; simpl; lia.
Qed.

(** One event of a game that is on, with its index in range: the index
    moves on by one with a click that leaves a question other than the
    last, the game is over with the click that leaves the last, nothing
    moves otherwise. *)
Lemma step_progress gameState g e g' out :
  step gameState g e = Some (g', out) ->
  over g = false ->
  currentQIdx g < List.length (questions gameState) ->
  (over g' = false
   /\ currentQIdx g' = currentQIdx g + next_clicks [e]
   /\ currentQIdx g' < List.length (questions gameState)
   /\ ~ In OnRestart out)
  \/ (over g' = true
      /\ currentQIdx g + next_clicks [e] = List.length (questions gameState)
      /\ currentQIdx g' = List.length (questions gameState) - 1
      /\ In OnRestart out).
Proof.
  unfold step. intros H Hover Hlt. rewrite Hover in H.
  assert (Hnext : forall g1 out1,
             handleNext gameState g = (g1, out1) ->
             (over g1 = false
              /\ currentQIdx g1 = currentQIdx g + 1
              /\ currentQIdx g1 < List.length (questions gameState)
              /\ ~ In OnRestart out1)
             \/ (over g1 = true
                 /\ currentQIdx g + 1 = List.length (questions gameState)
                 /\ currentQIdx g1 = List.length (questions gameState) - 1
                 /\ In OnRestart out1)).
  { intros g1 out1 Hn. unfold handleNext in Hn.
    destruct (Z.ltb_spec (Z.of_nat (currentQIdx g))
                (Z.of_nat (List.length (questions gameState)) - 1));
      injection Hn as <- <-; cbn.
    - left. repeat split; try lia; try assumption; try (intros []).
    - right. repeat split; try lia. right. left. reflexivity. }
  destruct e; cbn [next_clicks filter List.length].
  - destruct (showAnswer g); [discriminate H |].
    name_result H. left. unfold handleReveal.
    destruct (nth_error (questions gameState) (currentQIdx g)); cbn;
      repeat split; try lia; try assumption;
      try (intros [Hx | []]; discriminate Hx); try (intros []).
  - destruct (showAnswer g); [| discriminate H].
    name_result H. unfold gotItRight.
    destruct (handleNext gameState g) as [g1 out1] eqn:Hn.
    destruct (Hnext g1 out1 eq_refl) as [Hon | Hend]; cbn; [left | right];
      exact Hon || exact Hend.
  - destruct (showAnswer g); [| discriminate H].
    name_result H. unfold missedIt.
    destruct (handleNext gameState g) as [g1 out1] eqn:Hn.
    exact (Hnext g1 out1 eq_refl).
  - unfold timer_fires in H. destruct (timer g); [| discriminate H].
    name_result H. left. cbn. repeat split; try lia; try assumption;
      try (intros [Hx | []]; discriminate Hx).
Qed.

Lemma run_progress gameState es :
  forall g g' out,
    run gameState g es = Some (g', out) ->
    over g = false ->
    currentQIdx g < List.length (questions gameState) ->
    (over g' = false
     /\ currentQIdx g' = currentQIdx g + next_clicks es
     /\ currentQIdx g' < List.length (questions gameState)
     /\ ~ In OnRestart out)
    \/ (over g' = true
        /\ currentQIdx g + next_clicks es = List.length (questions gameState)
        /\ currentQIdx g' = List.length (questions gameState) - 1
        /\ In OnRestart out).
Proof.
  induction es as [| e es IH]; intros g g' out H Hover Hlt.
  - injection H as <- <-. left. unfold next_clicks. cbn.
    repeat split; try lia; try assumption; try (intros []).
  - simpl in H.
    destruct (step gameState g e) as [[g1 out1] |] eqn:E1; [| discriminate H].
    destruct (run gameState g1 es) as [[g2 out2] |] eqn:E2; [| discriminate H].
    injection H as <- <-. rewrite next_clicks_cons.
    destruct (step_progress _ _ _ _ _ E1 Hover Hlt)
      as [(Ho1 & Hi1 & Hl1 & Hr1) | (Ho1 & Hi1 & Hl1 & Hr1)].
    + destruct (IH _ _ _ E2 Ho1 Hl1)
        as [(Ho2 & Hi2 & Hl2 & Hr2) | (Ho2 & Hi2 & Hl2 & Hr2)].
      * left. repeat split; try lia; try assumption.
        intro Hin. apply in_app_or in Hin. tauto.
      * right. repeat split; try lia; try assumption.
        apply in_or_app. right. exact Hr2.
    + destruct es as [| e2 es].
      * injection E2 as <- <-. right. rewrite app_nil_r.
        change (next_clicks []) with 0. rewrite Nat.add_0_r.
        split; [exact Ho1 | split; [exact Hi1 | split; [exact Hl1 | exact Hr1]]].
      * simpl in E2. unfold step in E2. rewrite Ho1 in E2. discriminate E2.
Qed.

Lemma play_progress gameState es g out :
  questions gameState <> [] ->
  play gameState es = Some (g, out) ->
  (over g = false
   /\ currentQIdx g = next_clicks es
   /\ next_clicks es < List.length (questions gameState)
   /\ ~ In OnRestart out)
  \/ (over g = true
      /\ next_clicks es = List.length (questions gameState)
      /\ currentQIdx g = List.length (questions gameState) - 1
      /\ In OnRestart out).
Proof.
  intros Hne Hplay. unfold play, mount in Hplay.
  destruct (run gameState _ es) as [[g' out'] |] eqn:E; [| discriminate Hplay].
  injection Hplay as <- <-.
  assert (H0 : 0 < List.length (questions gameState)).
  { destruct (questions gameState); [congruence | simpl; lia]. }
  destruct (run_progress _ _ _ _ _ E eq_refl H0)
    as [(Ho & Hi & Hl & Hr) | (Ho & Hi & Hl & Hr)]; cbn in Hi, Hl.
  - left. repeat split; try lia; try assumption.
    intros [Hx | Hin]; [discriminate Hx | exact (Hr Hin)].
  - right. repeat split; try lia; try assumption.
    right. exact Hr.
Qed.

(** X12: with a non-empty questions list, the index counts the clicks that
    left a question; the game is over, and [onRestart] called, exactly when
    as many such clicks have happened as there are questions: every question
    is visited once, in order, and the game ends on the last. *)
Theorem game_ends_with_the_last_question :
  forall (gameState : GameState) (es : list event)
         (g : StandardGame) (out : list effect),
    questions gameState <> [] ->
    play gameState es = Some (g, out) ->
    next_clicks es <= List.length (questions gameState)
    /\ (over g = true <-> next_clicks es = List.length (questions gameState))
    /\ (In OnRestart out <-> over g = true)
    /\ (over g = false -> currentQIdx g = next_clicks es).
Proof.
  intros gameState es g out Hne Hplay.
  destruct (play_progress gameState es g out Hne Hplay)
    as [(Ho & Hi & Hl & Hr) | (Ho & Hi & Hl & Hr)].
  - split; [lia |]. split; [split; [congruence | lia] |].
    split; [split; [tauto | congruence] | auto].
  - split; [lia |]. split; [tauto |].
    split; [tauto | congruence].
Qed.

(** X13: the score never exceeds the number of questions left behind, nor
    the number of questions. *)
Theorem score_is_bounded_by_the_questions :
  forall (gameState : GameState) (es : list event)
         (g : StandardGame) (out : list effect),
    questions gameState <> [] ->
    play gameState es = Some (g, out) ->
    score g <= next_clicks es
    /\ score g <= List.length (questions gameState).
Proof.
  intros gameState es g out Hne Hplay.
  assert (Hscore : score g = correct_answers es).
  { unfold play, mount in Hplay.
    destruct (run gameState _ es) as [[g' out'] |] eqn:E;
      [| discriminate Hplay].
    injection Hplay as <- _.
    rewrite (run_score _ _ _ _ _ E). reflexivity. }
  pose proof (correct_le_next es) as Hle.
  destruct (play_progress gameState es g out Hne Hplay)
    as [(_ & _ & Hl & _) | (_ & Hl & _ & _)]; lia.
Qed.

(** *** The question timer *)

Lemma question_effect_index gameState idx shown i :
  question_effect gameState idx shown = Some i ->
  i = idx /\ nth_error (questions gameState) i <> None.
Proof.
  unfold question_effect.
  destruct (nth_error (questions gameState) idx) eqn:E; [| discriminate].
  destruct (negb shown); [| discriminate].
  intro H. injection H as <-. split; [reflexivity | congruence].
Qed.

Lemma step_timer gameState g e g' out :
  step gameState g e = Some (g', out) ->
  (forall i, timer g = Some i ->
             i = currentQIdx g /\ nth_error (questions gameState) i <> None) ->
  forall i, timer g' = Some i ->
            i = currentQIdx g' /\ nth_error (questions gameState) i <> None.
Proof.
  unfold step. intros H Hinv.
  destruct (over g); [discriminate H |].
  assert (Hnext : forall i,
             timer (fst (handleNext gameState g)) = Some i ->
             i = currentQIdx (fst (handleNext gameState g))
             /\ nth_error (questions gameState) i <> None).
  { unfold handleNext. destruct (_ <? _)%Z; cbn; [| exact Hinv].
    apply question_effect_index. }
  destruct e.
  - destruct (showAnswer g); [discriminate H |].
    name_result H. unfold handleReveal.
    destruct (nth_error (questions gameState) (currentQIdx g)); exact Hinv.
  - destruct (showAnswer g); [| discriminate H].
    name_result H. unfold gotItRight.
    destruct (handleNext gameState g) as [g1 out1]. exact Hnext.
  - destruct (showAnswer g); [| discriminate H].
    name_result H. exact Hnext.
  - unfold timer_fires in H. destruct (timer g); [| discriminate H].
    name_result H. cbn. discriminate.
Qed.

Lemma run_timer gameState es :
  forall g0 g1 out1,
    (forall j, timer g0 = Some j ->
               j = currentQIdx g0
               /\ nth_error (questions gameState) j <> None) ->
    run gameState g0 es = Some (g1, out1) ->
    forall j, timer g1 = Some j ->
              j = currentQIdx g1
              /\ nth_error (questions gameState) j <> None.
Proof.
  induction es as [| e es IH]; intros g0 g1 out1 H0 Hrun.
  - injection Hrun as <- _. exact H0.
  - simpl in Hrun.
    destruct (step gameState g0 e) as [[ga outa] |] eqn:E1;
      [| discriminate Hrun].
    destruct (run gameState ga es) as [[gb outb] |] eqn:E2;
      [| discriminate Hrun].
    injection Hrun as <- _.
    exact (IH ga _ _ (step_timer _ _ _ _ _ E1 H0) E2).
Qed.

(** X14: a pending question timer is always the timer of the question
    shown, and that question exists: when it fires, it speaks the current
    question, never one that was left behind. *)
Theorem timer_speaks_the_current_question :
  forall (gameState : GameState) (es : list event)
         (g : StandardGame) (out : list effect) (i : nat),
    play gameState es = Some (g, out) ->
    timer g = Some i ->
    i = currentQIdx g
    /\ (exists q, nth_error (questions gameState) i = Some q)
    /\ (over g = false ->
        exists g', step gameState g TimerFires
                   = Some (g', [Speak (question_text gameState (currentQIdx g))])).
Proof.
  intros gameState es g out i Hplay Htimer.
  assert (Hinv : i = currentQIdx g
                 /\ nth_error (questions gameState) i <> None).
  { unfold play, mount in Hplay.
    destruct (run gameState _ es) as [[g' out'] |] eqn:E;
      [| discriminate Hplay].
    injection Hplay as <- _.
    refine (run_timer gameState es _ _ _ _ E i Htimer).
    cbn. apply question_effect_index. }
  destruct Hinv as [-> Hq].
  split; [reflexivity |]. split.
  - destruct (nth_error (questions gameState) (currentQIdx g)) as [q |];
      [exists q; reflexivity | congruence].
  - intro Hover. unfold step, timer_fires. rewrite Hover, Htimer.
    eexists. reflexivity.
Qed.

(** *** Revealing and leaving a question *)

Lemma reveals_cons e es : reveals (e :: es) = reveals [e] + reveals es.
Proof. unfold reveals. simpl. destruct e; reflexivity. Qed.

Lemma step_reveals gameState g e g' out :
  step gameState g e = Some (g', out) ->
  shown g + reveals [e] = next_clicks [e] + shown g'.
Proof.
  unfold step, shown. intro H.
  destruct (over g) eqn:Hover; [discriminate H |].
  assert (Hnext : showAnswer g = true ->
                  1 = 1 + (if over (fst (handleNext gameState g)) then 0
                           else if showAnswer (fst (handleNext gameState g))
                                then 1 else 0)).
  { intro Hs. unfold handleNext.
    destruct (_ <? _)%Z; cbn; [rewrite Hover |]; reflexivity. }
  destruct e; cbn [reveals next_clicks filter List.length].
  - destruct (showAnswer g); [discriminate H |].
    name_result H. unfold handleReveal.
    destruct (nth_error (questions gameState) (currentQIdx g)); cbn;
      rewrite Hover; reflexivity.
  - destruct (showAnswer g) eqn:Hs; [| discriminate H].
    name_result H. unfold gotItRight.
    specialize (Hnext eq_refl).
    destruct (handleNext gameState g) as [g1 out1]. cbn in *. lia.
  - destruct (showAnswer g) eqn:Hs; [| discriminate H].
    name_result H. unfold missedIt. specialize (Hnext eq_refl). lia.
  - unfold timer_fires in H. destruct (timer g); [| discriminate H].
    name_result H. cbn. rewrite Hover. lia.
Qed.

Lemma run_reveals gameState es :
  forall g g' out,
    run gameState g es = Some (g', out) ->
    shown g + reveals es = next_clicks es + shown g'.
Proof.
  induction es as [| e es IH]; intros g g' out H.
  - injection H as <- _. unfold reveals, next_clicks. cbn. lia.
  - simpl in H.
    destruct (step gameState g e) as [[g1 out1] |] eqn:E1; [| discriminate H].
    destruct (run gameState g1 es) as [[g2 out2] |] eqn:E2; [| discriminate H].
    injection H as <- _.
    rewrite reveals_cons, next_clicks_cons.
    pose proof (step_reveals _ _ _ _ _ E1). pose proof (IH _ _ _ E2). lia.
Qed.

(** X19: a question is left only after its answer was revealed, and an
    answer is revealed once: in every game the reveals are the clicks that
    left a question, plus one exactly while an answer is on the screen. *)
Theorem every_question_left_was_revealed :
  forall (gameState : GameState) (es : list event)
         (g : StandardGame) (out : list effect),
    play gameState es = Some (g, out) ->
    reveals es
    = next_clicks es
      + (if over g then 0 else if showAnswer g then 1 else 0).
Proof.
  intros gameState es g out Hplay. unfold play, mount in Hplay.
  destruct (run gameState _ es) as [[g' out'] |] eqn:E; [| discriminate Hplay].
  injection Hplay as <- _.
  pose proof (run_reveals _ _ _ _ _ E) as H. unfold shown in H. cbn in H.
  exact H.
Qed.

(** X20: with a non-empty questions list, whenever "Reveal Answer" is on
    the screen a click on it finds the current question, speaks its answer
    and context, shows the answer, and changes nothing else. *)
Theorem reveal_speaks_the_current_answer :
  forall (gameState : GameState) (es : list event)
         (g : StandardGame) (out : list effect),
    questions gameState <> [] ->
    play gameState es = Some (g, out) ->
    over g = false ->
    showAnswer g = false ->
    exists q,
      nth_error (questions gameState) (currentQIdx g) = Some q
      /\ step gameState g ClickReveal
         = Some (mk (currentQIdx g) true (score g) (timer g) false,
                 [Speak (answer_text q)]).
Proof.
  intros gameState es g out Hne Hplay Hover Hshow.
  assert (Hlt : currentQIdx g < List.length (questions gameState)).
  { unfold play, mount in Hplay.
    destruct (run gameState _ es) as [[g' out'] |] eqn:E;
      [| discriminate Hplay].
    injection Hplay as <- _.
    eapply run_index; [exact E |]. simpl.
    destruct (questions gameState); [congruence | simpl; lia]. }
  destruct (nth_error (questions gameState) (currentQIdx g)) as [q |] eqn:E.
  - exists q. split; [reflexivity |].
    unfold step, handleReveal. rewrite Hover, Hshow, E. reflexivity.
  - apply nth_error_None in E. lia.
Qed.

End StandardGameExtras.
(** ** More on the speech queue *)

Section SpeechQueueExtras.

Import JsString Types StandardGame.
Local Open Scope nat_scope.

Lemma set_status_texts k s (c : list (jsstring * status)) :
  map fst (set_status k s c) = map fst c.
Proof.
  revert k. induction c as [| [text s0] c IH]; intro k.
  - destruct k; reflexivity.
  - destruct k as [| k]; simpl; [reflexivity | rewrite IH; reflexivity].
Qed.

(** One step keeps the context and the texts of the chain, and puts the
    text of a [speak] at the end. *)
Lemma queue_step_texts personality q e q' :
  queue_step personality q e = Some q' ->
  has_context q = true ->
  has_context q' = true
  /\ map fst (chain q') = map fst (chain q) ++ spoken_texts [e].
Proof.
  intros H Hctx.
  assert (Hupd : forall k s now,
             has_context (update q k s now) = true
             /\ map fst (chain (update q k s now))
                = map fst (chain q) ++ []).
  { intros k s now. unfold update. cbn.
    rewrite set_status_texts, app_nil_r. auto. }
  destruct e as [text | k | k w | k |]; simpl in H |- *.
  - injection H as <-. unfold speak. rewrite Hctx. cbn.
    rewrite map_app. auto.
  - unfold run_callback in H.
    destruct (status_at q k) as [[] |]; try discriminate H.
    destruct (previous q k) as [[] |]; try discriminate H.
    + destruct (closed q); injection H as <-; apply Hupd.
    + injection H as <-. apply Hupd.
  - unfold settle in H.
    destruct (nth_error (chain q) k) as [[text []] |]; try discriminate H.
    destruct (Bool.eqb _ _); [| discriminate H].
    destruct (GeminiService.playTextToSpeech text personality w);
      injection H as <-; apply Hupd.
  - unfold playback_ended in H.
    destruct (status_at q k) as [[] |]; try discriminate H.
    injection H as <-. apply Hupd.
  - injection H as <-. cbn. rewrite app_nil_r. auto.
Qed.

Lemma spoken_texts_cons e es :
  spoken_texts (e :: es) = spoken_texts [e] ++ spoken_texts es.
Proof. destruct e; reflexivity. Qed.

Lemma queue_run_texts personality es :
  forall q q',
    queue_run personality q es = Some q' ->
    has_context q = true ->
    map fst (chain q') = map fst (chain q) ++ spoken_texts es.
Proof.
  induction es as [| e es IH]; intros q q' H Hctx.
  - injection H as <-. rewrite app_nil_r. reflexivity.
  - simpl in H.
    destruct (queue_step personality q e) as [q1 |] eqn:E; [| discriminate H].
    destruct (queue_step_texts _ _ _ _ E Hctx) as [Hctx1 Htexts].
    rewrite (spoken_texts_cons e es), (IH q1 q' H Hctx1), Htexts, app_assoc.
    reflexivity.
Qed.

(** Appending a moment that is no request keeps the requests in order. *)
Lemma requests_in_order_other tr m :
  (forall k, m <> Requested k) ->
  requests_in_order tr -> requests_in_order (tr ++ [m]).
Proof.
  intros Hm Htr pre post k Hsplit j Hj.
  symmetry in Hsplit. apply split_at_end in Hsplit.
  destruct Hsplit as [(_ & _ & Hx) | (post' & -> & ->)].
  - exfalso. exact (Hm k (eq_sym Hx)).
  - exact (Htr pre post' k eq_refl j Hj).
Qed.

Lemma requests_in_order_moves q q' :
  moves q q' -> invariant q ->
  requests_in_order (trace q) -> requests_in_order (trace q').
Proof.
  intros Hmove [Hord Hub Hreq Hst Htr] Hin.
  destruct Hmove as [text | | k Hk Hprev | k Hk Hprev | k Hk Hprev
                     | k Hk | k Hk | k Hk];
    unfold update; cbn [trace]; rewrite ?app_nil_r; try exact Hin.
  - rewrite trace_speak. exact Hin.
  - intros pre post k' Hsplit j Hj.
    symmetry in Hsplit. apply split_at_end in Hsplit.
    destruct Hsplit as [(_ & -> & Hx) | (post' & -> & Hold)].
    + injection Hx as ->.
      destruct (Hreq j Hj) as (s & Hs & Hnw).
      destruct (Nat.lt_trichotomy j k) as [Hlt | [-> | Hgt]]; [exact Hlt | |].
      * congruence.
      * pose proof (in_order_before q Hord j k s Hs Hnw Hgt). congruence.
    + exact (Hin pre post' k' Hold j Hj).
  - apply requests_in_order_other; [discriminate | exact Hin].
  - apply requests_in_order_other; [discriminate | exact Hin].
Qed.

Lemma queue_run_requests personality es :
  forall q q',
    queue_run personality q es = Some q' ->
    invariant q -> requests_in_order (trace q) ->
    requests_in_order (trace q').
Proof.
  induction es as [| e es IH]; intros q q' H Hinv Hin.
  - injection H as <-. exact Hin.
  - simpl in H.
    destruct (queue_step personality q e) as [q1 |] eqn:E; [| discriminate H].
    pose proof (queue_step_moves personality q e q1 E) as Hmove.
    apply (IH q1 q' H).
    + exact (invariant_moves q q1 Hmove Hinv).
    + exact (requests_in_order_moves q q1 Hmove Hinv Hin).
Qed.

(** X15: the chain holds the texts handed to [speak], in the order of the
    calls, none dropped; and their requests are issued in that order, each
    at most once. *)
Theorem utterances_are_requested_in_order :
  forall (personality : HostPersonality) (es : list queue_event)
         (q : SpeechQueue),
    queue_run personality mounted_queue es = Some q ->
    map fst (chain q) = spoken_texts es
    /\ requests_in_order (trace q).
Proof.
  intros personality es q Hrun. split.
  - exact (queue_run_texts personality es mounted_queue q Hrun eq_refl).
  - apply (queue_run_requests personality es mounted_queue q Hrun).
    + exact invariant_mounted.
    + intros pre post k H. destruct pre; discriminate H.
Qed.

(** *** A closed context *)



End SpeechQueueExtras.
(** ** The theorems at work on concrete inputs *)

Section Witnesses.

Import JsString Types WebAudio.
Local Open Scope nat_scope.

Lemma playback_schedule_witness :
  LiveGame.isMounted Examples.live = true
  /\ LiveGame.outputCtxRef Examples.live = Some 1
  /\ Forall LiveGame.carries_audio Examples.segments
  /\ LiveGame.starts
       (snd (LiveGame.run Examples.live
               (map LiveGame.deliver Examples.segments)))
     = LiveGame.schedule (LiveGame.nextStartTimeRef Examples.live)
         (map (fun s => (LiveGame.arrival s, LiveGame.buffer s))
              Examples.segments)
  /\ LiveGame.back_to_back
       (LiveGame.starts
          (snd (LiveGame.run Examples.live
                  (map LiveGame.deliver Examples.segments)))).
Proof.
  assert (Hall : Forall LiveGame.carries_audio Examples.segments)
    by (repeat constructor).
  split; [reflexivity | split; [reflexivity | split; [exact Hall |]]].
  exact (playback_schedule_back_to_back Examples.live 1 Examples.segments
           eq_refl eq_refl Hall).
Defined.



Lemma generation_failure_witness :
  GeminiService.generation_fails Json.parse
    (Js.Normal (Examples.plain_response (lit "Sorry, I cannot help.")))
  /\ GeminiService.generateTriviaQuestions Json.parse (lit "Theatre")
       (Js.Normal (Examples.plain_response (lit "Sorry, I cannot help.")))
     = Js.Normal GeminiService.fallback.
Proof.
  assert (Hfail : GeminiService.generation_fails Json.parse
                    (Js.Normal (Examples.plain_response
                                  (lit "Sorry, I cannot help."))))
    by (vm_compute; reflexivity).
  split; [exact Hfail |].
  exact (proj1 (generation_failure_falls_back Json.parse (lit "Theatre")
                  _ Hfail)).
Defined.

Lemma fenced_json_witness :
  forallb is_space Examples.line_feed = true
  /\ includes GeminiService.fence Examples.one_question = false
  /\ Json.parse (lit "{" ++ Examples.one_question ++ lit "}")
     = Some (Json.JObject Examples.one_question_members)
  /\ GeminiService.generateTriviaQuestions Json.parse (lit "Theatre")
       (Js.Normal
          (Examples.plain_response
             (GeminiService.fenced Examples.line_feed
                (lit "{" ++ Examples.one_question ++ lit "}")
                Examples.line_feed)))
     = Js.Normal
         {| GeminiService.questions :=
              Json.member (lit "questions") Examples.one_question_members;
            GeminiService.sources := [] |}.
Proof.
  assert (Hparse : Json.parse (lit "{" ++ Examples.one_question ++ lit "}")
                   = Some (Json.JObject Examples.one_question_members))
    by (vm_compute; reflexivity).
  split; [reflexivity | split; [reflexivity | split; [exact Hparse |]]].
  exact (fenced_json_is_parsed Json.parse (lit "Theatre")
           Examples.line_feed Examples.one_question Examples.line_feed None
           Examples.one_question_members eq_refl eq_refl eq_refl Hparse).
Defined.

(** C5 as stated fails: this text is a valid JSON object with a questions
    array, wrapped in fences; but its question quotes a code fence, which
    the stripping removes as well, and the array that comes back is not the
    one the text holds. *)
Lemma fenced_json_counterexample :
  Json.parse Examples.fence_question
  = Some (Json.JObject Examples.fence_question_members)
  /\ GeminiService.generateTriviaQuestions Json.parse (lit "Markdown")
       (Js.Normal
          (Examples.plain_response
             (GeminiService.fenced Examples.line_feed Examples.fence_question
                Examples.line_feed)))
     <> Js.Normal
          {| GeminiService.questions :=
               Json.member (lit "questions") Examples.fence_question_members;
             GeminiService.sources := [] |}.
Proof.
  split; [vm_compute; reflexivity |].
  vm_compute. intro H. discriminate H.
Qed.

Lemma question_index_witness :
  questions Examples.game <> []
  /\ StandardGame.play Examples.game
       [StandardGame.ClickReveal; StandardGame.ClickGotItRight]
     = Some (StandardGame.mk 1 false 1 (Some 1) false,
             [StandardGame.Speak (StandardGame.intro_text Examples.game);
              StandardGame.Speak
                (lit "The answer is Shakespeare. Around 1600.")])
  /\ 1 <= 1 + 1 <= List.length (questions Examples.game).
Proof.
  assert (Hne : questions Examples.game <> []) by discriminate.
  split; [exact Hne | split; [reflexivity |]].
  exact (proj1 (proj2
    (question_index_in_range Examples.game
       [StandardGame.ClickReveal; StandardGame.ClickGotItRight]
       _ _ Hne eq_refl))).
Defined.


Lemma speech_queue_witness :
  StandardGame.queue_run STRICT_PROFESSOR StandardGame.mounted_queue
    Examples.two_utterances
  = Some Examples.after_two_utterances
  /\ StandardGame.status_at Examples.after_two_utterances 0
     = Some StandardGame.Done
  /\ In (StandardGame.PlaybackEnded 0)
        [StandardGame.Requested 0; StandardGame.Started 0;
         StandardGame.PlaybackEnded 0].
Proof.
  assert (Hrun : StandardGame.queue_run STRICT_PROFESSOR
                   StandardGame.mounted_queue Examples.two_utterances
                 = Some Examples.after_two_utterances) by reflexivity.
  split; [exact Hrun |].
  destruct (speech_queue_one_at_a_time STRICT_PROFESSOR
              Examples.two_utterances Examples.after_two_utterances Hrun)
    as [_ Horder].
  destruct (Horder [StandardGame.Requested 0; StandardGame.Started 0;
                    StandardGame.PlaybackEnded 0] [] 0 eq_refl)
    as [Hdone Hended].
  split; [exact Hdone |].
  apply Hended. right. left. reflexivity.
Defined.

Lemma speech_failure_witness :
  StandardGame.queue_run STRICT_PROFESSOR StandardGame.mounted_queue
    Examples.first_in_flight
  = Some Examples.while_first_in_flight
  /\ GeminiService.speech_fails Examples.world_fails
  /\ exists q',
       StandardGame.queue_run STRICT_PROFESSOR Examples.while_first_in_flight
         [StandardGame.QSettle 0 Examples.world_fails;
          StandardGame.QCallback 1]
       = Some q'
       /\ StandardGame.status_at q' 1 = Some StandardGame.InFlight
       /\ StandardGame.trace q'
          = [StandardGame.Requested 0; StandardGame.Requested 1].
Proof.
  assert (Hrun : StandardGame.queue_run STRICT_PROFESSOR
                   StandardGame.mounted_queue Examples.first_in_flight
                 = Some Examples.while_first_in_flight) by reflexivity.
  assert (Hfail : GeminiService.speech_fails Examples.world_fails)
    by (left; eexists; reflexivity).
  split; [exact Hrun | split; [exact Hfail |]].
  destruct speech_queue_never_stalls as [_ Hqueue].
  destruct (Hqueue STRICT_PROFESSOR Examples.first_in_flight
              Examples.while_first_in_flight Hrun) as (_ & _ & Hnext).
  destruct (Hnext 0 Examples.world_fails eq_refl eq_refl Hfail eq_refl)
    as (q' & Hq' & _ & Hstatus & Htrace).
  exists q'. split; [exact Hq' | split; [exact Hstatus | exact Htrace]].
Defined.

End Witnesses.
(** ** The further theorems at work on concrete inputs *)

Section ExtraWitnesses.

Import JsString Types WebAudio.
Local Open Scope nat_scope.

Lemma unfenced_text_witness :
  includes GeminiService.fence (lit "  {}  ") = false
  /\ GeminiService.strip_fences (lit "  {}  ") = lit "{}".
Proof.
  split; [reflexivity |].
  rewrite (unfenced_text_is_only_trimmed (lit "  {}  ") eq_refl).
  reflexivity.
Defined.

Lemma sources_witness :
  GeminiService.generateTriviaQuestions Json.parse (lit "Theatre")
    (Js.Normal Examples.grounded_response)
  = Js.Normal Examples.grounded_result
  /\ NoDup [lit "https://a.example/1"; lit "https://b.example/2"].
Proof.
  assert (H : GeminiService.generateTriviaQuestions Json.parse (lit "Theatre")
                (Js.Normal Examples.grounded_response)
              = Js.Normal Examples.grounded_result)
    by (vm_compute; reflexivity).
  split; [exact H |].
  exact (proj1 (sources_are_distinct_grounding_uris Json.parse (lit "Theatre")
                  Examples.grounded_response Examples.grounded_result H)).
Defined.

Lemma parsed_value_witness :
  GeminiService.generateTriviaQuestions Json.parse (lit "Theatre")
    (Js.Normal {| GeminiService.text := Some (lit "null");
                  GeminiService.candidates := None |})
  = Js.Normal GeminiService.fallback.
Proof.
  apply (parsed_value_decides_the_result Json.parse (lit "Theatre")
           {| GeminiService.text := Some (lit "null");
              GeminiService.candidates := None |}
           (lit "null") Json.JNull).
  - reflexivity.
  - discriminate.
  - vm_compute. reflexivity.
Defined.

Lemma instruction_witness :
  nth_error (questions Examples.game) 1
  = Some {| question := lit "Who wrote Tartuffe?";
            answer := lit "Moliere";
            context := None |}
  /\ includes
       (lit "Q2: Who wrote Tartuffe? (Answer: Moliere. Context: undefined)")
       (GeminiService.systemInstruction STRICT_PROFESSOR (lit "Theatre")
          (questions Examples.game))
     = true.
Proof.
  split; [reflexivity |].
  exact (proj1 (instruction_lists_every_question STRICT_PROFESSOR
                  (lit "Theatre") (questions Examples.game) 1 _ eq_refl)).
Defined.

Lemma startGame_witness :
  GeminiService.generation_fails Json.parse (Js.Throw "network")
  /\ App.mode (App.startGame Json.parse PLAY_STANDARD (Js.Throw "network")
                 App.initial) = PLAY_STANDARD
  /\ App.alerts (App.startGame Json.parse PLAY_STANDARD (Js.Throw "network")
                   App.initial) = 0
  /\ App.questions (App.startGame Json.parse PLAY_STANDARD
                      (Js.Throw "network") App.initial)
     = GeminiService.questions GeminiService.fallback.
Proof.
  destruct (startGame_always_starts_a_game Json.parse PLAY_STANDARD
              (Js.Throw "network") App.initial)
    as (Halerts & _ & Hmode & _ & _ & _ & _ & Hfail).
  split; [exact I |].
  split; [exact Hmode | split; [exact Halerts |]].
  exact (proj1 (Hfail I)).
Defined.

Lemma teardown_witness :
  Forall LiveGame.after_mount
    [LiveGame.Close; LiveGame.Error; LiveGame.Open]
  /\ ~ In LiveGame.OnEndGame
         (snd (LiveGame.run (fst (LiveGame.cleanup Examples.live))
                 [LiveGame.Close; LiveGame.Error; LiveGame.Open])).
Proof.
  assert (H : Forall LiveGame.after_mount
                [LiveGame.Close; LiveGame.Error; LiveGame.Open])
    by (repeat constructor).
  split; [exact H |].
  exact (proj2 (proj2 (proj2
    (teardown_silences_the_callbacks Examples.live _ H)))).
Defined.

Lemma indicator_witness :
  Forall LiveGame.whole
    (LiveGame.live_session Examples.session
     ++ map LiveGame.deliver Examples.segments)
  /\ LiveGame.audioSourcesRef
       (fst (LiveGame.run LiveGame.first_render
               (LiveGame.live_session Examples.session
                ++ map LiveGame.deliver Examples.segments)))
     = [2; 3; 4]
  /\ LiveGame.isBotSpeaking
       (fst (LiveGame.run LiveGame.first_render
               (LiveGame.live_session Examples.session
                ++ map LiveGame.deliver Examples.segments)))
     = true.
Proof.
  assert (H : Forall LiveGame.whole
                (LiveGame.live_session Examples.session
                 ++ map LiveGame.deliver Examples.segments))
    by (repeat constructor).
  split; [exact H | split; [reflexivity |]].
  apply (indicator_is_on_while_sources_are_tracked _ H). discriminate.
Defined.

Lemma pending_frames_witness :
  LiveGame.processorRef Examples.connecting <> None
  /\ LiveGame.effect_isMicOn Examples.connecting = true
  /\ LiveGame.sessionPromise Examples.connecting = LiveGame.Pending
  /\ snd (LiveGame.session_settles (Js.Normal Examples.session)
            (fst (LiveGame.run Examples.connecting
                    (map LiveGame.AudioProcess Examples.two_frames))))
     = [ LiveGame.SendRealtimeInput (LiveGame.createPcmBlob [1 # 2; -1 # 4]%Q);
         LiveGame.SendRealtimeInput (LiveGame.createPcmBlob [0%Q]) ].
Proof.
  assert (Hp : LiveGame.processorRef Examples.connecting <> None)
    by discriminate.
  split; [exact Hp | split; [reflexivity | split; [reflexivity |]]].
  exact (proj1 (proj2
    (pending_frames_are_sent_in_order Examples.connecting Examples.two_frames
       Examples.session Hp eq_refl eq_refl))).
Defined.

Lemma game_end_witness :
  questions Examples.game <> []
  /\ (exists g out,
         StandardGame.play Examples.game Examples.whole_game = Some (g, out)
         /\ StandardGame.over g = true
         /\ StandardGame.score g = 1)
  /\ StandardGame.next_clicks Examples.whole_game = 2.
Proof.
  assert (Hne : questions Examples.game <> []) by discriminate.
  split; [exact Hne |]. split.
  - eexists. eexists. split; [reflexivity | split; reflexivity].
  - destruct (game_ends_with_the_last_question Examples.game
                Examples.whole_game _ _ Hne eq_refl) as (_ & Hover & _ & _).
    exact (proj1 Hover eq_refl).
Defined.

Lemma score_bound_witness :
  questions Examples.game <> []
  /\ 1 <= StandardGame.next_clicks Examples.whole_game
  /\ 1 <= List.length (questions Examples.game).
Proof.
  assert (Hne : questions Examples.game <> []) by discriminate.
  split; [exact Hne |].
  exact (score_is_bounded_by_the_questions Examples.game Examples.whole_game
           _ _ Hne eq_refl).
Defined.

Lemma timer_witness :
  StandardGame.play Examples.game
    [StandardGame.ClickReveal; StandardGame.ClickGotItRight]
  = Some (StandardGame.mk 1 false 1 (Some 1) false,
          [StandardGame.Speak (StandardGame.intro_text Examples.game);
           StandardGame.Speak (lit "The answer is Shakespeare. Around 1600.")])
  /\ exists g',
       StandardGame.step Examples.game
         (StandardGame.mk 1 false 1 (Some 1) false) StandardGame.TimerFires
       = Some (g', [StandardGame.Speak (lit "Question 2. Who wrote Tartuffe?")]).
Proof.
  split; [reflexivity |].
  exact (proj2 (proj2
    (timer_speaks_the_current_question Examples.game
       [StandardGame.ClickReveal; StandardGame.ClickGotItRight]
       _ _ 1 eq_refl eq_refl)) eq_refl).
Defined.

Lemma request_order_witness :
  StandardGame.queue_run STRICT_PROFESSOR StandardGame.mounted_queue
    Examples.two_utterances
  = Some Examples.after_two_utterances
  /\ map fst (StandardGame.chain Examples.after_two_utterances)
     = [lit "Question 1."; lit "The answer is 42."]
  /\ 0 < 1.
Proof.
  assert (Hrun : StandardGame.queue_run STRICT_PROFESSOR
                   StandardGame.mounted_queue Examples.two_utterances
                 = Some Examples.after_two_utterances) by reflexivity.
  destruct (utterances_are_requested_in_order STRICT_PROFESSOR
              Examples.two_utterances Examples.after_two_utterances Hrun)
    as [Htexts Horder].
  split; [exact Hrun | split; [exact Htexts |]].
  apply (Horder [StandardGame.Requested 0; StandardGame.Started 0;
                 StandardGame.PlaybackEnded 0] [] 1 eq_refl 0).
  left. reflexivity.
Defined.


Lemma refused_microphone_witness :
  Forall LiveGame.without_stream [LiveGame.ToggleMic; LiveGame.Cleanup]
  /\ LiveGame.error
       (fst (LiveGame.run LiveGame.first_render
               [ LiveGame.MountEffect 0%nat 1%nat;
                 LiveGame.UserMedia (Js.Throw "NotAllowedError") ]))
     = Some (lit "Failed to access microphone or connect.").
Proof.
  assert (H : Forall LiveGame.without_stream
                [LiveGame.ToggleMic; LiveGame.Cleanup])
    by (repeat constructor).
  split; [exact H |].
  exact (proj1 (refused_microphone_sends_nothing 0%nat 1%nat
                  "NotAllowedError" [LiveGame.ToggleMic; LiveGame.Cleanup] H)).
Defined.

Lemma reveal_count_witness :
  (exists g out,
      StandardGame.play Examples.game
        [ StandardGame.ClickReveal; StandardGame.ClickMissedIt;
          StandardGame.ClickReveal ]
      = Some (g, out)
      /\ StandardGame.over g = false /\ StandardGame.showAnswer g = true)
  /\ StandardGame.reveals
       [ StandardGame.ClickReveal; StandardGame.ClickMissedIt;
         StandardGame.ClickReveal ]
     = 2.
Proof.
  split.
  - eexists. eexists. split; [reflexivity | split; reflexivity].
  - exact (every_question_left_was_revealed Examples.game
             [ StandardGame.ClickReveal; StandardGame.ClickMissedIt;
               StandardGame.ClickReveal ] _ _ eq_refl).
Defined.

Lemma reveal_answer_witness :
  questions Examples.game <> []
  /\ exists g out q,
       StandardGame.play Examples.game
         [StandardGame.ClickReveal; StandardGame.ClickMissedIt]
       = Some (g, out)
       /\ StandardGame.over g = false
       /\ StandardGame.showAnswer g = false
       /\ nth_error (questions Examples.game) (StandardGame.currentQIdx g)
          = Some q
       /\ answer q = lit "Moliere".
Proof.
  assert (Hne : questions Examples.game <> []) by discriminate.
  split; [exact Hne |].
  destruct (reveal_speaks_the_current_answer Examples.game
              [StandardGame.ClickReveal; StandardGame.ClickMissedIt]
              _ _ Hne eq_refl eq_refl eq_refl) as (q & Hq & _).
  eexists. eexists. exists q.
  split; [reflexivity |]. split; [reflexivity |]. split; [reflexivity |].
  split; [exact Hq |].
  cbn in Hq. injection Hq as <-. reflexivity.
Defined.

End ExtraWitnesses.
